(** * Eleveld target-controlled infusion protocol (simtiva)

    Shallow embedding of [src/eleveldProtocol.ts]: the covariate parameter
    model [eleveldParameters], the loading-dose calculator
    [calculateLoadingDose] and the infusion simulator [eleveldProtocol]; and,
    in the modules [TimedLoading] and [FixedRate], of the two earlier
    simulators kept in [src/unnamed/part_000], which integrate in minutes.

    Numbers.  A JavaScript [number] is modelled by a real number: the
    arithmetic of the source is read as exact arithmetic on [R], without
    rounding, overflow or NaN (the specification states its properties up to
    floating-point tolerance).  The one division of the source whose divisor
    is zero on ordinary inputs (the bolus rate of an empty loading phase) has
    its IEEE outcome written out, see [resolveBolus].

    Loops.  Both [while] loops of the simulator are run with a fuel that
    bounds the number of loop tests; a run returns the steps pushed so far and
    a flag telling whether the function returned. *)

From Stdlib Require Import QArith Qround Qreals.
From Stdlib Require Import Reals Lra Lia ZArith List Bool Sorted.
Import ListNotations.
Local Open Scope R_scope.

(** ** The part of the JavaScript [Math] object the source uses *)

Module Math.

(** [Math.pow x y] for a positive base [x].  Every call of the source has a
    positive base when age, weight and height are positive. *)
Definition pow (x y : R) : R := Rpower x y.

Definition exp (x : R) : R := Rtrigo_def.exp x.

Definition max (x y : R) : R := Rmax x y.

Definition min (x y : R) : R := Rmin x y.

(** [Math.round x] is the integer nearest to [x], ties going up:
    [floor (x + 0.5)]. *)
Definition round (x : R) : R := IZR (Zfloor (x + 0.5)).

End Math.

(** ** Data model *)

Inductive Sex : Set := Male | Female.

Inductive Drug : Set := propofol | remifentanil.

Inductive Phase : Set := loading | maintenance | decay.

Record DosingStep : Type := {
  time : R;
  rate : R;
  ce : R;
  cumulativeDoseMg : R;
  phase : Phase
}.

(** The optional fields of the source's [Params] are options here;
    [undefined] is [None]. *)
Record Params : Type := {
  drug : Drug;
  concentrationMgPerMl : R;
  ageYears : R;
  sex : Sex;
  weightKg : R;
  heightCm : R;
  targetCe : R;
  intervalSec : option R;
  volumeMl : option R;
  currentCe : option R;
  loadingDoseMg : option R;
  loadingDurationSec : option R
}.

(** [x ?? d] *)
Definition orDefault (x : option R) (d : R) : R :=
  match x with Some v => v | None => d end.

Infix "??" := orDefault (at level 45, left associativity).

(** The object returned by [eleveldParameters]. *)
Record CompartmentalParameters : Type := {
  vc : R; v2 : R; v3 : R;
  k10 : R; k12 : R; k13 : R; k21 : R; k31 : R;
  ke0 : R; cl1 : R
}.

(** ** Covariate parameter model *)

Definition fsigmoid (x y z : R) : R :=
  Math.pow x z / (Math.pow x z + Math.pow y z).

Definition fageing (age x : R) : R := Math.exp (x * (age - 35)).

Definition fcentral (x : R) : R := fsigmoid x 33.6 1.

Definition fclmaturation (weeks : R) : R := fsigmoid weeks 42.3 9.06.

Definition fq3maturation (weeks : R) : R := fsigmoid (weeks + 40) 68.3 1.

Definition fffm (weight height age : R) (s : Sex) : R :=
  let bmi := weight / Math.pow (height / 100) 2 in
  match s with
  | Male =>
      (0.88 + (1 - 0.88) / (1 + Math.pow (age / 13.4) (-12.7)))
      * ((9270 * weight) / (6680 + 216 * bmi))
  | Female =>
      (1.11 + (1 - 1.11) / (1 + Math.pow (age / 7.1) (-1.1)))
      * ((9270 * weight) / (8780 + 244 * bmi))
  end.

Definition toWeeks : R := 52.1429.

(** The constant [ffmRef] is written out twice in the source, once per drug,
    with the same text. *)
Definition ffmRef : R :=
  (0.88 + (1 - 0.88) / (1 + Math.pow (35 / 13.4) (-12.7)))
  * ((9270 * 70) / (6680 + 216 * 24.22145)).

Definition eleveldParameters (p : Params) : CompartmentalParameters :=
  match drug p with
  | propofol =>
      let PMA := ageYears p * toWeeks + 40 in
      let vc := 6.28 * fcentral (weightKg p) / fcentral 70 in
      let v2 := 25.5 * weightKg p / 70 * fageing (ageYears p) (-0.0156) in
      let v3 := 273 * fffm (weightKg p) (heightCm p) (ageYears p) (sex p) / ffmRef in
      let v3 := v3 * Math.exp (-0.0138 * ageYears p) in
      let v2ref := 25.5 in
      let v3ref := 273 in
      let cl1 :=
        match sex p with
        | Male =>
            1.79 * Math.pow (weightKg p / 70) 0.75
            * (fclmaturation PMA / fclmaturation (35 * toWeeks + 40))
        | Female =>
            2.1 * Math.pow (weightKg p / 70) 0.75
            * (fclmaturation PMA / fclmaturation (35 * toWeeks + 40))
        end in
      let cl2 :=
        1.75 * Math.pow (v2 / v2ref) 0.75
        * (1 + 1.3 * (1 - fq3maturation (ageYears p * toWeeks))) in
      let cl3 :=
        1.11 * Math.pow (v3 / v3ref) 0.75
        * (fq3maturation (ageYears p * toWeeks) / fq3maturation (35 * toWeeks)) in
      let ke0 := 0.146 * Math.pow (weightKg p / 70) (-0.25) in
      {| vc := vc; v2 := v2; v3 := v3;
         k10 := cl1 / vc; k12 := cl2 / vc; k13 := cl3 / vc;
         k21 := cl2 / v2; k31 := cl3 / v3;
         ke0 := ke0; cl1 := cl1 |}
  | remifentanil =>
      let size := fffm (weightKg p) (heightCm p) (ageYears p) (sex p) / ffmRef in
      let ksex :=
        match sex p with
        | Male => 1
        | Female =>
            1 + 0.47 * fsigmoid (ageYears p) 12 6 * (1 - fsigmoid (ageYears p) 45 6)
        end in
      let vc := 5.81 * size * fageing (ageYears p) (-0.00554) in
      let v2 := 8.82 * size * fageing (ageYears p) (-0.00327) * ksex in
      let v3 :=
        5.03 * size * fageing (ageYears p) (-0.0315)
        * Math.exp (-0.026 * (weightKg p - 70)) in
      let cl1 :=
        2.58 * Math.pow size 0.75
        * (fsigmoid (weightKg p) 2.88 2 / fsigmoid 70 2.88 2)
        * ksex * fageing (ageYears p) (-0.00327) in
      let cl2 :=
        1.72 * Math.pow (v2 / 8.82) 0.75 * fageing (ageYears p) (-0.00554) * ksex in
      let cl3 :=
        0.124 * Math.pow (v3 / 5.03) 0.75 * fageing (ageYears p) (-0.00554) in
      let ke0 :=
        if Rle_dec (ageYears p) 16 then 0.71
        else 1.09 * fageing (ageYears p) (-0.0289) in
      {| vc := vc; v2 := v2; v3 := v3;
         k10 := cl1 / vc; k12 := cl2 / vc; k13 := cl3 / vc;
         k21 := cl2 / v2; k31 := cl3 / v3;
         ke0 := ke0; cl1 := cl1 |}
  end.

(** ** Loading dose calculator *)

Record LoadingDose : Type := {
  ld_loadingDoseMg : R;
  ld_durationSec : R
}.

Definition calculateLoadingDose (params : Params) : LoadingDose :=
  let p := eleveldParameters params in
  let startCe := currentCe params ?? 0 in
  let deltaCe := Math.max (targetCe params - startCe) 0 in
  let doseMg := deltaCe * vc p in
  let mgPerSec := concentrationMgPerMl params * (1000 / 3600) in
  let durationSec := doseMg / mgPerSec in
  {| ld_loadingDoseMg := doseMg; ld_durationSec := durationSec |}.

(** ** Infusion simulator *)

(** The local variables [C1], [C2], [C3], [Ce], [cumulative] and [time] of
    [eleveldProtocol]; [elapsed] is the source's [time], which is not rounded. *)
Record SimulationState : Type := {
  C1 : R; C2 : R; C3 : R; Ce : R;
  cumulative : R;
  elapsed : R
}.

(** The source destructures [loadingDoseMg] and [loadingDurationSec] from the
    parameters and lets the calculator fill in the fields that are missing. *)
Definition resolveLoading (params : Params) : R * R :=
  match loadingDoseMg params, loadingDurationSec params with
  | Some dose, Some duration => (dose, duration)
  | dose, duration =>
      let calc := calculateLoadingDose params in
      (dose ?? ld_loadingDoseMg calc, duration ?? ld_durationSec calc)
  end.

(** [bolusRateMgSec = loadingDoseMg / loadingDurationSec], clamped to the pump
    ceiling; returns the rate and the duration after the clamp.  When the
    duration is zero the quotient of the source is [+Infinity] for a positive
    dose, which exceeds the ceiling, and [NaN] or [-Infinity] otherwise, for
    which the comparison is false; in the latter case the loading loop does
    not run and the rate is never read, it is given as 0 here. *)
Definition resolveBolus (maxRateMgSec dose duration : R) : R * R :=
  if Req_dec_T duration 0 then
    if Rlt_dec 0 dose then (maxRateMgSec, dose / maxRateMgSec)
    else (0, duration)
  else
    let bolusRateMgSec := dose / duration in
    if Rlt_dec maxRateMgSec bolusRateMgSec
    then (maxRateMgSec, dose / maxRateMgSec)
    else (bolusRateMgSec, duration).

Section Loops.

Variable params : Params.
Variable interval : R.
Variable p : CompartmentalParameters.
Variable maxRateMgSec : R.
Variable bolusRateMgSec : R.
Variable loadingDuration : R.

(** One explicit Euler tick of size [dt] at infusion rate [r] (mg/s): the
    four derivative lines, the four updates, and the updates of
    [cumulative] and [time].  The source has this text twice, once per
    loop. *)
Definition integrate (r dt : R) (st : SimulationState) : SimulationState :=
  let dC1 :=
    (r / vc p) - (k10 p + k12 p + k13 p) * C1 st + k21 p * C2 st + k31 p * C3 st in
  let dC2 := k12 p * C1 st - k21 p * C2 st in
  let dC3 := k13 p * C1 st - k31 p * C3 st in
  let dCe := ke0 p * (C1 st - Ce st) in
  {| C1 := C1 st + dC1 * dt;
     C2 := C2 st + dC2 * dt;
     C3 := C3 st + dC3 * dt;
     Ce := Ce st + dCe * dt;
     cumulative := cumulative st + r * dt;
     elapsed := elapsed st + dt |}.

Definition ratePerKg (r : R) : R := (r * 60) / weightKg params * 1000.

Definition emit (r : R) (st : SimulationState) (ph : Phase) : DosingStep :=
  {| time := Math.round (elapsed st);
     rate := ratePerKg r;
     ce := Ce st;
     cumulativeDoseMg := cumulative st;
     phase := ph |}.

(** [while (time < loadingDurationSec) { ... }]: the steps pushed, and the
    state at loop exit ([None] when the fuel ran out first). *)
Fixpoint loadingLoop (fuel : nat) (st : SimulationState)
  : list DosingStep * option SimulationState :=
  match fuel with
  | O => ([], None)
  | S fuel' =>
      if Rlt_dec (elapsed st) loadingDuration then
        let dt := Math.min interval (loadingDuration - elapsed st) in
        let st' := integrate bolusRateMgSec dt st in
        let (rest, out) := loadingLoop fuel' st' in
        (emit bolusRateMgSec st' loading :: rest, out)
      else ([], Some st)
  end.

(** The infusion rate of one tick of the second loop. *)
Definition infusionRate (remainingMg : R) (st : SimulationState) : R :=
  let dt := interval in
  if Rlt_dec 0 remainingMg then
    let error := targetCe params - Ce st in
    let desiredMgSec := (targetCe params * cl1 p + error * vc p * ke0 p) / 60 in
    let desiredMgSec := if Rlt_dec desiredMgSec 0 then 0 else desiredMgSec in
    let infusionRateMgSec := Math.min maxRateMgSec desiredMgSec in
    let maxDeliver := remainingMg / dt in
    if Rlt_dec maxDeliver infusionRateMgSec then maxDeliver else infusionRateMgSec
  else 0.

(** [remainingMg] after the tick. *)
Definition remainingAfter (remainingMg r : R) : R :=
  if Rlt_dec 0 remainingMg then remainingMg - r * interval else remainingMg.

(** [remainingMg > 0 || Ce > 0.01] *)
Definition continues (remainingMg : R) (st : SimulationState) : bool :=
  (if Rlt_dec 0 remainingMg then true else false)
  || (if Rlt_dec 0.01 (Ce st) then true else false).

(** [remainingMg <= 0 && Ce <= 0.01] *)
Definition breaks (remainingMg : R) (st : SimulationState) : bool :=
  (if Rle_dec remainingMg 0 then true else false)
  && (if Rle_dec (Ce st) 0.01 then true else false).

(** [while (remainingMg > 0 || Ce > 0.01) { ... }]: the steps pushed and
    whether the loop was left. *)
Fixpoint mainLoop (fuel : nat) (remainingMg : R) (st : SimulationState)
  : list DosingStep * bool :=
  match fuel with
  | O => ([], false)
  | S fuel' =>
      if continues remainingMg st then
        let r := infusionRate remainingMg st in
        let remainingMg' := remainingAfter remainingMg r in
        let st' := integrate r interval st in
        let step :=
          emit r st' (if Rlt_dec 0 remainingMg' then maintenance else decay) in
        if breaks remainingMg' st' then ([step], true)
        else
          let (rest, fin) := mainLoop fuel' remainingMg' st' in
          (step :: rest, fin)
      else ([], true)
  end.

End Loops.

(** The outcome of a run: the steps pushed so far, and whether
    [eleveldProtocol] returned within the fuel. *)
Record Run : Type := {
  steps : list DosingStep;
  returned : bool
}.

Definition initialState (params : Params) : SimulationState :=
  {| C1 := currentCe params ?? 0;
     C2 := 0; C3 := 0;
     Ce := currentCe params ?? 0;
     cumulative := 0;
     elapsed := 0 |}.

(** [eleveldProtocol params]; each of the two loops tests its condition at
    most [fuel] times. *)
Definition eleveldProtocol (fuel : nat) (params : Params) : Run :=
  let interval := intervalSec params ?? 10 in
  let p := eleveldParameters params in
  let maxRateMgSec := concentrationMgPerMl params * (1000 / 3600) in
  let (dose, duration) := resolveLoading params in
  let (bolusRateMgSec, duration) := resolveBolus maxRateMgSec dose duration in
  match loadingLoop params interval p bolusRateMgSec duration fuel (initialState params) with
  | (ls, None) => {| steps := ls; returned := false |}
  | (ls, Some st) =>
      let remainingMg := (volumeMl params ?? 0) * concentrationMgPerMl params in
      let (ms, fin) := mainLoop params interval p maxRateMgSec fuel remainingMg st in
      {| steps := ls ++ ms; returned := fin |}
  end.

(** ** Valid inputs *)

(** The covariates the parameter model reads. *)
Definition valid_covariates (params : Params) : Prop :=
  0 < ageYears params /\ 0 < weightKg params /\ 0 < heightCm params.

(** A fully valid input of the simulator: positive covariates and reservoir
    concentration, a positive time step, and no negative amount. *)
Record valid_params (params : Params) : Prop := {
  valid_cov : valid_covariates params;
  valid_concentration : 0 < concentrationMgPerMl params;
  valid_target : 0 <= targetCe params;
  valid_interval : 0 < intervalSec params ?? 10;
  valid_volume : 0 <= volumeMl params ?? 0;
  valid_current : 0 <= currentCe params ?? 0;
  valid_loadingDose : 0 <= loadingDoseMg params ?? 0;
  valid_loadingDuration : 0 <= loadingDurationSec params ?? 0
}.

(** The input of the termination property of the specification: propofol,
    70 kg, 35 years, male, 170 cm, target 3, 20 mL at 10 mg/mL, 10 s. *)
Definition referencePatient : Params :=
  {| drug := propofol;
     concentrationMgPerMl := 10;
     ageYears := 35;
     sex := Male;
     weightKg := 70;
     heightCm := 170;
     targetCe := 3;
     intervalSec := Some 10;
     volumeMl := Some 20;
     currentCe := None;
     loadingDoseMg := None;
     loadingDurationSec := None |}.

(** ** Rational enclosures of a run

    The parameters of a patient involve [Math.exp] and [Math.pow] and are
    known only up to bounds.  A run on such parameters is followed with
    rational intervals: every quantity of the second loop is enclosed in an
    interval with rational end points, and a tick is accepted only when the
    enclosures decide each test of the source.  The functions below compute;
    their soundness with respect to [mainLoop] is proved further down. *)

Record Interval : Type := { lo : Q; hi : Q }.

Definition qmin (a b : Q) : Q := if Qle_bool a b then a else b.

Definition qmax (a b : Q) : Q := if Qle_bool a b then b else a.

Definition qlt (a b : Q) : bool := negb (Qle_bool b a).

(** End points are rounded outwards to multiples of 2^-20 after a product. *)
Definition grid : positive := 1048576.

Definition rdown (q : Q) : Q := (Qfloor (q * (Zpos grid # 1)) # grid)%Q.

Definition rup (q : Q) : Q := (Qceiling (q * (Zpos grid # 1)) # grid)%Q.

Definition iconst (q : Q) : Interval := {| lo := q; hi := q |}.

Definition iadd (a b : Interval) : Interval :=
  {| lo := Qred (lo a + lo b); hi := Qred (hi a + hi b) |}.

Definition isub (a b : Interval) : Interval :=
  {| lo := Qred (lo a - hi b); hi := Qred (hi a - lo b) |}.

Definition imul (a b : Interval) : Interval :=
  let p1 := (lo a * lo b)%Q in
  let p2 := (lo a * hi b)%Q in
  let p3 := (hi a * lo b)%Q in
  let p4 := (hi a * hi b)%Q in
  {| lo := rdown (qmin (qmin p1 p2) (qmin p3 p4));
     hi := rup (qmax (qmax p1 p2) (qmax p3 p4)) |}.

Definition iscale (c : Q) (a : Interval) : Interval := imul (iconst c) a.

Definition imin (a b : Interval) : Interval :=
  {| lo := qmin (lo a) (lo b); hi := qmin (hi a) (hi b) |}.

Definition imax (a b : Interval) : Interval :=
  {| lo := qmax (lo a) (lo b); hi := qmax (hi a) (hi b) |}.

(** [x > c] for every [x] of the interval, for none, or undecided. *)
Definition igt (i : Interval) (c : Q) : option bool :=
  if qlt c (lo i) then Some true
  else if Qle_bool (hi i) c then Some false
  else None.

Record AState : Type := {
  aC1 : Interval; aC2 : Interval; aC3 : Interval; aCe : Interval
}.

(** [Vc], [CL1] and [ke0] are taken exact, the rate constants enclosed. *)
Record AParams : Type := {
  a_vc : Q; a_cl1 : Q; a_ke0 : Q;
  a_k10 : Interval; a_k12 : Interval; a_k13 : Interval;
  a_k21 : Interval; a_k31 : Interval
}.

(** What is kept of a step: its phase, and enclosures of the effect-site
    concentration and of the infusion rate in mg/s. *)
Record AStep : Type := {
  a_phase : Phase;
  a_ce : Interval;
  a_rate : Interval
}.

Section Enclosure.

Variable target dt maxRate : Q.
Variable ap : AParams.

(** The rate of a tick with budget left, and the budget after it.  When
    the ceiling [remainingMg / dt] binds, the budget after the tick is
    exactly 0. *)
Definition arate (arem : Interval) (s : AState) : option (Interval * Interval) :=
  let error := isub (iconst target) (aCe s) in
  let desired :=
    iscale (/ 60)
      (iadd (iconst (target * a_cl1 ap)) (iscale (a_vc ap * a_ke0 ap) error)) in
  let desired := imax desired (iconst 0) in
  let r := imin (iconst maxRate) desired in
  let maxDeliver := iscale (/ dt) arem in
  if qlt (hi maxDeliver) (lo r) then Some (maxDeliver, iconst 0)
  else if Qle_bool (hi r) (lo maxDeliver)
       then Some (r, isub arem (iscale dt r))
       else None.

(** One Euler tick, each update regrouped as a combination of the old
    values: [C1 + dC1 * dt] is [(1 - dt * K) * C1 + dt * (...)]. *)
Definition aintegrate (r : Interval) (s : AState) : AState :=
  let K := iadd (iadd (a_k10 ap) (a_k12 ap)) (a_k13 ap) in
  {| aC1 :=
       iadd (imul (isub (iconst 1) (iscale dt K)) (aC1 s))
            (iscale dt
               (iadd (iadd (iscale (/ a_vc ap) r) (imul (a_k21 ap) (aC2 s)))
                     (imul (a_k31 ap) (aC3 s))));
     aC2 :=
       iadd (imul (isub (iconst 1) (iscale dt (a_k21 ap))) (aC2 s))
            (iscale dt (imul (a_k12 ap) (aC1 s)));
     aC3 :=
       iadd (imul (isub (iconst 1) (iscale dt (a_k31 ap))) (aC3 s))
            (iscale dt (imul (a_k13 ap) (aC1 s)));
     aCe :=
       iadd (iscale (1 - a_ke0 ap * dt) (aCe s))
            (iscale (a_ke0 ap * dt) (aC1 s)) |}.

(** The end of a tick: tag the step, then stop or go on. *)
Definition afinish (r arem' : Interval) (s' : AState)
    (continue : option (list AStep)) : option (list AStep) :=
  match igt arem' 0 with
  | Some true =>
      option_map
        (cons {| a_phase := maintenance; a_ce := aCe s'; a_rate := r |})
        continue
  | Some false =>
      let step := {| a_phase := decay; a_ce := aCe s'; a_rate := r |} in
      match igt (aCe s') (1 # 100) with
      | Some true => option_map (cons step) continue
      | Some false => Some [step]
      | None => None
      end
  | None => None
  end.

(** The second loop on enclosures; [None] when the fuel runs out or a test
    is not decided. *)
Fixpoint amainLoop (fuel : nat) (arem : Interval) (s : AState)
  : option (list AStep) :=
  match fuel with
  | O => None
  | S fuel' =>
      match igt arem 0 with
      | Some true =>
          match arate arem s with
          | Some (r, arem') =>
              let s' := aintegrate r s in
              afinish r arem' s' (amainLoop fuel' arem' s')
          | None => None
          end
      | Some false =>
          match igt (aCe s) (1 # 100) with
          | Some true =>
              let s' := aintegrate (iconst 0) s in
              afinish (iconst 0) arem s' (amainLoop fuel' arem s')
          | Some false => Some []
          | None => None
          end
      | None => None
      end
  end.

End Enclosure.

(** Membership of a real number in a rational interval. *)
Definition inI (x : R) (i : Interval) : Prop := Q2R (lo i) <= x <= Q2R (hi i).

Record inState (st : SimulationState) (a : AState) : Prop := {
  in_C1 : inI (C1 st) (aC1 a);
  in_C2 : inI (C2 st) (aC2 a);
  in_C3 : inI (C3 st) (aC3 a);
  in_Ce : inI (Ce st) (aCe a)
}.

Record inParams (p : CompartmentalParameters) (a : AParams) : Prop := {
  in_vc : vc p = Q2R (a_vc a);
  in_cl1 : cl1 p = Q2R (a_cl1 a);
  in_ke0 : ke0 p = Q2R (a_ke0 a);
  in_k10 : inI (k10 p) (a_k10 a);
  in_k12 : inI (k12 p) (a_k12 a);
  in_k13 : inI (k13 p) (a_k13 a);
  in_k21 : inI (k21 p) (a_k21 a);
  in_k31 : inI (k31 p) (a_k31 a)
}.

Record inStep (params : Params) (s : DosingStep) (a : AStep) : Prop := {
  in_phase : phase s = a_phase a;
  in_ce : inI (ce s) (a_ce a);
  in_rate : exists r, inI r (a_rate a) /\ rate s = ratePerKg params r
}.

(** The enclosure of the parameters of the reference patient: [k10] is
    1.79 / 6.28, [k12] and [k21] come from [cl2] with a margin, and the two
    constants of the slow compartment are enclosed coarsely. *)
Definition referenceAParams : AParams :=
  {| a_vc := 628 # 100; a_cl1 := 179 # 100; a_ke0 := 146 # 1000;
     a_k10 := iconst (179 # 628);
     a_k12 := {| lo := 2914 # 10000; hi := 2915 # 10000 |};
     a_k13 := {| lo := 9 # 100; hi := 18 # 100 |};
     a_k21 := {| lo := 717 # 10000; hi := 718 # 10000 |};
     a_k31 := {| lo := 4 # 1000; hi := 8 # 1000 |} |}.

(** The state of the reference patient when the loading loop is left. *)
Definition referenceAState : AState :=
  {| aC1 := iconst 3; aC2 := iconst 0; aC3 := iconst 0; aCe := iconst 0 |}.

(** The second loop of the reference patient on enclosures: target 3, tick
    10 s, ceiling 25/9 mg/s, budget 200 mg. *)
Definition referenceEnclosure : option (list AStep) :=
  amainLoop 3 10 (25 # 9) referenceAParams 40 (iconst 200) referenceAState.

(** The last element of a list, when there is one. *)
Fixpoint finalStep {A : Type} (l : list A) : option A :=
  match l with
  | [] => None
  | [x] => Some x
  | _ :: l' => finalStep l'
  end.

(** What is read off the enclosures of the reference patient: 18 steps in the
    second loop, the effect-site concentration of the last one at most 0.01,
    and that of the second one negative. *)
Definition referenceChecks (l : list AStep) : bool :=
  Nat.eqb (length l) 18
  && match finalStep l with
     | Some a => Qle_bool (hi (a_ce a)) (1 # 100)
     | None => false
     end
  && match nth_error l 1 with
     | Some a => qlt (hi (a_ce a)) 0
     | None => false
     end.

(** ** The quantities a run resolves before its loops *)

Definition intervalOf (params : Params) : R := intervalSec params ?? 10.

(** The pump ceiling [maxRateMgSec]: 1000 mL/h of the reservoir. *)
Definition pumpCeiling (params : Params) : R :=
  concentrationMgPerMl params * (1000 / 3600).

(** The loading dose after the calculator has filled in what is missing. *)
Definition resolvedDose (params : Params) : R := fst (resolveLoading params).

(** [bolusRateMgSec] and [loadingDurationSec] as the loading loop uses them. *)
Definition resolvedBolus (params : Params) : R * R :=
  resolveBolus (pumpCeiling params)
    (fst (resolveLoading params)) (snd (resolveLoading params)).

Definition resolvedDuration (params : Params) : R := snd (resolvedBolus params).

(** [remainingMg] at the start of the second loop. *)
Definition maintenanceBudget (params : Params) : R :=
  (volumeMl params ?? 0) * concentrationMgPerMl params.

(** The steps pushed by the first loop, and the state at its exit. *)
Definition loadingPhase (fuel : nat) (params : Params)
  : list DosingStep * option SimulationState :=
  loadingLoop params (intervalOf params) (eleveldParameters params)
    (fst (resolvedBolus params)) (resolvedDuration params)
    fuel (initialState params).

(** The steps pushed by the second loop from a state. *)
Definition mainPhase (fuel : nat) (params : Params) (st : SimulationState)
  : list DosingStep * bool :=
  mainLoop params (intervalOf params) (eleveldParameters params)
    (pumpCeiling params) fuel (maintenanceBudget params) st.

(** ** Inputs next to the reference patient

    The same covariates as the reference patient, with another target,
    volume, starting concentration or tick. *)

(** Target 4.5: the loading phase lasts 10.1736 s, one tick more than 10 s. *)
Definition longLoadingPatient : Params :=
  {| drug := propofol;
     concentrationMgPerMl := 10;
     ageYears := 35;
     sex := Male;
     weightKg := 70;
     heightCm := 170;
     targetCe := 4.5;
     intervalSec := Some 10;
     volumeMl := Some 20;
     currentCe := None;
     loadingDoseMg := None;
     loadingDurationSec := None |}.

(** A maintenance volume of 0.1 mL, 1 mg of drug. *)
Definition smallVolumePatient : Params :=
  {| drug := propofol;
     concentrationMgPerMl := 10;
     ageYears := 35;
     sex := Male;
     weightKg := 70;
     heightCm := 170;
     targetCe := 3;
     intervalSec := Some 10;
     volumeMl := Some 0.1;
     currentCe := None;
     loadingDoseMg := None;
     loadingDurationSec := None |}.

(** Already at the target of 3, and no maintenance volume given. *)
Definition atTargetPatient : Params :=
  {| drug := propofol;
     concentrationMgPerMl := 10;
     ageYears := 35;
     sex := Male;
     weightKg := 70;
     heightCm := 170;
     targetCe := 3;
     intervalSec := Some 10;
     volumeMl := None;
     currentCe := Some 3;
     loadingDoseMg := None;
     loadingDurationSec := None |}.

(** A tick of 0.4 s instead of 10 s. *)
Definition fineStepPatient : Params :=
  {| drug := propofol;
     concentrationMgPerMl := 10;
     ageYears := 35;
     sex := Male;
     weightKg := 70;
     heightCm := 170;
     targetCe := 3;
     intervalSec := Some 0.4;
     volumeMl := Some 20;
     currentCe := None;
     loadingDoseMg := None;
     loadingDurationSec := None |}.

(** ** The properties of the specification, as predicates on a step list *)

(** A field that never decreases from a step to the next. *)
Definition nondecreasing (f : DosingStep -> R) (l : list DosingStep) : Prop :=
  Sorted (fun s s' => f s <= f s') l.

(** The [time] field strictly increasing from each step to the next. *)
Definition timesStrictlyIncreasing (l : list DosingStep) : Prop :=
  Sorted (fun s s' => time s < time s') l.

(** Every step tagged [decay] has rate 0. *)
Definition decayRatesZero (l : list DosingStep) : Prop :=
  Forall (fun s => phase s = decay -> rate s = 0) l.

(** The phases read [loading* maintenance* decay*]. *)
Definition phasesInOrder (l : list DosingStep) : Prop :=
  exists l1 l2 l3,
    l = l1 ++ l2 ++ l3
    /\ Forall (fun s => phase s = loading) l1
    /\ Forall (fun s => phase s = maintenance) l2
    /\ Forall (fun s => phase s = decay) l3.

(** The un-rounded elapsed time from one tick to the next: it grows, by the
    configured interval, or by less on the tick that lands on the end of the
    loading phase. *)
Definition tickAdvance (interval duration t t' : R) : Prop :=
  t < t' /\ (t' - t = interval \/ (t' = duration /\ t' - t < interval)).

(** How a step shows the un-rounded elapsed time [t] of its tick: its [time]
    is [t] rounded, and it is a loading step exactly up to the end of the
    loading phase. *)
Definition stepAt (duration t : R) (s : DosingStep) : Prop :=
  time s = Math.round t /\ (phase s = loading <-> t <= duration).


(** The rate of the first maintenance tick of a patient who starts at the
    target: the pump ceiling, or what holds the target against elimination. *)
Definition holdingRate (params : Params) : R :=
  Math.min (pumpCeiling params)
    (targetCe params * cl1 (eleveldParameters params) / 60).

(** All ten numbers hold at once. *)
Definition all_positive (q : CompartmentalParameters) : Prop :=
  0 < vc q /\ 0 < v2 q /\ 0 < v3 q /\
  0 < k10 q /\ 0 < k12 q /\ 0 < k13 q /\ 0 < k21 q /\ 0 < k31 q /\
  0 < ke0 q /\ 0 < cl1 q.

(** A step that follows a decay step is a decay step with rate 0. *)
Definition afterDecay (s s' : DosingStep) : Prop :=
  phase s = decay -> phase s' = decay /\ rate s' = 0.

(** How the [time] fields of two consecutive steps compare when the interval
    is a whole number of seconds. *)
Definition timeAdvance (interval duration : R) (s s' : DosingStep) : Prop :=
  time s' - time s = interval
  \/ (phase s' = loading
      /\ time s' = Math.round duration
      /\ time s' - time s <= interval).



(** A remifentanil patient of a given age. *)
Definition remifentanilPatient (age : R) : Params :=
  {| drug := remifentanil;
     concentrationMgPerMl := 0.05;
     ageYears := age;
     sex := Female;
     weightKg := 55;
     heightCm := 165;
     targetCe := 0.004;
     intervalSec := None;
     volumeMl := Some 20;
     currentCe := None;
     loadingDoseMg := None;
     loadingDurationSec := None |}.

(** The state of the reference patient after the loading phase: the target
    in the central compartment, nothing at the effect site yet. *)
Definition loadedState : SimulationState :=
  {| C1 := 3; C2 := 0; C3 := 0; Ce := 0; cumulative := 18.84; elapsed := 6.7824 |}.

(** A state with an effect-site concentration of 10, far above a target
    of 3. *)
Definition overshotState : SimulationState :=
  {| C1 := 10; C2 := 0; C3 := 0; Ce := 10; cumulative := 18.84; elapsed := 100 |}.

(** The reference patient with a tick of 0 s. *)
Definition zeroIntervalPatient : Params :=
  {| drug := propofol;
     concentrationMgPerMl := 10;
     ageYears := 35;
     sex := Male;
     weightKg := 70;
     heightCm := 170;
     targetCe := 3;
     intervalSec := Some 0;
     volumeMl := Some 20;
     currentCe := None;
     loadingDoseMg := None;
     loadingDurationSec := None |}.

(** A patient with target 0 and a maintenance volume. *)
Definition zeroTargetPatient : Params :=
  {| drug := propofol;
     concentrationMgPerMl := 10;
     ageYears := 35;
     sex := Male;
     weightKg := 70;
     heightCm := 170;
     targetCe := 0;
     intervalSec := Some 10;
     volumeMl := Some 20;
     currentCe := None;
     loadingDoseMg := None;
     loadingDurationSec := None |}.

(** ** Further quantities and predicates of a run *)

(** The body-mass index as [fffm] computes it. *)
Definition bmi (weight height : R) : R := weight / Math.pow (height / 100) 2.

(** The steps of a list that are tagged loading. *)
Definition isLoading (s : DosingStep) : bool :=
  match phase s with
  | loading => true
  | _ => false
  end.

Definition loadingSteps (l : list DosingStep) : list DosingStep :=
  filter isLoading l.

(** The [rate] field of a step delivered at the pump ceiling. *)
Definition ceilingRate (params : Params) : R :=
  ratePerKg params (pumpCeiling params).

(** All the drug a run has to deliver: the resolved loading dose and the
    maintenance budget. *)
Definition supply (params : Params) : R :=
  resolvedDose params + maintenanceBudget params.

(** The tick is short against every rate constant: no Euler update takes
    more out of a compartment than is in it. *)
Definition stableStep (params : Params) : Prop :=
  let p := eleveldParameters params in
  let dt := intervalOf params in
  dt * (k10 p + k12 p + k13 p) <= 1
  /\ dt * k21 p <= 1
  /\ dt * k31 p <= 1
  /\ dt * ke0 p <= 1.

(** No compartment holds a negative concentration. *)
Definition nonNegative (st : SimulationState) : Prop :=
  0 <= C1 st /\ 0 <= C2 st /\ 0 <= C3 st /\ 0 <= Ce st.

(** The amount of drug in the three compartments, in units of the central
    volume. *)
Definition bodyLoad (st : SimulationState) : R := C1 st + C2 st + C3 st.

(** A step tagged maintenance has drug left to deliver; a step tagged decay
    has delivered all of it. *)
Definition supplyTagged (params : Params) (s : DosingStep) : Prop :=
  (phase s = maintenance -> cumulativeDoseMg s < supply params)
  /\ (phase s = decay -> cumulativeDoseMg s = supply params).

(** The drug delivered over [dt] seconds at the rate a step shows; the
    [rate] field is in mcg/kg/min. *)
Definition doseAtRate (params : Params) (s : DosingStep) (dt : R) : R :=
  rate s * weightKg params / (60 * 1000) * dt.

(** The cumulative doses of a step list, from a cumulative dose [prev]
    before it: each step adds at most what a full tick delivers at its
    rate, and exactly that when it is not a loading step. *)
Fixpoint doseChain (params : Params) (prev : R) (l : list DosingStep) : Prop :=
  match l with
  | [] => True
  | s :: l' =>
      cumulativeDoseMg s - prev <= doseAtRate params s (intervalOf params)
      /\ (phase s <> loading ->
          cumulativeDoseMg s - prev = doseAtRate params s (intervalOf params))
      /\ doseChain params (cumulativeDoseMg s) l'
  end.

(** A ranking function for the second loop.  [tickDrop] is what every tick
    of the loop takes off [potential]: the target, the threshold 0.01, or
    the concentration that the holding rate adds to the central compartment
    in one tick, whichever is least. *)
Definition tickDrop (params : Params) : R :=
  Rmin (targetCe params)
    (Rmin 0.01
       (holdingRate params * intervalOf params / vc (eleveldParameters params))).

Definition potential (params : Params) (rem : R) (st : SimulationState) : R :=
  let p := eleveldParameters params in
  let dt := intervalOf params in
  Ce st / (ke0 p * dt)
  + bodyLoad st / (k10 p * dt)
  + (1 / (k10 p * dt) + 1) / vc p * rem
  + (if Rlt_dec 0 rem then tickDrop params else 0).

(** The concentration the drug delivered so far would give if it all stayed
    in the central volume, on top of the starting concentration. *)
Definition dilutedDose (params : Params) (delivered : R) : R :=
  currentCe params ?? 0 + delivered / vc (eleveldParameters params).

(** A step of a pump that waits: tagged maintenance, with no infusion, no
    drug delivered and none in the body. *)
Definition idleStep (s : DosingStep) : Prop :=
  phase s = maintenance /\ rate s = 0 /\ ce s = 0 /\ cumulativeDoseMg s = 0.

(** The number of ticks that cover a duration: [k] ticks reach it and
    [k - 1] do not. *)
Definition ticksCover (interval duration : R) (k : nat) : Prop :=
  (INR k - 1) * interval < duration <= INR k * interval.

(** ** The earlier simulator with a timed loading phase

    [src/unnamed/part_000] holds two earlier versions of the module.  The
    second one (from its line 158 on) has the parameter model with the same
    text, a [calculateLoadingDose] with the same computation, and an
    [eleveldProtocol] that works in minutes: rates in mg/min, and an Euler
    tick of [intervalSec / 60] minutes.  It pushes the starting state as a
    first step, runs every tick at full length, and leaves its single loop
    through a [break].  Its [volumeMl] is not optional, and its steps are
    tagged loading or maintenance only. *)

(** The parameter model reads the five covariates of its argument and
    nothing else; the earlier versions call it through this record. *)
Definition covariateParams (d : Drug) (age : R) (s : Sex) (weight height : R)
  : Params :=
  {| drug := d;
     concentrationMgPerMl := 0;
     ageYears := age;
     sex := s;
     weightKg := weight;
     heightCm := height;
     targetCe := 0;
     intervalSec := None;
     volumeMl := None;
     currentCe := None;
     loadingDoseMg := None;
     loadingDurationSec := None |}.

Module TimedLoading.

Inductive Phase : Set := loading | maintenance.

Record DosingStep : Type := {
  time : R;
  rate : R;
  ce : R;
  cumulativeDoseMg : R;
  phase : Phase
}.

Record Params : Type := {
  drug : Drug;
  concentrationMgPerMl : R;
  ageYears : R;
  sex : Sex;
  weightKg : R;
  heightCm : R;
  targetCe : R;
  intervalSec : option R;
  volumeMl : R;
  currentCe : option R;
  loadingDoseMg : option R;
  loadingDurationSec : option R
}.

Definition eleveldParameters (p : Params) : CompartmentalParameters :=
  eleveldParameters
    (covariateParams (drug p) (ageYears p) (sex p) (weightKg p) (heightCm p)).

Record LoadingDose : Type := {
  doseMg : R;
  durationSec : R
}.

Definition calculateLoadingDose (params : Params) : LoadingDose :=
  let p := eleveldParameters params in
  let startCe := currentCe params ?? 0 in
  let deltaCe := Math.max (targetCe params - startCe) 0 in
  let doseMg := deltaCe * vc p in
  let rateMgPerSec := concentrationMgPerMl params * 1000 / 3600 in
  let durationSec := doseMg / rateMgPerSec in
  {| doseMg := doseMg; durationSec := durationSec |}.

(** The local variables [C1], [C2], [C3], [Ce], [infused], [cumulative] and
    [t] of [eleveldProtocol]. *)
Record LoopState : Type := {
  C1 : R; C2 : R; C3 : R; Ce : R;
  infused : R;
  cumulative : R;
  t : R
}.

Section Loop.

Variable params : Params.
Variable intervalSec : R.
Variable p : CompartmentalParameters.
Variable maxRateMgMin : R.
Variable loadingRateMgMin : R.
Variable loadingDurationSec : R.
Variable totalMaintDoseMg : R.

(** [t < loadingDurationSec ? 'loading' : 'maintenance'] *)
Definition phaseAt (st : LoopState) : Phase :=
  if Rlt_dec (t st) loadingDurationSec then loading else maintenance.

(** The three branches that set [rateMgMin]; the second one also adds to
    [infused].  Returns the rate and the new value of [infused]. *)
Definition rateAt (st : LoopState) : R * R :=
  if Rlt_dec (t st) loadingDurationSec then
    (Math.min loadingRateMgMin maxRateMgMin, infused st)
  else if Rlt_dec (infused st) totalMaintDoseMg then
    let desired := cl1 p * targetCe params + ke0 p * vc p * (targetCe params - Ce st) in
    let desired := Math.max 0 (Math.min maxRateMgMin desired) in
    let remain := totalMaintDoseMg - infused st in
    let maxForInterval := remain / (intervalSec / 60) in
    let rateMgMin := Math.min desired maxForInterval in
    (rateMgMin, infused st + rateMgMin * (intervalSec / 60))
  else (0, infused st).

(** The Euler tick of [intervalSec / 60] minutes at [rateMgMin], and the
    updates of [cumulative] and [t]. *)
Definition advance (rateMgMin infused' : R) (st : LoopState) : LoopState :=
  let dtMin := intervalSec / 60 in
  let dC1 :=
    (rateMgMin / vc p) - (k10 p + k12 p + k13 p + ke0 p) * C1 st
    + k21 p * C2 st + k31 p * C3 st in
  let dC2 := k12 p * C1 st - k21 p * C2 st in
  let dC3 := k13 p * C1 st - k31 p * C3 st in
  let dCe := ke0 p * (C1 st - Ce st) in
  {| C1 := C1 st + dC1 * dtMin;
     C2 := C2 st + dC2 * dtMin;
     C3 := C3 st + dC3 * dtMin;
     Ce := Ce st + dCe * dtMin;
     infused := infused';
     cumulative := cumulative st + rateMgMin * dtMin;
     t := t st + intervalSec |}.

Definition pushed (rateMgMin : R) (st' : LoopState) (ph : Phase) : DosingStep :=
  {| time := t st';
     rate := (rateMgMin / weightKg params) * 1000;
     ce := Ce st';
     cumulativeDoseMg := cumulative st';
     phase := ph |}.

(** [rateMgMin === 0 && Ce <= 0.05] *)
Definition breaks (rateMgMin : R) (st' : LoopState) : bool :=
  (if Req_dec_T rateMgMin 0 then true else false)
  && (if Rle_dec (Ce st') 0.05 then true else false).

(** [while (true) { ... }], run for at most [fuel] iterations: the steps
    pushed and whether the loop was left. *)
Fixpoint loop (fuel : nat) (st : LoopState) : list DosingStep * bool :=
  match fuel with
  | O => ([], false)
  | S fuel' =>
      let ph := phaseAt st in
      let (rateMgMin, infused') := rateAt st in
      let st' := advance rateMgMin infused' st in
      let step := pushed rateMgMin st' ph in
      if breaks rateMgMin st' then ([step], true)
      else
        let (rest, fin) := loop fuel' st' in
        (step :: rest, fin)
  end.

End Loop.

Record Run : Type := {
  steps : list DosingStep;
  returned : bool
}.

Definition resolvedInterval (params : Params) : R := intervalSec params ?? 10.

Definition maxRateMgMin (params : Params) : R :=
  concentrationMgPerMl params * 1000 / 60.

Definition resolvedLoadingDose (params : Params) : R :=
  loadingDoseMg params ?? doseMg (calculateLoadingDose params).

Definition resolvedLoadingDuration (params : Params) : R :=
  loadingDurationSec params ?? durationSec (calculateLoadingDose params).

(** [loadingDurationSec > 0 ? loadingDoseMg / (loadingDurationSec / 60) : 0] *)
Definition loadingRateMgMin (params : Params) : R :=
  if Rlt_dec 0 (resolvedLoadingDuration params)
  then resolvedLoadingDose params / (resolvedLoadingDuration params / 60)
  else 0.

Definition totalMaintDoseMg (params : Params) : R :=
  volumeMl params * concentrationMgPerMl params.

Definition initialState (params : Params) : LoopState :=
  {| C1 := currentCe params ?? 0;
     C2 := 0; C3 := 0;
     Ce := currentCe params ?? 0;
     infused := 0;
     cumulative := 0;
     t := 0 |}.

(** The step pushed before the loop. *)
Definition initialStep (params : Params) : DosingStep :=
  {| time := 0;
     rate := (loadingRateMgMin params / weightKg params) * 1000;
     ce := currentCe params ?? 0;
     cumulativeDoseMg := 0;
     phase := loading |}.

Definition eleveldProtocol (fuel : nat) (params : Params) : Run :=
  let (rest, fin) :=
    loop params (resolvedInterval params) (eleveldParameters params)
      (maxRateMgMin params) (loadingRateMgMin params)
      (resolvedLoadingDuration params) (totalMaintDoseMg params)
      fuel (initialState params) in
  {| steps := initialStep params :: rest; returned := fin |}.

Record valid_params (params : Params) : Prop := {
  valid_age : 0 < ageYears params;
  valid_weight : 0 < weightKg params;
  valid_height : 0 < heightCm params;
  valid_concentration : 0 < concentrationMgPerMl params;
  valid_target : 0 <= targetCe params;
  valid_interval : 0 < intervalSec params ?? 10;
  valid_volume : 0 <= volumeMl params;
  valid_current : 0 <= currentCe params ?? 0;
  valid_loadingDose : 0 <= loadingDoseMg params ?? 0;
  valid_loadingDuration : 0 <= loadingDurationSec params ?? 0
}.

(** The tick in minutes is short against every rate constant. *)
Definition stableStep (params : Params) : Prop :=
  let p := eleveldParameters params in
  let dtMin := resolvedInterval params / 60 in
  dtMin * (k10 p + k12 p + k13 p + ke0 p) <= 1
  /\ dtMin * k21 p <= 1
  /\ dtMin * k31 p <= 1
  /\ dtMin * ke0 p <= 1.

(** The reference patient of the specification, as an input of this
    version. *)
Definition referencePatient : Params :=
  {| drug := propofol;
     concentrationMgPerMl := 10;
     ageYears := 35;
     sex := Male;
     weightKg := 70;
     heightCm := 170;
     targetCe := 3;
     intervalSec := Some 10;
     volumeMl := 20;
     currentCe := None;
     loadingDoseMg := None;
     loadingDurationSec := None |}.

(** Nothing to do: no target, no volume, no drug in the body. *)
Definition restingPatient : Params :=
  {| drug := propofol;
     concentrationMgPerMl := 10;
     ageYears := 35;
     sex := Male;
     weightKg := 70;
     heightCm := 170;
     targetCe := 0;
     intervalSec := Some 10;
     volumeMl := 0;
     currentCe := None;
     loadingDoseMg := None;
     loadingDurationSec := None |}.

Definition nonNegative (st : LoopState) : Prop :=
  0 <= C1 st /\ 0 <= C2 st /\ 0 <= C3 st /\ 0 <= Ce st.

(** The rate of the loading ticks: the loading rate, held to the pump
    ceiling. *)
Definition loadingTickRate (params : Params) : R :=
  Math.min (loadingRateMgMin params) (maxRateMgMin params).

(** The [time] fields of a step list are the multiples of the interval,
    from the [k]-th on. *)
Fixpoint timesFrom (interval : R) (k : nat) (l : list DosingStep) : Prop :=
  match l with
  | [] => True
  | s :: l' => time s = INR k * interval /\ timesFrom interval (S k) l'
  end.

(** The cumulative doses of a step list, from [prev] before it: each step
    adds what its rate (mcg/kg/min, times the weight) delivers over one full
    tick. *)
Fixpoint fullTicks (params : Params) (prev : R) (l : list DosingStep) : Prop :=
  match l with
  | [] => True
  | s :: l' =>
      cumulativeDoseMg s - prev
      = rate s * weightKg params / 1000 * (resolvedInterval params / 60)
      /\ fullTicks params (cumulativeDoseMg s) l'
  end.

End TimedLoading.

(** ** The earlier simulator with a bolus and a fixed rate

    The first version kept in [src/unnamed/part_000] (up to its line 157)
    has no loading phase in time: the loading dose is a bolus, one step at
    time 0 that lifts the central and the effect-site concentration at once,
    and the maintenance infusion runs at the fixed rate [targetCe * CL1]
    until the volume is spent.  It also integrates in minutes, and leaves
    its [for] loop through a [break]. *)

Module FixedRate.

Inductive Phase : Set := loading | maintenance.

Record DosingStep : Type := {
  time : R;
  rate : R;
  ce : R;
  cumulativeDoseMg : R;
  phase : Phase
}.

Record Params : Type := {
  drug : Drug;
  concentrationMgPerMl : R;
  ageYears : R;
  sex : Sex;
  weightKg : R;
  heightCm : R;
  targetCe : R;
  intervalSec : option R;
  volumeMl : R;
  currentCe : option R
}.

Definition eleveldParameters (p : Params) : CompartmentalParameters :=
  eleveldParameters
    (covariateParams (drug p) (ageYears p) (sex p) (weightKg p) (heightCm p)).

(** The local variables [C1], [C2], [C3], [Ce], [cumulative] and [infused]
    of [eleveldProtocol], and the variable [t] of its [for] loop. *)
Record LoopState : Type := {
  C1 : R; C2 : R; C3 : R; Ce : R;
  cumulative : R;
  infused : R;
  t : R
}.

Section Loop.

Variable intervalSec : R.
Variable p : CompartmentalParameters.
Variable infusionRateMgMin : R.
Variable ratePerKg : R.
Variable totalInfDoseMg : R.

(** [rateMgMin = delivering ? infusionRateMgMin : 0], with
    [delivering = infused < totalInfDoseMg]. *)
Definition rateAt (st : LoopState) : R :=
  if Rlt_dec (infused st) totalInfDoseMg then infusionRateMgMin else 0.

(** The body of the loop up to the push, and the increment [t += intervalSec]
    that follows the body. *)
Definition advance (st : LoopState) : LoopState :=
  let dtMin := intervalSec / 60 in
  let rateMgMin := rateAt st in
  let dC1 :=
    (rateMgMin / vc p) - (k10 p + k12 p + k13 p + ke0 p) * C1 st
    + k21 p * C2 st + k31 p * C3 st in
  let dC2 := k12 p * C1 st - k21 p * C2 st in
  let dC3 := k13 p * C1 st - k31 p * C3 st in
  let dCe := ke0 p * (C1 st - Ce st) in
  let added := rateMgMin * dtMin in
  {| C1 := C1 st + dC1 * dtMin;
     C2 := C2 st + dC2 * dtMin;
     C3 := C3 st + dC3 * dtMin;
     Ce := Ce st + dCe * dtMin;
     cumulative := cumulative st + added;
     infused := infused st + added;
     t := t st + intervalSec |}.

(** The step pushed by the iteration that starts in [st]: its time is the
    [t] of that iteration. *)
Definition pushed (st : LoopState) : DosingStep :=
  {| time := t st;
     rate := if Rlt_dec (infused st) totalInfDoseMg then ratePerKg else 0;
     ce := Ce (advance st);
     cumulativeDoseMg := cumulative (advance st);
     phase := maintenance |}.

(** [!delivering && Ce <= 0.05] *)
Definition breaks (st : LoopState) : bool :=
  (if Rlt_dec (infused st) totalInfDoseMg then false else true)
  && (if Rle_dec (Ce (advance st)) 0.05 then true else false).

(** [for (let t = intervalSec; ; t += intervalSec) { ... }], run for at most
    [fuel] iterations. *)
Fixpoint loop (fuel : nat) (st : LoopState) : list DosingStep * bool :=
  match fuel with
  | O => ([], false)
  | S fuel' =>
      if breaks st then ([pushed st], true)
      else
        let (rest, fin) := loop fuel' (advance st) in
        (pushed st :: rest, fin)
  end.

End Loop.

Record Run : Type := {
  steps : list DosingStep;
  returned : bool
}.

Definition resolvedInterval (params : Params) : R := intervalSec params ?? 10.

Definition startCe (params : Params) : R := currentCe params ?? 0.

Definition deltaCe (params : Params) : R :=
  Math.max (targetCe params - startCe params) 0.

Definition bolusMg (params : Params) : R :=
  deltaCe params * vc (eleveldParameters params).

(** [if (bolusMg > 0) { steps.push(...) }] *)
Definition bolusSteps (params : Params) : list DosingStep :=
  if Rlt_dec 0 (bolusMg params) then
    [ {| time := 0;
         rate := (bolusMg params / weightKg params) * 60 * 1000;
         ce := startCe params;
         cumulativeDoseMg := bolusMg params;
         phase := loading |} ]
  else [].

Definition infusionRateMgMin (params : Params) : R :=
  targetCe params * cl1 (eleveldParameters params).

Definition ratePerKg (params : Params) : R :=
  (infusionRateMgMin params / weightKg params) * 1000.

Definition totalInfDoseMg (params : Params) : R :=
  volumeMl params * concentrationMgPerMl params.

Definition initialState (params : Params) : LoopState :=
  {| C1 := startCe params + deltaCe params;
     C2 := 0; C3 := 0;
     Ce := startCe params + deltaCe params;
     cumulative := bolusMg params;
     infused := 0;
     t := resolvedInterval params |}.

Definition eleveldProtocol (fuel : nat) (params : Params) : Run :=
  let (rest, fin) :=
    loop (resolvedInterval params) (eleveldParameters params)
      (infusionRateMgMin params) (ratePerKg params) (totalInfDoseMg params)
      fuel (initialState params) in
  {| steps := bolusSteps params ++ rest; returned := fin |}.

Record valid_params (params : Params) : Prop := {
  valid_age : 0 < ageYears params;
  valid_weight : 0 < weightKg params;
  valid_height : 0 < heightCm params;
  valid_concentration : 0 < concentrationMgPerMl params;
  valid_target : 0 <= targetCe params;
  valid_interval : 0 < intervalSec params ?? 10;
  valid_volume : 0 <= volumeMl params;
  valid_current : 0 <= currentCe params ?? 0
}.

(** The reference patient of the specification, as an input of this
    version. *)
Definition referencePatient : Params :=
  {| drug := propofol;
     concentrationMgPerMl := 10;
     ageYears := 35;
     sex := Male;
     weightKg := 70;
     heightCm := 170;
     targetCe := 3;
     intervalSec := Some 10;
     volumeMl := 20;
     currentCe := None |}.

(** The reference patient with a target of 0. *)
Definition zeroTargetPatient : Params :=
  {| drug := propofol;
     concentrationMgPerMl := 10;
     ageYears := 35;
     sex := Male;
     weightKg := 70;
     heightCm := 170;
     targetCe := 0;
     intervalSec := Some 10;
     volumeMl := 20;
     currentCe := None |}.

(** What one tick delivers at the fixed rate. *)
Definition tickDose (params : Params) : R :=
  infusionRateMgMin params * (resolvedInterval params / 60).

(** The [time] fields of a step list are the multiples of the interval,
    from the [k]-th on. *)
Fixpoint timesFrom (interval : R) (k : nat) (l : list DosingStep) : Prop :=
  match l with
  | [] => True
  | s :: l' => time s = INR k * interval /\ timesFrom interval (S k) l'
  end.

(** A step of the loop: tagged maintenance, at the fixed rate or at rate 0. *)
Definition infusionStep (params : Params) (s : DosingStep) : Prop :=
  phase s = maintenance /\ (rate s = ratePerKg params \/ rate s = 0).

End FixedRate.

(** * Properties *)

(** Decimal literals are rationals injected into [R]; [field] wants them as
    quotients of integers. *)
Ltac decimals := unfold Q2R in *; cbn [Qnum Qden] in *.

(** ** The model on small inputs *)

(** [Math.round] sends ties upwards, also below zero. *)
Example round_tie_up : Math.round 2.5 = 3 /\ Math.round (-2.5) = -2.
Proof.
  unfold Math.round. split.
  - apply (f_equal IZR (y := 3%Z)). apply Zfloor_eq. lra.
  - apply (f_equal IZR (y := (-2)%Z)). apply Zfloor_eq. lra.
Qed.

(** A positive dose over a zero duration is delivered at the pump ceiling;
    no dose over no duration leaves an empty loading phase. *)
Example resolveBolus_zero_duration :
  resolveBolus 2 5 0 = (2, 5 / 2) /\ resolveBolus 2 0 0 = (0, 0).
Proof.
  unfold resolveBolus.
  destruct (Req_dec_T 0 0) as [_|H]; [|contradiction].
  destruct (Rlt_dec 0 5) as [_|H]; [|lra].
  destruct (Rlt_dec 0 0) as [H|_]; [lra|].
  split; reflexivity.
Qed.

(** A bolus faster than the pump is clamped and takes longer. *)
Example resolveBolus_clamped : resolveBolus 2 30 10 = (2, 30 / 2).
Proof.
  unfold resolveBolus.
  destruct (Req_dec_T 10 0) as [H|_]; [lra|].
  destruct (Rlt_dec 2 (30 / 10)) as [_|H]; [reflexivity | lra].
Qed.

(** ** Positivity of the parameter model *)

Create HintDb pk_pos.

Lemma pow_pos (x y : R) : 0 < Math.pow x y.
Proof. unfold Math.pow, Rpower. apply exp_pos. Qed.

Lemma mexp_pos (x : R) : 0 < Math.exp x.
Proof. apply exp_pos. Qed.

Lemma fsigmoid_pos (x y z : R) : 0 < fsigmoid x y z.
Proof.
  unfold fsigmoid.
  pose proof (pow_pos x z); pose proof (pow_pos y z).
  apply Rdiv_lt_0_compat; lra.
Qed.

Lemma fsigmoid_lt_1 (x y z : R) : fsigmoid x y z < 1.
Proof.
  unfold fsigmoid.
  pose proof (pow_pos x z) as Hx; pose proof (pow_pos y z) as Hy.
  apply Rmult_lt_reg_r with (Math.pow x z + Math.pow y z); [lra|].
  unfold Rdiv. rewrite Rmult_assoc, Rinv_l by lra. lra.
Qed.

Lemma fageing_pos (age x : R) : 0 < fageing age x.
Proof. apply mexp_pos. Qed.

Lemma fcentral_pos (x : R) : 0 < fcentral x.
Proof. apply fsigmoid_pos. Qed.

Lemma fclmaturation_pos (w : R) : 0 < fclmaturation w.
Proof. apply fsigmoid_pos. Qed.

Lemma fq3maturation_pos (w : R) : 0 < fq3maturation w.
Proof. apply fsigmoid_pos. Qed.

Lemma fq3maturation_lt_1 (w : R) : fq3maturation w < 1.
Proof. apply fsigmoid_lt_1. Qed.

(** The logistic interpolation factor of the fat-free mass: for positive
    [a] and [q], [a + (1 - a) / (1 + q)] is [(a * q + 1) / (1 + q)]. *)
Lemma logistic_mix_pos (a q : R) : 0 < a -> 0 < q -> 0 < a + (1 - a) / (1 + q).
Proof.
  intros Ha Hq.
  replace (a + (1 - a) / (1 + q)) with ((a * q + 1) / (1 + q)) by (field; lra).
  apply Rdiv_lt_0_compat; nra.
Qed.

Lemma fffm_pos (weight height age : R) (s : Sex) :
  0 < weight -> 0 < fffm weight height age s.
Proof.
  intros Hw. unfold fffm.
  assert (Hbmi : 0 < weight / Math.pow (height / 100) 2)
    by (apply Rdiv_lt_0_compat; [lra | apply pow_pos]).
  destruct s; apply Rmult_lt_0_compat;
    try (apply logistic_mix_pos; [lra | apply pow_pos]);
    apply Rdiv_lt_0_compat; lra.
Qed.

Lemma ffmRef_pos : 0 < ffmRef.
Proof.
  unfold ffmRef. apply Rmult_lt_0_compat.
  - apply logistic_mix_pos; [lra | apply pow_pos].
  - lra.
Qed.

#[export] Hint Resolve pow_pos mexp_pos fsigmoid_pos fageing_pos fcentral_pos
  fclmaturation_pos fq3maturation_pos fffm_pos ffmRef_pos : pk_pos.
#[export] Hint Resolve Rmult_lt_0_compat Rdiv_lt_0_compat : pk_pos.

(** Splits a product or quotient of positive factors into its factors and
    closes the leaves with the positivity hints. *)
Ltac positive :=
  repeat first
    [ lra
    | solve [auto with pk_pos]
    | apply Rdiv_lt_0_compat
    | apply Rmult_lt_0_compat
    | apply Rinv_0_lt_compat ].

Lemma ksex_pos (age : R) :
  0 < 1 + 0.47 * fsigmoid age 12 6 * (1 - fsigmoid age 45 6).
Proof.
  pose proof (fsigmoid_pos age 12 6); pose proof (fsigmoid_lt_1 age 45 6).
  assert (0 < 0.47 * fsigmoid age 12 6 * (1 - fsigmoid age 45 6)) by positive.
  lra.
Qed.

#[export] Hint Resolve ksex_pos : pk_pos.

Lemma q2_factor_pos (w : R) : 0 < 1 + 1.3 * (1 - fq3maturation w).
Proof. pose proof (fq3maturation_lt_1 w). lra. Qed.

#[export] Hint Resolve q2_factor_pos : pk_pos.

Lemma vc_positive (params : Params) :
  valid_covariates params -> 0 < vc (eleveldParameters params).
Proof.
  intros (Hage & Hw & Hh). unfold eleveldParameters.
  destruct (drug params); cbn [vc]; positive.
Qed.

Lemma cl1_positive (params : Params) :
  valid_covariates params -> 0 < cl1 (eleveldParameters params).
Proof.
  intros (Hage & Hw & Hh). unfold eleveldParameters.
  destruct (drug params); cbn [cl1]; destruct (sex params); positive.
Qed.

(** C1.  For every valid covariate set (either drug; age, weight and height
    positive), [eleveldParameters] returns strictly positive Vc, V2, V3,
    k10, k12, k13, k21, k31, ke0 and CL1. *)
Theorem eleveldParameters_positive (params : Params) :
  valid_covariates params -> all_positive (eleveldParameters params).
Proof.
  intros (Hage & Hw & Hh).
  unfold all_positive, eleveldParameters.
  destruct (drug params); cbn [vc v2 v3 k10 k12 k13 k21 k31 ke0 cl1].
  - repeat split; destruct (sex params); positive.
  - repeat split; destruct (sex params);
      try destruct (Rle_dec (ageYears params) 16); positive.
Qed.

Lemma referencePatient_covariates : valid_covariates referencePatient.
Proof. unfold valid_covariates; cbn; lra. Qed.

Lemma eleveldParameters_positive_witness :
  valid_covariates referencePatient
  /\ all_positive (eleveldParameters referencePatient).
Proof.
  split.
  - exact referencePatient_covariates.
  - apply (eleveldParameters_positive referencePatient).
    exact referencePatient_covariates.
Defined.

(** ** The loading dose *)

(** C2.  With a positive reservoir concentration (and valid covariates), the
    dose of [calculateLoadingDose] is [(targetCe - currentCe) * Vc] when the
    target exceeds the current concentration and exactly 0 otherwise; hence
    it is never negative, and positive exactly when the target exceeds the
    current concentration. *)
Theorem calculateLoadingDose_mass (params : Params) :
  valid_covariates params ->
  0 < concentrationMgPerMl params ->
  let dose := ld_loadingDoseMg (calculateLoadingDose params) in
  let current := currentCe params ?? 0 in
  (current < targetCe params ->
     dose = (targetCe params - current) * vc (eleveldParameters params))
  /\ (targetCe params <= current -> dose = 0)
  /\ 0 <= dose
  /\ (0 < dose <-> current < targetCe params).
Proof.
  intros Hcov _. cbv zeta.
  pose proof (vc_positive params Hcov) as Hvc.
  unfold calculateLoadingDose; cbn [ld_loadingDoseMg].
  set (v := vc (eleveldParameters params)) in *.
  set (c := currentCe params ?? 0).
  unfold Math.max, Rmax.
  destruct (Rle_dec (targetCe params - c) 0) as [Hle | Hgt].
  - repeat split; intros; try lra.
  - assert (0 < (targetCe params - c) * v) by (apply Rmult_lt_0_compat; lra).
    repeat split; intros; try lra.
Qed.

Lemma calculateLoadingDose_mass_witness :
  let dose := ld_loadingDoseMg (calculateLoadingDose referencePatient) in
  (0 < 3 -> dose = (3 - 0) * vc (eleveldParameters referencePatient))
  /\ (3 <= 0 -> dose = 0)
  /\ 0 <= dose
  /\ (0 < dose <-> 0 < 3).
Proof.
  apply (calculateLoadingDose_mass referencePatient).
  - unfold valid_covariates; cbn; lra.
  - cbn; lra.
Defined.

(** ** The parameters of the reference patient *)

Lemma pow_1 (x : R) : 0 < x -> Math.pow x 1 = x.
Proof. apply Rpower_1. Qed.

Lemma pow_base_1 (y : R) : Math.pow 1 y = 1.
Proof.
  unfold Math.pow, Rpower. rewrite ln_1, Rmult_0_r. apply exp_0.
Qed.

Lemma pow_2 (x : R) : 0 < x -> Math.pow x 2 = x * x.
Proof.
  intros Hx. unfold Math.pow.
  replace 2 with (INR 2) by (simpl; lra).
  rewrite Rpower_pow by assumption. simpl. ring.
Qed.

Lemma fsigmoid_1 (x y : R) : 0 < x -> 0 < y -> fsigmoid x y 1 = x / (x + y).
Proof. intros Hx Hy. unfold fsigmoid. now rewrite !pow_1. Qed.

(** A power with exponent 0.75 of a number below 1 lies between the number
    and 1. *)
Lemma pow_075_bounds (u : R) :
  0 < u < 1 -> u < Math.pow u 0.75 < 1.
Proof.
  intros [H0 H1]. unfold Math.pow, Rpower.
  assert (Hln : ln u < 0) by (rewrite <- ln_1; apply ln_increasing; lra).
  split.
  - rewrite <- (exp_ln u H0) at 1. apply exp_increasing. lra.
  - rewrite <- exp_0. apply exp_increasing. lra.
Qed.

(** The two elementary bounds on the exponential that the enclosure of the
    slow compartment needs. *)
Lemma exp_lower (x : R) : 1 + x <= Math.exp x.
Proof. apply exp_ineq1_le. Qed.

Lemma exp_upper (x : R) : x < 1 -> Math.exp x <= / (1 - x).
Proof.
  intros Hx. unfold Math.exp.
  replace x with (- - x) at 1 by ring. rewrite exp_Ropp.
  apply Rinv_le_contravar; [lra|].
  pose proof (exp_ineq1_le (- x)). lra.
Qed.

Lemma fsigmoid_neq_0 (x y z : R) : fsigmoid x y z <> 0.
Proof. pose proof (fsigmoid_pos x y z). lra. Qed.

(** The fat-free mass of the reference patient relative to [ffmRef]: the
    logistic factor cancels and what is left compares the body-mass index
    70 / 1.7^2 with the constant 24.22145 of [ffmRef]. *)
Lemma reference_size :
  fffm 70 170 35 Male / ffmRef
  = (6680 + 216 * 24.22145) / (6680 + 216 * (70 / 2.89)).
Proof.
  unfold fffm, ffmRef.
  rewrite pow_2 by lra.
  set (A := 0.88 + (1 - 0.88) / (1 + Math.pow (35 / 13.4) (-12.7))).
  assert (HA : 0 < A) by (apply logistic_mix_pos; [lra | apply pow_pos]).
  decimals. field. repeat split; lra.
Qed.

Lemma reference_size_bounds :
  0.9999 < fffm 70 170 35 Male / ffmRef < 1.
Proof. rewrite reference_size. lra. Qed.

Section ReferenceParameters.

Let P := eleveldParameters referencePatient.

Lemma reference_vc : vc P = 6.28.
Proof.
  subst P. unfold eleveldParameters, referencePatient; cbn [drug vc weightKg].
  pose proof (fsigmoid_neq_0 70 33.6 1). unfold fcentral. decimals. field. assumption.
Qed.

Lemma reference_v2 : v2 P = 25.5.
Proof.
  subst P. unfold eleveldParameters, referencePatient;
    cbn [drug v2 weightKg ageYears].
  unfold fageing, Math.exp.
  replace (-0.0156 * (35 - 35)) with 0 by ring. rewrite exp_0. lra.
Qed.

Lemma reference_cl1 : cl1 P = 1.79.
Proof.
  subst P. unfold eleveldParameters, referencePatient;
    cbn [drug cl1 weightKg ageYears sex].
  replace (70 / 70) with 1 by lra. rewrite pow_base_1.
  pose proof (fsigmoid_neq_0 (35 * toWeeks + 40) 42.3 9.06).
  unfold fclmaturation. decimals. field. assumption.
Qed.

Lemma reference_ke0 : ke0 P = 0.146.
Proof.
  subst P. unfold eleveldParameters, referencePatient;
    cbn [drug ke0 weightKg].
  replace (70 / 70) with 1 by lra. rewrite pow_base_1. lra.
Qed.

Lemma reference_k10 : k10 P = 1.79 / 6.28.
Proof.
  replace (k10 P) with (cl1 P / vc P)
    by (subst P; unfold eleveldParameters, referencePatient; reflexivity).
  now rewrite reference_cl1, reference_vc.
Qed.

(** The intercompartmental clearance [cl2] of the reference patient. *)
Lemma reference_cl2 :
  k12 P * vc P
  = 1.75 * (1 + 1.3 * (1 - (35 * 52.1429 + 40) / (35 * 52.1429 + 40 + 68.3))).
Proof.
  pose proof reference_vc as Hvc.
  replace (k12 P)
    with (1.75 * Math.pow (v2 P / 25.5) 0.75
          * (1 + 1.3 * (1 - fq3maturation (35 * toWeeks))) / vc P)
    by (subst P; unfold eleveldParameters, referencePatient; reflexivity).
  rewrite reference_v2.
  replace (25.5 / 25.5) with 1 by lra. rewrite pow_base_1.
  unfold fq3maturation, toWeeks. rewrite fsigmoid_1 by lra.
  rewrite Hvc. decimals. field.
Qed.

Lemma reference_k12 : 0.2914 <= k12 P <= 0.2915.
Proof.
  pose proof reference_cl2 as H. rewrite reference_vc in H.
  split; lra.
Qed.

Lemma reference_k21 : k21 P * 25.5 = k12 P * 6.28.
Proof.
  pose proof reference_vc as Hvc. pose proof reference_v2 as Hv2.
  replace (k21 P) with (k12 P * vc P / v2 P).
  - rewrite Hvc, Hv2. decimals. field.
  - subst P; unfold eleveldParameters, referencePatient;
      cbn [drug k12 k21 vc v2 weightKg ageYears sex heightCm].
    pose proof (fageing_pos 35 (-0.0156)).
    pose proof (fcentral_pos 70).
    decimals. field. repeat split; lra.
Qed.

(** The slow peripheral volume relative to its reference value 273. *)
Lemma reference_v3 :
  v3 P = 273 * (fffm 70 170 35 Male / ffmRef * Math.exp (-0.0138 * 35)).
Proof.
  subst P. unfold eleveldParameters, referencePatient;
    cbn [drug v3 weightKg ageYears sex heightCm].
  pose proof ffmRef_pos. decimals. field. lra.
Qed.

Lemma reference_v3_bounds : 0.516 < v3 P / 273 < 0.675.
Proof.
  rewrite reference_v3.
  pose proof reference_size_bounds as [Hs0 Hs1].
  pose proof (exp_lower (-0.0138 * 35)) as Hlo.
  pose proof (exp_upper (-0.0138 * 35)) as Hhi.
  assert (Hhi' : Math.exp (-0.0138 * 35) <= / (1 - -0.0138 * 35)) by (apply Hhi; lra).
  assert (Hinv : / (1 - -0.0138 * 35) < 0.6744).
  { apply Rmult_lt_reg_r with (1 - -0.0138 * 35); [lra|].
    rewrite Rinv_l by lra. lra. }
  set (e := Math.exp (-0.0138 * 35)) in *.
  set (s := fffm 70 170 35 Male / ffmRef) in *.
  replace (273 * (s * e) / 273) with (s * e) by (decimals; field; lra).
  split; nra.
Qed.

(** The clearance [cl3] of the reference patient. *)
Lemma reference_cl3 :
  k13 P * vc P = 1.11 * Math.pow (v3 P / 273) 0.75
  /\ k31 P * v3 P = 1.11 * Math.pow (v3 P / 273) 0.75.
Proof.
  pose proof reference_vc as Hvc.
  pose proof reference_v3_bounds as Hv3.
  set (cl3 := 1.11 * Math.pow (v3 P / 273) 0.75
              * (fq3maturation (35 * toWeeks) / fq3maturation (35 * toWeeks))).
  replace (k13 P) with (cl3 / vc P)
    by (subst P cl3; unfold eleveldParameters, referencePatient; reflexivity).
  replace (k31 P) with (cl3 / v3 P)
    by (subst P cl3; unfold eleveldParameters, referencePatient; reflexivity).
  pose proof (fq3maturation_pos (35 * toWeeks)).
  subst cl3. split; decimals; field; lra.
Qed.

Lemma reference_k13 : 0.09 <= k13 P <= 0.18.
Proof.
  destruct reference_cl3 as [H13 _]. rewrite reference_vc in H13.
  pose proof reference_v3_bounds as Hv3.
  pose proof (pow_075_bounds (v3 P / 273)) as Hp.
  assert (Hp' : v3 P / 273 < Math.pow (v3 P / 273) 0.75 < 1) by (apply Hp; lra).
  split; lra.
Qed.

Lemma reference_k31 : 0.004 <= k31 P <= 0.008.
Proof.
  destruct reference_cl3 as [_ H31].
  pose proof reference_v3_bounds as Hv3.
  pose proof (pow_075_bounds (v3 P / 273)) as Hp.
  assert (Hp' : v3 P / 273 < Math.pow (v3 P / 273) 0.75 < 1) by (apply Hp; lra).
  set (w := Math.pow (v3 P / 273) 0.75) in *.
  set (u := v3 P / 273) in *.
  assert (Hv : v3 P = 273 * u) by (subst u; decimals; field).
  rewrite Hv in H31.
  split; nra.
Qed.

End ReferenceParameters.

(** ** Soundness of the rational enclosures *)

Lemma Q2R_zero : Q2R 0 = 0.
Proof. unfold Q2R; simpl; lra. Qed.

Lemma Q2R_one : Q2R 1 = 1.
Proof. unfold Q2R; simpl; lra. Qed.

Lemma Q2R_Qred (q : Q) : Q2R (Qred q) = Q2R q.
Proof. apply Qeq_eqR, Qred_correct. Qed.

Lemma Q2R_rdown (q : Q) : Q2R (rdown q) <= Q2R q.
Proof.
  apply Qle_Rle. unfold rdown.
  pose proof (Qfloor_le (q * (Zpos grid # 1))) as H.
  unfold Qle in *; cbn [Qnum Qden Qmult inject_Z] in *.
  rewrite Pos.mul_1_r in H. lia.
Qed.

Lemma Q2R_rup (q : Q) : Q2R q <= Q2R (rup q).
Proof.
  apply Qle_Rle. unfold rup.
  pose proof (Qle_ceiling (q * (Zpos grid # 1))) as H.
  unfold Qle in *; cbn [Qnum Qden Qmult inject_Z] in *.
  rewrite Pos.mul_1_r in H. lia.
Qed.

Lemma Q2R_qmin (a b : Q) : Q2R (qmin a b) = Rmin (Q2R a) (Q2R b).
Proof.
  unfold qmin. destruct (Qle_bool a b) eqn:E.
  - apply Qle_bool_iff, Qle_Rle in E. now rewrite Rmin_left.
  - assert (H : (b < a)%Q).
    { apply Qnot_le_lt. intros H. apply Qle_bool_iff in H. congruence. }
    apply Qlt_Rlt in H. rewrite Rmin_right; lra.
Qed.

Lemma Q2R_qmax (a b : Q) : Q2R (qmax a b) = Rmax (Q2R a) (Q2R b).
Proof.
  unfold qmax. destruct (Qle_bool a b) eqn:E.
  - apply Qle_bool_iff, Qle_Rle in E. now rewrite Rmax_right.
  - assert (H : (b < a)%Q).
    { apply Qnot_le_lt. intros H. apply Qle_bool_iff in H. congruence. }
    apply Qlt_Rlt in H. rewrite Rmax_left; lra.
Qed.

Lemma qlt_true (a b : Q) : qlt a b = true -> Q2R a < Q2R b.
Proof.
  unfold qlt. intros H. apply negb_true_iff in H.
  apply Qlt_Rlt, Qnot_le_lt. intros H'. apply Qle_bool_iff in H'. congruence.
Qed.

Lemma Qle_bool_true (a b : Q) : Qle_bool a b = true -> Q2R a <= Q2R b.
Proof. intros H. now apply Qle_Rle, Qle_bool_iff. Qed.

(** A product lies between the least and the greatest of the four products
    of the end points. *)
Lemma Rmult_enclosure (a b c d x y : R) :
  a <= x <= b -> c <= y <= d ->
  Rmin (Rmin (a * c) (a * d)) (Rmin (b * c) (b * d)) <= x * y
  /\ x * y <= Rmax (Rmax (a * c) (a * d)) (Rmax (b * c) (b * d)).
Proof.
  intros [Hax Hxb] [Hcy Hyd].
  assert (Hlo : a * c <= x * y \/ a * d <= x * y \/ b * c <= x * y \/ b * d <= x * y).
  { destruct (Rle_dec 0 x), (Rle_dec 0 y).
    - destruct (Rle_dec 0 a); [left; nra | right; left; nra].
    - right; right; left; nra.
    - right; left; nra.
    - destruct (Rle_dec 0 d); [right; left; nra | right; right; right; nra]. }
  assert (Hhi : x * y <= a * c \/ x * y <= a * d \/ x * y <= b * c \/ x * y <= b * d).
  { destruct (Rle_dec 0 x), (Rle_dec 0 y).
    - right; right; right; nra.
    - destruct (Rle_dec 0 a); [right; left; nra | left; nra].
    - destruct (Rle_dec 0 c); [right; right; left; nra | left; nra].
    - left; nra. }
  split.
  - unfold Rmin; repeat destruct Rle_dec; lra.
  - unfold Rmax; repeat destruct Rle_dec; lra.
Qed.

Lemma inI_eq (x y : R) (i : Interval) : inI x i -> x = y -> inI y i.
Proof. now intros H <-. Qed.

Lemma inI_const (q : Q) : inI (Q2R q) (iconst q).
Proof. unfold inI; cbn; lra. Qed.

Lemma inI_add (x y : R) (a b : Interval) :
  inI x a -> inI y b -> inI (x + y) (iadd a b).
Proof.
  unfold inI; cbn [lo hi iadd]. rewrite !Q2R_Qred, !Q2R_plus. lra.
Qed.

Lemma inI_sub (x y : R) (a b : Interval) :
  inI x a -> inI y b -> inI (x - y) (isub a b).
Proof.
  unfold inI; cbn [lo hi isub]. rewrite !Q2R_Qred, !Q2R_minus. lra.
Qed.

Lemma inI_mul (x y : R) (a b : Interval) :
  inI x a -> inI y b -> inI (x * y) (imul a b).
Proof.
  unfold inI; cbn [lo hi imul]. intros Hx Hy.
  destruct (Rmult_enclosure _ _ _ _ x y Hx Hy) as [Hlo Hhi].
  split.
  - eapply Rle_trans; [apply Q2R_rdown|].
    now rewrite !Q2R_qmin, !Q2R_mult.
  - eapply Rle_trans; [|apply Q2R_rup].
    now rewrite !Q2R_qmax, !Q2R_mult.
Qed.

Lemma inI_scale (c : Q) (x : R) (a : Interval) :
  inI x a -> inI (Q2R c * x) (iscale c a).
Proof. intros H. apply inI_mul; [apply inI_const | exact H]. Qed.

Lemma inI_min (x y : R) (a b : Interval) :
  inI x a -> inI y b -> inI (Rmin x y) (imin a b).
Proof.
  unfold inI; cbn [lo hi imin]. rewrite !Q2R_qmin. intros [? ?] [? ?].
  split; unfold Rmin; repeat destruct Rle_dec; lra.
Qed.

Lemma inI_max (x y : R) (a b : Interval) :
  inI x a -> inI y b -> inI (Rmax x y) (imax a b).
Proof.
  unfold inI; cbn [lo hi imax]. rewrite !Q2R_qmax. intros [? ?] [? ?].
  split; unfold Rmax; repeat destruct Rle_dec; lra.
Qed.

Lemma igt_true (i : Interval) (c : Q) (x : R) :
  inI x i -> igt i c = Some true -> Q2R c < x.
Proof.
  unfold igt, inI. intros [Hlo _].
  destruct (qlt c (lo i)) eqn:E.
  - intros _. apply qlt_true in E. lra.
  - destruct (Qle_bool (hi i) c); discriminate.
Qed.

Lemma igt_false (i : Interval) (c : Q) (x : R) :
  inI x i -> igt i c = Some false -> x <= Q2R c.
Proof.
  unfold igt, inI. intros [_ Hhi].
  destruct (qlt c (lo i)); [discriminate|].
  destruct (Qle_bool (hi i) c) eqn:E; [|discriminate].
  intros _. apply Qle_bool_true in E. lra.
Qed.

Lemma Q2R_neq_0 (q : Q) : ~ (q == 0)%Q -> Q2R q <> 0.
Proof.
  intros Hq H. apply Hq, eqR_Qeq. now rewrite Q2R_zero.
Qed.

Lemma Q2R_pos (q : Q) : (0 < q)%Q -> 0 < Q2R q.
Proof. intros H. apply Qlt_Rlt in H. now rewrite Q2R_zero in H. Qed.

Lemma Rlt_dec_true (A : Type) (x y : R) (a b : A) :
  x < y -> (if Rlt_dec x y then a else b) = a.
Proof. intros H. destruct (Rlt_dec x y); [reflexivity | contradiction]. Qed.

Lemma Rlt_dec_false (A : Type) (x y : R) (a b : A) :
  y <= x -> (if Rlt_dec x y then a else b) = b.
Proof. intros H. destruct (Rlt_dec x y); [lra | reflexivity]. Qed.

Lemma Rle_dec_true (A : Type) (x y : R) (a b : A) :
  x <= y -> (if Rle_dec x y then a else b) = a.
Proof. intros H. destruct (Rle_dec x y); [reflexivity | contradiction]. Qed.

Lemma Rle_dec_false (A : Type) (x y : R) (a b : A) :
  y < x -> (if Rle_dec x y then a else b) = b.
Proof. intros H. destruct (Rle_dec x y); [lra | reflexivity]. Qed.

(** The interval operations are kept folded while membership goals are
    taken apart. *)
Opaque iconst iadd isub imul iscale imin imax.

(** Closes a membership goal whose term has the shape of its interval. *)
Ltac enclose :=
  repeat match goal with
  | |- inI _ (iconst _) => apply inI_const
  | |- inI (_ + _) (iadd _ _) => apply inI_add
  | |- inI (_ - _) (isub _ _) => apply inI_sub
  | |- inI (_ * _) (iscale _ _) => apply inI_scale
  | |- inI (_ * _) (imul _ _) => apply inI_mul
  | |- inI (Rmin _ _) (imin _ _) => apply inI_min
  | |- inI (Rmax _ _) (imax _ _) => apply inI_max
  | |- inI _ _ => assumption
  end.

Section EnclosureSoundness.

Variable params : Params.
Variable p : CompartmentalParameters.
Variables target dt maxRate : Q.
Variable ap : AParams.

Hypothesis Hp : inParams p ap.
Hypothesis Htarget : targetCe params = Q2R target.
Hypothesis Hdt : (0 < dt)%Q.
Hypothesis Hvc : ~ (a_vc ap == 0)%Q.

Lemma aintegrate_sound (r : R) (ar : Interval) (st : SimulationState) (ast : AState) :
  inI r ar -> inState st ast ->
  inState (integrate p r (Q2R dt) st) (aintegrate dt ap ar ast).
Proof.
  intros Hr [H1 H2 H3 He].
  destruct Hp as [Evc Ecl1 Eke0 I10 I12 I13 I21 I31].
  pose proof (Q2R_neq_0 _ Hvc) as Hvc0.
  constructor; cbn [integrate aintegrate C1 C2 C3 Ce aC1 aC2 aC3 aCe].
  - apply inI_eq with
      ((Q2R 1 - Q2R dt * (k10 p + k12 p + k13 p)) * C1 st
       + Q2R dt * (Q2R (/ a_vc ap) * r + k21 p * C2 st + k31 p * C3 st)).
    + enclose.
    + rewrite Q2R_one, Q2R_inv, Evc by assumption. field. assumption.
  - apply inI_eq with
      ((Q2R 1 - Q2R dt * k21 p) * C2 st + Q2R dt * (k12 p * C1 st)).
    + enclose.
    + rewrite Q2R_one. ring.
  - apply inI_eq with
      ((Q2R 1 - Q2R dt * k31 p) * C3 st + Q2R dt * (k13 p * C1 st)).
    + enclose.
    + rewrite Q2R_one. ring.
  - apply inI_eq with
      (Q2R (1 - a_ke0 ap * dt) * Ce st + Q2R (a_ke0 ap * dt) * C1 st).
    + enclose.
    + rewrite Q2R_minus, Q2R_mult, Q2R_one, Eke0. ring.
Qed.

Lemma arate_sound (rem : R) (arem : Interval) (st : SimulationState)
    (ast : AState) (ar arem' : Interval) :
  inI rem arem -> 0 < rem -> inState st ast ->
  arate target dt maxRate ap arem ast = Some (ar, arem') ->
  let r := infusionRate params (Q2R dt) p (Q2R maxRate) rem st in
  inI r ar /\ inI (remainingAfter (Q2R dt) rem r) arem'.
Proof.
  intros Hrem Hpos [_ _ _ He] Ha. cbv zeta.
  destruct Hp as [Evc Ecl1 Eke0 _ _ _ _ _].
  pose proof (Q2R_pos _ Hdt) as Hdt0.
  unfold infusionRate, remainingAfter.
  rewrite !(Rlt_dec_true _ 0 rem) by assumption.
  set (d0 := (targetCe params * cl1 p + (targetCe params - Ce st) * vc p * ke0 p) / 60).
  replace (if Rlt_dec d0 0 then 0 else d0) with (Rmax d0 0)
    by (unfold Rmax; destruct (Rle_dec d0 0), (Rlt_dec d0 0); lra).
  unfold Math.min.
  set (r0 := Rmin (Q2R maxRate) (Rmax d0 0)).
  unfold arate in Ha.
  set (adesired :=
         imax (iscale (/ 60)
                 (iadd (iconst (target * a_cl1 ap))
                       (iscale (a_vc ap * a_ke0 ap)
                               (isub (iconst target) (aCe ast)))))
              (iconst 0)) in Ha.
  set (ar0 := imin (iconst maxRate) adesired) in Ha.
  set (amax := iscale (/ dt) arem) in Ha.
  assert (Hd0 : inI (Rmax d0 0) adesired).
  { subst adesired. apply inI_max; [|rewrite <- Q2R_zero at 1; apply inI_const].
    apply inI_eq with
      (Q2R (/ 60) * (Q2R (target * a_cl1 ap)
                     + Q2R (a_vc ap * a_ke0 ap) * (Q2R target - Ce st))).
    - enclose.
    - subst d0. rewrite Htarget, Evc, Ecl1, Eke0, !Q2R_mult.
      replace (Q2R (/ 60)) with (/ 60) by (unfold Q2R; simpl; lra).
      field. }
  assert (Hr0 : inI r0 ar0) by (subst r0 ar0; enclose).
  assert (Hmax : inI (rem / Q2R dt) amax).
  { subst amax. apply inI_eq with (Q2R (/ dt) * rem).
    - enclose.
    - rewrite Q2R_inv by (intros E; rewrite E in Hdt; discriminate).
      field. lra. }
  destruct (qlt (hi amax) (lo ar0)) eqn:E1.
  - (* the ceiling binds *)
    injection Ha as <- <-.
    apply qlt_true in E1.
    destruct Hmax as [Hm1 Hm2], Hr0 as [Hr1 Hr2].
    rewrite Rlt_dec_true by lra.
    split; [split; assumption|].
    apply inI_eq with (Q2R 0); [apply inI_const|].
    rewrite Q2R_zero. field. lra.
  - destruct (Qle_bool (hi ar0) (lo amax)) eqn:E2; [|discriminate].
    injection Ha as <- <-.
    apply Qle_bool_true in E2.
    destruct Hmax as [Hm1 Hm2]. pose proof Hr0 as [Hr1 Hr2].
    rewrite Rlt_dec_false by lra.
    split; [assumption|].
    apply inI_eq with (rem - Q2R dt * r0); [enclose | ring].
Qed.

(** The end of a tick. *)
Lemma afinish_sound (fuel : nat) (r rem' : R) (st' : SimulationState)
    (ar arem' : Interval) (ast' : AState) (asteps : list AStep) :
  inI r ar -> inI rem' arem' -> inState st' ast' ->
  (forall asteps',
      amainLoop target dt maxRate ap fuel arem' ast' = Some asteps' ->
      exists steps',
        mainLoop params (Q2R dt) p (Q2R maxRate) fuel rem' st' = (steps', true)
        /\ Forall2 (inStep params) steps' asteps') ->
  afinish ar arem' ast' (amainLoop target dt maxRate ap fuel arem' ast')
    = Some asteps ->
  let step :=
    emit params r st' (if Rlt_dec 0 rem' then maintenance else decay) in
  exists steps,
    (if breaks rem' st' then ([step], true)
     else let (rest, fin) :=
            mainLoop params (Q2R dt) p (Q2R maxRate) fuel rem' st' in
          (step :: rest, fin)) = (steps, true)
    /\ Forall2 (inStep params) steps asteps.
Proof.
  intros Hr Hrem Hst IH Hfin. cbv zeta.
  unfold afinish in Hfin. unfold breaks.
  destruct (igt arem' 0) as [[|]|] eqn:Erem; [| |discriminate].
  - (* budget left: a maintenance step, and the loop goes on *)
    pose proof (igt_true _ _ _ Hrem Erem) as Hpos. rewrite Q2R_zero in Hpos.
    rewrite Rle_dec_false by assumption. cbn [andb].
    rewrite Rlt_dec_true by assumption.
    destruct (amainLoop target dt maxRate ap fuel arem' ast') as [rest|] eqn:Eloop;
      [|discriminate].
    injection Hfin as <-.
    destruct (IH rest eq_refl) as (steps' & -> & Hall).
    eexists; split; [reflexivity|].
    constructor; [|assumption].
    constructor; cbn; [reflexivity | apply Hst | exists r; split; [assumption | reflexivity]].
  - (* budget exhausted: a decay step *)
    pose proof (igt_false _ _ _ Hrem Erem) as Hneg. rewrite Q2R_zero in Hneg.
    rewrite Rle_dec_true by assumption. cbn [andb].
    rewrite Rlt_dec_false by assumption.
    assert (Hstep :
      inStep params (emit params r st' decay)
        {| a_phase := decay; a_ce := aCe ast'; a_rate := ar |}).
    { constructor; cbn; [reflexivity | apply Hst | exists r; split; [assumption | reflexivity]]. }
    destruct (igt (aCe ast') (1 # 100)) as [[|]|] eqn:Ece; [| |discriminate].
    + pose proof (igt_true _ _ _ (in_Ce _ _ Hst) Ece) as Hce.
      rewrite Rle_dec_false by exact Hce.
      destruct (amainLoop target dt maxRate ap fuel arem' ast') as [rest|] eqn:Eloop;
        [|discriminate].
      injection Hfin as <-.
      destruct (IH rest eq_refl) as (steps' & -> & Hall).
      eexists; split; [reflexivity|].
      constructor; assumption.
    + pose proof (igt_false _ _ _ (in_Ce _ _ Hst) Ece) as Hce.
      rewrite Rle_dec_true by exact Hce.
      injection Hfin as <-.
      eexists; split; [reflexivity|].
      constructor; [assumption | constructor].
Qed.

(** When the loop on enclosures returns a list of steps, the second loop of
    the source returns within the same fuel, and its steps lie in the
    enclosures one by one. *)
Theorem amainLoop_sound (fuel : nat) :
  forall (arem : Interval) (ast : AState) (asteps : list AStep)
         (rem : R) (st : SimulationState),
    inI rem arem -> inState st ast ->
    amainLoop target dt maxRate ap fuel arem ast = Some asteps ->
    exists steps,
      mainLoop params (Q2R dt) p (Q2R maxRate) fuel rem st = (steps, true)
      /\ Forall2 (inStep params) steps asteps.
Proof.
  induction fuel as [|fuel IH]; intros arem ast asteps rem st Hrem Hst Hrun.
  - discriminate.
  - cbn [amainLoop] in Hrun. cbn [mainLoop]. unfold continues.
    destruct (igt arem 0) as [[|]|] eqn:Erem; [| |discriminate].
    + pose proof (igt_true _ _ _ Hrem Erem) as Hpos. rewrite Q2R_zero in Hpos.
      rewrite (Rlt_dec_true _ 0 rem) by assumption. cbn [orb].
      destruct (arate target dt maxRate ap arem ast) as [[ar arem']|] eqn:Erate;
        [|discriminate].
      destruct (arate_sound _ _ _ _ _ _ Hrem Hpos Hst Erate) as [Hr Hrem'].
      eapply afinish_sound; eauto using aintegrate_sound.
    + pose proof (igt_false _ _ _ Hrem Erem) as Hneg. rewrite Q2R_zero in Hneg.
      rewrite (Rlt_dec_false _ 0 rem) by assumption. cbn [orb].
      destruct (igt (aCe ast) (1 # 100)) as [[|]|] eqn:Ece; [| |discriminate].
      * pose proof (igt_true _ _ _ (in_Ce _ _ Hst) Ece) as Hce.
        rewrite Rlt_dec_true by exact Hce.
        assert (Hr : inI 0 (iconst 0))
          by (rewrite <- Q2R_zero at 1; apply inI_const).
        assert (Er : infusionRate params (Q2R dt) p (Q2R maxRate) rem st = 0)
          by (unfold infusionRate; now rewrite Rlt_dec_false).
        rewrite Er.
        assert (Erem' : remainingAfter (Q2R dt) rem 0 = rem)
          by (unfold remainingAfter; now rewrite Rlt_dec_false).
        rewrite Erem'.
        eapply afinish_sound; eauto using aintegrate_sound.
      * pose proof (igt_false _ _ _ (in_Ce _ _ Hst) Ece) as Hce.
        rewrite Rlt_dec_false by exact Hce.
        injection Hrun as <-.
        exists []. split; [reflexivity | constructor].
Qed.

End EnclosureSoundness.

Transparent iconst iadd isub imul iscale imin imax.

(** ** The run of the reference patient *)

Lemma Forall2_finalStep (A B : Type) (R : A -> B -> Prop) (l : list A) (l' : list B) :
  Forall2 R l l' ->
  forall b, finalStep l' = Some b -> exists a, finalStep l = Some a /\ R a b.
Proof.
  induction 1 as [|x y l l' Hxy Hall IH]; intros b Hb.
  - discriminate.
  - destruct Hall as [|x' y' l l' Hxy' Hall].
    + injection Hb as <-. exists x. split; [reflexivity | assumption].
    + apply IH in Hb. destruct Hb as (a & Ha & HR).
      exists a. split; assumption.
Qed.

Lemma Forall2_nth_error (A B : Type) (R : A -> B -> Prop) (l : list A) (l' : list B) :
  Forall2 R l l' ->
  forall n b, nth_error l' n = Some b -> exists a, nth_error l n = Some a /\ R a b.
Proof.
  induction 1 as [|x y l l' Hxy Hall IH]; intros [|n] b Hb; try discriminate.
  - injection Hb as <-. exists x. split; [reflexivity | assumption].
  - apply (IH n b Hb).
Qed.

Lemma finalStep_app (A : Type) (l l' : list A) :
  l' <> [] -> finalStep (l ++ l') = finalStep l'.
Proof.
  intros Hl'. induction l as [|x l IH]; [reflexivity|].
  cbn [app finalStep]. rewrite IH.
  destruct (l ++ l') eqn:E; [|reflexivity].
  apply app_eq_nil in E. destruct E; contradiction.
Qed.

(** A loading phase that fits in one tick. *)
Lemma loadingLoop_single (params : Params) (interval : R)
    (p : CompartmentalParameters) (bolus duration : R) (fuel : nat)
    (st : SimulationState) :
  elapsed st = 0 -> 0 < duration <= interval ->
  let st' := integrate p bolus duration st in
  loadingLoop params interval p bolus duration (S (S fuel)) st
  = ([emit params bolus st' loading], Some st').
Proof.
  intros E0 [Hpos Hle]. cbv zeta.
  cbn [loadingLoop]. rewrite E0.
  rewrite Rlt_dec_true by assumption.
  unfold Math.min. rewrite Rminus_0_r, Rmin_right by assumption.
  cbn [integrate elapsed]. rewrite E0.
  rewrite Rlt_dec_false by lra. reflexivity.
Qed.

Lemma reference_resolveLoading :
  resolveLoading referencePatient = (3 * 6.28, 3 * 6.28 / (10 * (1000 / 3600))).
Proof.
  unfold resolveLoading, calculateLoadingDose; cbn [referencePatient
    loadingDoseMg loadingDurationSec ld_loadingDoseMg ld_durationSec
    orDefault currentCe targetCe concentrationMgPerMl].
  fold referencePatient. rewrite reference_vc.
  unfold Math.max. rewrite Rmax_left by lra.
  f_equal; lra.
Qed.

Lemma reference_resolveBolus :
  resolveBolus (10 * (1000 / 3600)) (3 * 6.28) (3 * 6.28 / (10 * (1000 / 3600)))
  = (10 * (1000 / 3600), 6.7824).
Proof.
  unfold resolveBolus.
  destruct (Req_dec_T (3 * 6.28 / (10 * (1000 / 3600))) 0) as [E|_]; [lra|].
  rewrite Rlt_dec_false by lra.
  f_equal; lra.
Qed.

(** After its single loading tick the reference patient has the loading
    dose in the central compartment and nothing elsewhere. *)
Lemma reference_loaded :
  let st := integrate (eleveldParameters referencePatient)
              (10 * (1000 / 3600)) 6.7824 (initialState referencePatient) in
  C1 st = 3 /\ C2 st = 0 /\ C3 st = 0 /\ Ce st = 0
  /\ cumulative st = 18.84 /\ elapsed st = 6.7824.
Proof.
  cbv zeta. unfold integrate, initialState;
    cbn [C1 C2 C3 Ce cumulative elapsed referencePatient currentCe orDefault].
  fold referencePatient. rewrite reference_vc.
  repeat split; lra.
Qed.

Lemma reference_inParams :
  inParams (eleveldParameters referencePatient) referenceAParams.
Proof.
  pose proof reference_k12 as [? ?].
  pose proof reference_k13 as [? ?].
  pose proof reference_k31 as [? ?].
  pose proof reference_k21 as H21.
  constructor; unfold inI, referenceAParams, iconst;
    cbn [a_vc a_cl1 a_ke0 a_k10 a_k12 a_k13 a_k21 a_k31 lo hi];
    rewrite ?reference_vc, ?reference_cl1, ?reference_ke0, ?reference_k10;
    decimals; lra.
Qed.

Lemma reference_inState (st : SimulationState) :
  C1 st = 3 -> C2 st = 0 -> C3 st = 0 -> Ce st = 0 ->
  inState st referenceAState.
Proof.
  intros E1 E2 E3 Ee.
  constructor; unfold inI, referenceAState, iconst; cbn [aC1 aC2 aC3 aCe lo hi];
    rewrite ?E1, ?E2, ?E3, ?Ee; decimals; lra.
Qed.

(** The enclosures of the reference patient are computed once, here. *)
Lemma reference_checked :
  exists asteps,
    amainLoop 3 10 (25 # 9) referenceAParams 40 (iconst 200) referenceAState
    = Some asteps
    /\ referenceChecks asteps = true.
Proof.
  let r := eval vm_compute in referenceEnclosure in
  match r with
  | Some ?l => exists l
  end.
  split; vm_compute; reflexivity.
Qed.

(** The second loop of the reference patient returns within 40 tests, and
    its steps lie in the computed enclosures. *)
Lemma reference_mainLoop (st : SimulationState) :
  C1 st = 3 -> C2 st = 0 -> C3 st = 0 -> Ce st = 0 ->
  exists main asteps,
    referenceChecks asteps = true
    /\ mainLoop referencePatient 10 (eleveldParameters referencePatient)
         (10 * (1000 / 3600)) 40 (20 * 10) st = (main, true)
    /\ Forall2 (inStep referencePatient) main asteps.
Proof.
  intros E1 E2 E3 Ee.
  assert (Et : targetCe referencePatient = Q2R 3)
    by (cbn [targetCe referencePatient]; decimals; lra).
  assert (Ei : 10 = Q2R 10) by (decimals; lra).
  assert (Em : 10 * (1000 / 3600) = Q2R (25 # 9)) by (decimals; lra).
  assert (Hrem : inI (20 * 10) (iconst 200))
    by (unfold inI, iconst; cbn [lo hi]; decimals; lra).
  pose proof (reference_inState st E1 E2 E3 Ee) as Hst.
  replace (mainLoop referencePatient 10 (eleveldParameters referencePatient)
             (10 * (1000 / 3600)) 40 (20 * 10) st)
    with (mainLoop referencePatient (Q2R 10) (eleveldParameters referencePatient)
            (Q2R (25 # 9)) 40 (20 * 10) st)
    by (rewrite <- Ei, <- Em; reflexivity).
  destruct reference_checked as (asteps & Hrun & Hc).
  destruct (amainLoop_sound referencePatient (eleveldParameters referencePatient)
              3 10 (25 # 9) referenceAParams reference_inParams Et
              eq_refl ltac:(discriminate) 40%nat _ _ _ _ _ Hrem Hst Hrun)
    as (main & Hloop & Hall).
  exists main, asteps. repeat split; assumption.
Qed.

(** The whole run of the reference patient: one loading step, then the
    steps of the second loop. *)
Lemma reference_run :
  exists first main asteps,
    referenceChecks asteps = true
    /\ Forall2 (inStep referencePatient) main asteps
    /\ phase first = loading
    /\ eleveldProtocol 40 referencePatient
       = {| steps := first :: main; returned := true |}.
Proof.
  destruct reference_loaded as (E1 & E2 & E3 & Ee & _ & Et).
  set (st := integrate (eleveldParameters referencePatient)
               (10 * (1000 / 3600)) 6.7824 (initialState referencePatient)) in *.
  destruct (reference_mainLoop st E1 E2 E3 Ee) as (main & asteps & Hrun & Hloop & Hall).
  exists (emit referencePatient (10 * (1000 / 3600)) st loading), main, asteps.
  repeat split; try assumption.
  unfold eleveldProtocol.
  rewrite reference_resolveLoading.
  change (concentrationMgPerMl referencePatient) with 10.
  rewrite reference_resolveBolus.
  change (intervalSec referencePatient ?? 10) with 10.
  change (volumeMl referencePatient ?? 0) with 20.
  rewrite loadingLoop_single by (try reflexivity; lra).
  fold st. rewrite Hloop. reflexivity.
Qed.

(** C3.  For the reference patient (propofol, 70 kg, 35 years, male, 170 cm,
    target 3, 20 mL at 10 mg/mL, interval 10 s, no override, starting
    concentration 0) the run returns within 40 tests of each loop, after 19
    steps, and the effect-site concentration of the last step is at most the
    decay threshold 0.01. *)
Theorem referencePatient_terminates :
  exists final : DosingStep,
    returned (eleveldProtocol 40 referencePatient) = true
    /\ length (steps (eleveldProtocol 40 referencePatient)) = 19%nat
    /\ finalStep (steps (eleveldProtocol 40 referencePatient)) = Some final
    /\ ce final <= 0.01.
Proof.
  destruct reference_run as (first & main & asteps & Hc & Hall & _ & ->).
  cbn [returned steps].
  unfold referenceChecks in Hc.
  apply andb_prop in Hc as [Hc _]. apply andb_prop in Hc as [Hlen Hlast].
  apply Nat.eqb_eq in Hlen.
  destruct (finalStep asteps) as [a|] eqn:Ea; [|discriminate].
  destruct (Forall2_finalStep _ _ _ _ _ Hall _ Ea) as (final & Hfinal & Hin).
  exists final. repeat split.
  - cbn [length]. now rewrite (Forall2_length Hall), Hlen.
  - change (first :: main) with ([first] ++ main).
    rewrite finalStep_app; [assumption|].
    intros ->. discriminate.
  - destruct Hin as [_ [_ Hhi] _].
    apply Qle_bool_true in Hlast.
    eapply Rle_trans; [exact Hhi|]. exact Hlast.
Qed.

(** C4 does not hold of the code.  The property asks for non-negative
    concentrations in every step; on the reference patient the third step
    pushed (the second of the maintenance phase) has a negative effect-site
    concentration: the rate constants are per minute, the tick is 10
    seconds, and the Euler update of the central compartment overshoots. *)
Theorem referencePatient_negative_ce :
  exists s : DosingStep,
    nth_error (steps (eleveldProtocol 40 referencePatient)) 2 = Some s
    /\ ce s < 0.
Proof.
  destruct reference_run as (first & main & asteps & Hc & Hall & _ & ->).
  cbn [steps nth_error].
  unfold referenceChecks in Hc. apply andb_prop in Hc as [_ Hneg].
  destruct (nth_error asteps 1) as [a|] eqn:Ea; [|discriminate].
  destruct (Forall2_nth_error _ _ _ _ _ Hall _ _ Ea) as (s & Hs & Hin).
  exists s. split; [assumption|].
  destruct Hin as [_ [_ Hhi] _].
  apply qlt_true in Hneg. rewrite Q2R_zero in Hneg. lra.
Qed.

(** ** The structure of a run *)

Lemma eleveldProtocol_phases (fuel : nat) (params : Params) :
  eleveldProtocol fuel params
  = match loadingPhase fuel params with
    | (ls, None) => {| steps := ls; returned := false |}
    | (ls, Some st) =>
        let (ms, fin) := mainPhase fuel params st in
        {| steps := ls ++ ms; returned := fin |}
    end.
Proof.
  unfold eleveldProtocol, loadingPhase, mainPhase, resolvedDuration,
    resolvedBolus, intervalOf, pumpCeiling, maintenanceBudget.
  destruct (resolveLoading params) as [dose duration]; cbn [fst snd].
  destruct (resolveBolus _ dose duration) as [bolus duration']; cbn [fst snd].
  reflexivity.
Qed.

(** The steps of a run are those of the first loop followed by those of the
    second, when the first loop was left. *)
Lemma steps_phases (fuel : nat) (params : Params) :
  steps (eleveldProtocol fuel params)
  = fst (loadingPhase fuel params)
    ++ match snd (loadingPhase fuel params) with
       | Some st => fst (mainPhase fuel params st)
       | None => []
       end.
Proof.
  rewrite eleveldProtocol_phases.
  destruct (loadingPhase fuel params) as [ls [st|]]; cbn [fst snd steps].
  - now destruct (mainPhase fuel params st).
  - now rewrite app_nil_r.
Qed.

Section LoopInduction.

Variable params : Params.
Variable interval : R.
Variable p : CompartmentalParameters.
Variable maxRateMgSec : R.
Variable bolusRateMgSec : R.
Variable loadingDuration : R.

(** Induction over the ticks of the first loop: a property of the state at
    loop entry, the steps pushed and the state at loop exit. *)
Lemma loadingLoop_ticks
    (P : SimulationState -> list DosingStep -> option SimulationState -> Prop) :
  (forall st, P st [] None) ->
  (forall st, loadingDuration <= elapsed st -> P st [] (Some st)) ->
  (forall st l out,
      elapsed st < loadingDuration ->
      let st' :=
        integrate p bolusRateMgSec
          (Math.min interval (loadingDuration - elapsed st)) st in
      P st' l out ->
      P st (emit params bolusRateMgSec st' loading :: l) out) ->
  forall fuel st,
    P st
      (fst (loadingLoop params interval p bolusRateMgSec loadingDuration fuel st))
      (snd (loadingLoop params interval p bolusRateMgSec loadingDuration fuel st)).
Proof.
  intros Hout Hexit Htick.
  induction fuel as [|fuel IH]; intros st; cbn [loadingLoop].
  - apply Hout.
  - destruct (Rlt_dec (elapsed st) loadingDuration) as [Hlt|Hge].
    + specialize (IH (integrate p bolusRateMgSec
                        (Math.min interval (loadingDuration - elapsed st)) st)).
      destruct (loadingLoop params interval p bolusRateMgSec loadingDuration fuel _)
        as [rest out]; cbn [fst snd] in *.
      now apply Htick.
    + cbn [fst snd]. apply Hexit. lra.
Qed.

(** Induction over the ticks of the second loop. *)
Lemma mainLoop_ticks (P : R -> SimulationState -> list DosingStep -> Prop) :
  (forall rem st, P rem st []) ->
  (forall rem st l,
      let r := infusionRate params interval p maxRateMgSec rem st in
      let rem' := remainingAfter interval rem r in
      let st' := integrate p r interval st in
      P rem' st' l ->
      P rem st
        (emit params r st' (if Rlt_dec 0 rem' then maintenance else decay) :: l)) ->
  forall fuel rem st,
    P rem st (fst (mainLoop params interval p maxRateMgSec fuel rem st)).
Proof.
  intros Hnil Htick.
  induction fuel as [|fuel IH]; intros rem st; cbn [mainLoop].
  - apply Hnil.
  - destruct (continues rem st); [|apply Hnil].
    set (r := infusionRate params interval p maxRateMgSec rem st).
    set (rem' := remainingAfter interval rem r).
    set (st' := integrate p r interval st).
    destruct (breaks rem' st').
    + cbn [fst]. apply Htick, Hnil.
    + specialize (IH rem' st').
      destruct (mainLoop params interval p maxRateMgSec fuel rem' st')
        as [rest fin]; cbn [fst] in *.
      now apply Htick.
Qed.

(** The rate of a tick: never negative, never more than what is left of
    the budget, and 0 once the budget is exhausted. *)
Lemma infusionRate_bounds (rem : R) (st : SimulationState) :
  0 < interval -> 0 <= maxRateMgSec ->
  let r := infusionRate params interval p maxRateMgSec rem st in
  0 <= r /\ (0 < rem -> r * interval <= rem) /\ (rem <= 0 -> r = 0).
Proof.
  intros Hi Hm. cbv zeta. unfold infusionRate.
  destruct (Rlt_dec 0 rem) as [Hpos|Hneg].
  - set (d := (targetCe params * cl1 p
               + (targetCe params - Ce st) * vc p * ke0 p) / 60).
    set (d' := if Rlt_dec d 0 then 0 else d).
    assert (Hd' : 0 <= d') by (subst d'; destruct (Rlt_dec d 0); lra).
    assert (Hx : 0 <= Math.min maxRateMgSec d')
      by (unfold Math.min; apply Rmin_glb; assumption).
    assert (Hdel : 0 < rem / interval) by (apply Rdiv_lt_0_compat; lra).
    assert (Hmul : rem / interval * interval = rem) by (field; lra).
    destruct (Rlt_dec (rem / interval) (Math.min maxRateMgSec d')) as [Hc|Hc].
    + repeat split; try lra.
    + repeat split; try lra.
      intros _. rewrite <- Hmul.
      apply Rmult_le_compat_r; lra.
  - repeat split; lra.
Qed.

Lemma remainingAfter_exhausted (rem r : R) :
  rem <= 0 -> remainingAfter interval rem r = rem.
Proof. intros H. unfold remainingAfter. now rewrite Rlt_dec_false. Qed.

Lemma ratePerKg_0 : ratePerKg params 0 = 0.
Proof. unfold ratePerKg, Rdiv. ring. Qed.

End LoopInduction.

(** ** Fuel

    More fuel only adds steps at the end, and changes nothing once the
    function has returned. *)

Section Fuel.

Variable params : Params.
Variable interval : R.
Variable p : CompartmentalParameters.
Variable maxRateMgSec : R.
Variable bolusRateMgSec : R.
Variable loadingDuration : R.

Lemma loadingLoop_fuel (n : nat) :
  forall (m : nat) (st : SimulationState),
    (n <= m)%nat ->
    match snd (loadingLoop params interval p bolusRateMgSec loadingDuration n st) with
    | Some _ =>
        loadingLoop params interval p bolusRateMgSec loadingDuration m st
        = loadingLoop params interval p bolusRateMgSec loadingDuration n st
    | None =>
        exists rest,
          fst (loadingLoop params interval p bolusRateMgSec loadingDuration m st)
          = fst (loadingLoop params interval p bolusRateMgSec loadingDuration n st)
            ++ rest
    end.
Proof.
  induction n as [|n IH]; intros m st Hle.
  - cbn [loadingLoop fst snd app]. eexists. reflexivity.
  - destruct m as [|m]; [lia|]. cbn [loadingLoop].
    destruct (Rlt_dec (elapsed st) loadingDuration); [|reflexivity].
    set (st' := integrate p bolusRateMgSec
                  (Math.min interval (loadingDuration - elapsed st)) st).
    specialize (IH m st' ltac:(lia)).
    destruct (loadingLoop params interval p bolusRateMgSec loadingDuration n st')
      as [l [st1|]];
      destruct (loadingLoop params interval p bolusRateMgSec loadingDuration m st')
        as [l' o']; cbn [fst snd] in *.
    + now injection IH as -> ->.
    + destruct IH as (rest & ->). exists rest. reflexivity.
Qed.

Lemma mainLoop_fuel (n : nat) :
  forall (m : nat) (rem : R) (st : SimulationState),
    (n <= m)%nat ->
    if snd (mainLoop params interval p maxRateMgSec n rem st)
    then mainLoop params interval p maxRateMgSec m rem st
         = mainLoop params interval p maxRateMgSec n rem st
    else exists rest,
           fst (mainLoop params interval p maxRateMgSec m rem st)
           = fst (mainLoop params interval p maxRateMgSec n rem st) ++ rest.
Proof.
  induction n as [|n IH]; intros m rem st Hle.
  - cbn [mainLoop fst snd app]. eexists. reflexivity.
  - destruct m as [|m]; [lia|]. cbn [mainLoop].
    destruct (continues rem st); [|reflexivity].
    set (r := infusionRate params interval p maxRateMgSec rem st).
    set (rem' := remainingAfter interval rem r).
    set (st' := integrate p r interval st).
    destruct (breaks rem' st'); [reflexivity|].
    specialize (IH m rem' st' ltac:(lia)).
    destruct (mainLoop params interval p maxRateMgSec n rem' st') as [l [|]];
      destruct (mainLoop params interval p maxRateMgSec m rem' st') as [l' fin'];
      cbn [fst snd] in *.
    + now injection IH as -> ->.
    + destruct IH as (rest & ->). exists rest. reflexivity.
Qed.

End Fuel.

(** A run that returned is the same with more fuel, and the steps of a run
    are the first steps of every run with more fuel. *)
Lemma eleveldProtocol_fuel (params : Params) (n m : nat) :
  (n <= m)%nat ->
  (returned (eleveldProtocol n params) = true ->
   eleveldProtocol m params = eleveldProtocol n params)
  /\ exists rest,
       steps (eleveldProtocol m params)
       = steps (eleveldProtocol n params) ++ rest.
Proof.
  intros Hle. rewrite !eleveldProtocol_phases.
  pose proof (loadingLoop_fuel params (intervalOf params) (eleveldParameters params)
                (fst (resolvedBolus params)) (resolvedDuration params)
                n m (initialState params) Hle) as Hl.
  fold (loadingPhase n params) (loadingPhase m params) in Hl.
  destruct (loadingPhase n params) as [ls [st|]]; cbn [fst snd] in Hl.
  - rewrite Hl.
    pose proof (mainLoop_fuel params (intervalOf params) (eleveldParameters params)
                  (pumpCeiling params) n m (maintenanceBudget params) st Hle) as Hm.
    fold (mainPhase n params st) (mainPhase m params st) in Hm.
    destruct (mainPhase n params st) as [ms [|]]; cbn [fst snd] in Hm.
    + rewrite Hm. split; [reflexivity|]. exists []. now rewrite app_nil_r.
    + destruct (mainPhase m params st) as [ms' fin']; cbn [fst steps returned] in *.
      split; [discriminate|].
      destruct Hm as (rest & ->). exists rest. now rewrite app_assoc.
  - cbn [steps returned]. split; [discriminate|].
    destruct (loadingPhase m params) as [ls' [st'|]]; cbn [fst] in Hl;
      destruct Hl as (rest & ->).
    + destruct (mainPhase m params st') as [ms' fin']; cbn [steps].
      exists (rest ++ ms'). now rewrite app_assoc.
    + exists rest. reflexivity.
Qed.

(** ** Lists of steps *)

Lemma Sorted_cons_Forall (A : Type) (R : A -> A -> Prop) (a : A) (l : list A) :
  Forall (R a) l -> Sorted R l -> Sorted R (a :: l).
Proof.
  intros Hall Hl. constructor; [assumption|].
  destruct Hall; constructor; assumption.
Qed.

Lemma Sorted_app_all (A : Type) (R : A -> A -> Prop) (l1 l2 : list A) :
  Sorted R l1 -> Sorted R l2 ->
  (forall a b, In a l1 -> In b l2 -> R a b) ->
  Sorted R (l1 ++ l2).
Proof.
  intros H1 H2 Hcross. induction H1 as [|a l1 H1 IH Hhd]; [assumption|].
  cbn [app]. constructor.
  - apply IH. intros x y Hx Hy. apply Hcross; [now right | assumption].
  - destruct Hhd as [|b l1' Hab]; cbn [app].
    + destruct l2 as [|b l2]; constructor.
      apply Hcross; now left.
    + now constructor.
Qed.

(** A sorted list that starts at [a] and ends at [b], followed by a sorted
    list that starts at [b]. *)
Lemma Sorted_app_final (A : Type) (R : A -> A -> Prop) (a b : A) (l1 l2 : list A) :
  Sorted R (a :: l1) -> finalStep (a :: l1) = Some b -> Sorted R (b :: l2) ->
  Sorted R (a :: l1 ++ l2).
Proof.
  revert a. induction l1 as [|c l1 IH]; intros a H1 Hfin H2.
  - injection Hfin as <-. assumption.
  - apply Sorted_inv in H1 as [H1 Hhd]. apply HdRel_inv in Hhd.
    cbn [app]. constructor; [|now constructor].
    apply IH; assumption.
Qed.

Lemma Sorted_Forall2 (A B : Type) (R : A -> A -> Prop) (R' : B -> B -> Prop)
    (P : A -> B -> Prop) (l : list A) (l' : list B) :
  (forall a a' b b', P a b -> P a' b' -> R a a' -> R' b b') ->
  Forall2 P l l' -> Sorted R l -> Sorted R' l'.
Proof.
  intros Hstep Hall. induction Hall as [|a b l l' Hab Hall IH]; intros Hs.
  - constructor.
  - apply Sorted_inv in Hs as [Hs Hhd]. constructor; [now apply IH|].
    destruct Hall as [|a' b' l l' Hab' _]; constructor.
    apply HdRel_inv in Hhd. eapply Hstep; eassumption.
Qed.

(** ** What a valid input resolves to *)

Lemma calculateLoadingDose_nonneg (params : Params) :
  valid_params params ->
  0 <= ld_loadingDoseMg (calculateLoadingDose params)
  /\ 0 <= ld_durationSec (calculateLoadingDose params).
Proof.
  intros V.
  pose proof (vc_positive params (valid_cov _ V)) as Hvc.
  pose proof (valid_concentration _ V) as Hc.
  unfold calculateLoadingDose; cbn [ld_loadingDoseMg ld_durationSec].
  set (delta := Math.max (targetCe params - currentCe params ?? 0) 0).
  assert (Hdelta : 0 <= delta) by (subst delta; unfold Math.max; apply Rmax_r).
  assert (Hdose : 0 <= delta * vc (eleveldParameters params))
    by (apply Rmult_le_pos; lra).
  split; [assumption|].
  apply Rmult_le_pos; [assumption|].
  apply Rlt_le, Rinv_0_lt_compat. lra.
Qed.

Lemma resolveLoading_nonneg (params : Params) :
  valid_params params ->
  0 <= fst (resolveLoading params) /\ 0 <= snd (resolveLoading params).
Proof.
  intros V.
  pose proof (calculateLoadingDose_nonneg params V) as [Hd Ht].
  pose proof (valid_loadingDose _ V) as Vd.
  pose proof (valid_loadingDuration _ V) as Vt.
  unfold resolveLoading.
  destruct (loadingDoseMg params) as [d|], (loadingDurationSec params) as [t|];
    cbn [fst snd orDefault] in *; split; assumption.
Qed.

Lemma resolveBolus_facts (maxRate dose duration : R) :
  0 < maxRate -> 0 <= dose -> 0 <= duration ->
  let bolus := fst (resolveBolus maxRate dose duration) in
  let duration' := snd (resolveBolus maxRate dose duration) in
  0 <= bolus /\ 0 <= duration' /\ bolus * duration' <= dose.
Proof.
  intros Hm Hd Ht. cbv zeta. unfold resolveBolus.
  assert (Hq : 0 <= dose / maxRate)
    by (apply Rmult_le_pos; [lra | apply Rlt_le, Rinv_0_lt_compat; lra]).
  assert (Hmul : maxRate * (dose / maxRate) = dose) by (field; lra).
  destruct (Req_dec_T duration 0) as [E0|Hne].
  - destruct (Rlt_dec 0 dose); cbn [fst snd]; repeat split; lra.
  - assert (Hb : 0 <= dose / duration)
      by (apply Rmult_le_pos; [lra | apply Rlt_le, Rinv_0_lt_compat; lra]).
    destruct (Rlt_dec maxRate (dose / duration)); cbn [fst snd];
      repeat split; try lra.
    right. field. assumption.
Qed.

(** The facts about a valid input that the loops rely on. *)
Lemma resolved_facts (params : Params) :
  valid_params params ->
  0 < intervalOf params
  /\ 0 < pumpCeiling params
  /\ 0 <= maintenanceBudget params
  /\ 0 <= resolvedDose params
  /\ 0 <= fst (resolvedBolus params)
  /\ 0 <= resolvedDuration params
  /\ fst (resolvedBolus params) * resolvedDuration params <= resolvedDose params.
Proof.
  intros V.
  pose proof (valid_concentration _ V) as Hc.
  pose proof (resolveLoading_nonneg params V) as [Hd Ht].
  assert (Hm : 0 < pumpCeiling params) by (unfold pumpCeiling; lra).
  pose proof (resolveBolus_facts _ _ _ Hm Hd Ht) as (Hb & Ht' & Hbt).
  repeat split; try assumption.
  - exact (valid_interval _ V).
  - unfold maintenanceBudget. apply Rmult_le_pos; [exact (valid_volume _ V) | lra].
Qed.

Lemma referencePatient_valid : valid_params referencePatient.
Proof.
  constructor; unfold valid_covariates; cbn; lra.
Qed.

(** ** Cumulative dose *)

Section CumulativeDose.

Variable params : Params.
Hypothesis V : valid_params params.

Let interval := intervalOf params.
Let p := eleveldParameters params.
Let bolus := fst (resolvedBolus params).
Let duration := resolvedDuration params.
Let dose := resolvedDose params.
Let budget := maintenanceBudget params.

(** In the first loop the cumulative dose is the bolus rate times the
    elapsed time, and the elapsed time stays within the loading duration. *)
Let loadingInv (st : SimulationState) : Prop :=
  cumulative st = bolus * elapsed st /\ 0 <= elapsed st <= duration.

Lemma loading_cumulative (fuel : nat) (st : SimulationState) :
  loadingInv st ->
  let l := fst (loadingLoop params interval p bolus duration fuel st) in
  let out := snd (loadingLoop params interval p bolus duration fuel st) in
  Forall (fun s => cumulative st <= cumulativeDoseMg s <= dose) l
  /\ nondecreasing cumulativeDoseMg l
  /\ forall st1, out = Some st1 ->
       loadingInv st1
       /\ cumulative st <= cumulative st1
       /\ Forall (fun s => cumulativeDoseMg s <= cumulative st1) l.
Proof.
  destruct (resolved_facts params V) as (Hi & _ & _ & _ & Hb & _ & Hbd).
  fold interval bolus duration dose in Hi, Hb, Hbd.
  cbv zeta. revert fuel st.
  apply (loadingLoop_ticks params interval p bolus duration
           (fun st l out =>
              loadingInv st ->
              Forall (fun s => cumulative st <= cumulativeDoseMg s <= dose) l
              /\ nondecreasing cumulativeDoseMg l
              /\ forall st1, out = Some st1 ->
                   loadingInv st1
                   /\ cumulative st <= cumulative st1
                   /\ Forall (fun s => cumulativeDoseMg s <= cumulative st1) l)).
  - intros st _. split; [constructor | split; [constructor | discriminate]].
  - intros st _ Hst. split; [constructor | split; [constructor |]].
    intros st1 [= <-]. split; [assumption | split; [lra | constructor]].
  - intros st l out Hlt st' IH [Hcum [H0 Hle]].
    assert (Hdt : 0 < Math.min interval (duration - elapsed st)
                  <= duration - elapsed st).
    { unfold Math.min. split; [apply Rmin_glb_lt; lra | apply Rmin_r]. }
    assert (Hst' : loadingInv st').
    { subst st'; unfold loadingInv; cbn [integrate cumulative elapsed].
      split; [rewrite Hcum; ring | lra]. }
    assert (Hstep : cumulative st <= cumulative st' <= dose).
    { destruct Hst' as [E' [_ Hle']]. rewrite E', Hcum. split.
      - apply Rmult_le_compat_l; [assumption|].
        subst st'; cbn [integrate elapsed]. lra.
      - eapply Rle_trans; [|exact Hbd].
        apply Rmult_le_compat_l; assumption. }
    destruct (IH Hst') as (Hall & Hsorted & Hexit).
    split; [|split].
    + constructor; [cbn [emit cumulativeDoseMg]; lra|].
      eapply Forall_impl; [|exact Hall]. cbn beta. intros s Hs. lra.
    + apply Sorted_cons_Forall; [|assumption].
      eapply Forall_impl; [|exact Hall]. cbn beta.
      intros s Hs. cbn [emit cumulativeDoseMg]. lra.
    + intros st1 Hout.
      destruct (Hexit st1 Hout) as (Hinv1 & Hle1 & Hall1).
      split; [assumption | split; [lra|]].
      constructor; [cbn [emit cumulativeDoseMg]; lra | assumption].
Qed.

(** In the second loop what has been delivered and what is left of the
    budget never add up to more than the loading dose and the budget. *)
Let mainInv (rem : R) (st : SimulationState) : Prop :=
  0 <= rem /\ cumulative st + rem <= dose + budget.

Lemma main_cumulative (fuel : nat) (rem : R) (st : SimulationState) :
  mainInv rem st ->
  let l := fst (mainLoop params interval p (pumpCeiling params) fuel rem st) in
  Forall (fun s => cumulative st <= cumulativeDoseMg s <= dose + budget) l
  /\ nondecreasing cumulativeDoseMg l.
Proof.
  destruct (resolved_facts params V) as (Hi & Hm & _).
  fold interval in Hi.
  cbv zeta. revert fuel rem st.
  apply (mainLoop_ticks params interval p (pumpCeiling params)
           (fun rem st l =>
              mainInv rem st ->
              Forall (fun s => cumulative st <= cumulativeDoseMg s <= dose + budget) l
              /\ nondecreasing cumulativeDoseMg l)).
  - intros rem st _. split; constructor.
  - intros rem st l r rem' st' IH [Hrem Hsum].
    destruct (infusionRate_bounds params interval p (pumpCeiling params) rem st
                Hi (Rlt_le _ _ Hm)) as (Hr0 & Hr1 & Hr2).
    fold r in Hr0, Hr1, Hr2.
    assert (Hri : 0 <= r * interval) by (apply Rmult_le_pos; lra).
    assert (Hrem' : 0 <= rem' /\ rem' = rem - r * interval).
    { subst rem'; unfold remainingAfter.
      destruct (Rlt_dec 0 rem) as [Hpos|Hneg].
      - specialize (Hr1 Hpos). lra.
      - assert (E : r = 0) by (apply Hr2; lra). rewrite E. lra. }
    assert (Hcum' : cumulative st' = cumulative st + r * interval)
      by (subst st'; reflexivity).
    assert (Hinv' : mainInv rem' st') by (unfold mainInv; lra).
    destruct (IH Hinv') as (Hall & Hsorted).
    split.
    + constructor; [cbn [emit cumulativeDoseMg]; lra|].
      eapply Forall_impl; [|exact Hall]. cbn beta. intros s Hs. lra.
    + apply Sorted_cons_Forall; [|assumption].
      eapply Forall_impl; [|exact Hall]. cbn beta.
      intros s Hs. cbn [emit cumulativeDoseMg]. lra.
Qed.

End CumulativeDose.

(** C5.  For every valid input and however far the run is followed, the
    [cumulativeDoseMg] field never decreases from a step to the next, and it
    never exceeds the resolved loading dose plus the maintenance budget
    [volumeMl * concentrationMgPerMl] (it is never negative either). *)
Theorem cumulativeDose_monotone_bounded (params : Params) (fuel : nat) :
  valid_params params ->
  nondecreasing cumulativeDoseMg (steps (eleveldProtocol fuel params))
  /\ Forall (fun s =>
               0 <= cumulativeDoseMg s
               <= resolvedDose params + maintenanceBudget params)
            (steps (eleveldProtocol fuel params)).
Proof.
  intros V.
  destruct (resolved_facts params V) as (_ & _ & HB & HD & Hb & Ht & Hbd).
  rewrite steps_phases. unfold loadingPhase, mainPhase.
  assert (H0 : cumulative (initialState params)
               = fst (resolvedBolus params) * elapsed (initialState params)
               /\ 0 <= elapsed (initialState params) <= resolvedDuration params)
    by (unfold initialState; cbn [cumulative elapsed]; lra).
  destruct (loading_cumulative params V fuel _ H0) as (Hall & Hsorted & Hexit).
  change (cumulative (initialState params)) with 0 in Hall, Hexit.
  destruct (snd (loadingLoop params (intervalOf params) (eleveldParameters params)
                   (fst (resolvedBolus params)) (resolvedDuration params) fuel
                   (initialState params))) as [st1|].
  - destruct (Hexit st1 eq_refl) as ([Hc1 [_ Hle1]] & H01 & Hbefore).
    assert (Hinv : 0 <= maintenanceBudget params
                   /\ cumulative st1 + maintenanceBudget params
                      <= resolvedDose params + maintenanceBudget params).
    { split; [assumption|].
      assert (fst (resolvedBolus params) * elapsed st1
              <= fst (resolvedBolus params) * resolvedDuration params)
        by (apply Rmult_le_compat_l; assumption).
      lra. }
    destruct (main_cumulative params V fuel _ st1 Hinv) as (HallM & HsortedM).
    split.
    + apply Sorted_app_all; try assumption.
      intros a b Ha Hin.
      rewrite Forall_forall in Hbefore, HallM.
      specialize (Hbefore a Ha). specialize (HallM b Hin). cbn beta in *. lra.
    + apply Forall_app. split.
      * eapply Forall_impl; [|exact Hall]. cbn beta. intros s Hs. lra.
      * eapply Forall_impl; [|exact HallM]. cbn beta. intros s Hs. lra.
  - rewrite app_nil_r. split; [assumption|].
    eapply Forall_impl; [|exact Hall]. cbn beta. intros s Hs. lra.
Qed.

Lemma cumulativeDose_monotone_bounded_witness :
  valid_params referencePatient
  /\ nondecreasing cumulativeDoseMg (steps (eleveldProtocol 40 referencePatient))
  /\ Forall (fun s =>
               0 <= cumulativeDoseMg s
               <= resolvedDose referencePatient + maintenanceBudget referencePatient)
            (steps (eleveldProtocol 40 referencePatient)).
Proof.
  split.
  - exact referencePatient_valid.
  - apply (cumulativeDose_monotone_bounded referencePatient 40).
    exact referencePatient_valid.
Defined.

(** ** Phases *)

Lemma loading_phases (params : Params) (interval : R) (p : CompartmentalParameters)
    (bolus duration : R) (fuel : nat) (st : SimulationState) :
  Forall (fun s => phase s = loading)
    (fst (loadingLoop params interval p bolus duration fuel st)).
Proof.
  revert fuel st.
  apply (loadingLoop_ticks params interval p bolus duration
           (fun _ l _ => Forall (fun s => phase s = loading) l)).
  - constructor.
  - constructor.
  - intros st l out _ st' IH. constructor; [reflexivity | assumption].
Qed.

(** The second loop pushes maintenance steps, then decay steps; once the
    budget is exhausted it pushes decay steps only. *)
Lemma main_phases (params : Params) (interval : R) (p : CompartmentalParameters)
    (maxRate : R) (fuel : nat) (rem : R) (st : SimulationState) :
  exists l2 l3,
    fst (mainLoop params interval p maxRate fuel rem st) = l2 ++ l3
    /\ Forall (fun s => phase s = maintenance) l2
    /\ Forall (fun s => phase s = decay) l3
    /\ (rem <= 0 -> l2 = []).
Proof.
  revert fuel rem st.
  apply (mainLoop_ticks params interval p maxRate
           (fun rem _ l =>
              exists l2 l3,
                l = l2 ++ l3
                /\ Forall (fun s => phase s = maintenance) l2
                /\ Forall (fun s => phase s = decay) l3
                /\ (rem <= 0 -> l2 = []))).
  - intros rem st. exists [], []. repeat split; constructor.
  - intros rem st l r rem' st' (l2 & l3 & -> & H2 & H3 & Hex).
    destruct (Rlt_dec 0 rem') as [Hpos|Hneg].
    + exists (emit params r st' maintenance :: l2), l3.
      split; [reflexivity|]. split; [now constructor|]. split; [assumption|].
      intros Hrem. exfalso.
      subst rem'. rewrite remainingAfter_exhausted in Hpos by assumption. lra.
    + exists [], (emit params r st' decay :: l3).
      rewrite (Hex ltac:(lra)) in *.
      split; [reflexivity|]. split; [constructor|]. split; [now constructor|].
      reflexivity.
Qed.

(** C6.  For every input and however far the run is followed, the phases of
    the steps read loading* maintenance* decay*: a block of loading steps,
    then a block of maintenance steps, then a block of decay steps. *)
Theorem phases_in_order (params : Params) (fuel : nat) :
  phasesInOrder (steps (eleveldProtocol fuel params)).
Proof.
  unfold phasesInOrder. rewrite steps_phases.
  exists (fst (loadingPhase fuel params)).
  pose proof (loading_phases params (intervalOf params) (eleveldParameters params)
                (fst (resolvedBolus params)) (resolvedDuration params) fuel
                (initialState params)) as Hl.
  fold (loadingPhase fuel params) in Hl.
  destruct (snd (loadingPhase fuel params)) as [st|].
  - destruct (main_phases params (intervalOf params) (eleveldParameters params)
                (pumpCeiling params) fuel (maintenanceBudget params) st)
      as (l2 & l3 & E & H2 & H3 & _).
    exists l2, l3. unfold mainPhase. rewrite E. repeat split; assumption.
  - exists [], []. repeat split; try assumption; constructor.
Qed.

(** ** Rates of the decay phase *)

Lemma infusionRate_exhausted (params : Params) (interval : R)
    (p : CompartmentalParameters) (maxRate rem : R) (st : SimulationState) :
  rem <= 0 -> infusionRate params interval p maxRate rem st = 0.
Proof. intros H. unfold infusionRate. now rewrite Rlt_dec_false. Qed.

Lemma main_decay_rates (params : Params) (interval : R) (p : CompartmentalParameters)
    (maxRate : R) (fuel : nat) (rem : R) (st : SimulationState) :
  let l := fst (mainLoop params interval p maxRate fuel rem st) in
  Sorted afterDecay l
  /\ (rem <= 0 -> Forall (fun s => phase s = decay /\ rate s = 0) l).
Proof.
  cbv zeta. revert fuel rem st.
  apply (mainLoop_ticks params interval p maxRate
           (fun rem _ l =>
              Sorted afterDecay l
              /\ (rem <= 0 -> Forall (fun s => phase s = decay /\ rate s = 0) l))).
  - intros rem st. split; constructor.
  - intros rem st l r rem' st' [Hsorted Hex]. split.
    + constructor; [assumption|].
      destruct l as [|s1 l]; constructor.
      unfold afterDecay at 1. cbn [emit phase]. intros Htag.
      destruct (Rlt_dec 0 rem') as [|Hneg]; [discriminate|].
      assert (Hall := Hex ltac:(lra)).
      now apply Forall_inv in Hall.
    + intros Hrem.
      assert (Er : r = 0) by (subst r; now apply infusionRate_exhausted).
      assert (Erem : rem' = rem)
        by (subst rem'; now apply remainingAfter_exhausted).
      constructor.
      * cbn [emit phase rate]. rewrite Erem, Rlt_dec_false, Er by assumption.
        split; [reflexivity | apply ratePerKg_0].
      * apply Hex. lra.
Qed.

Lemma Sorted_afterDecay_loading (l : list DosingStep) :
  Forall (fun s => phase s = loading) l -> Sorted afterDecay l.
Proof.
  induction 1 as [|s l Hs Hall IH]; constructor; [assumption|].
  destruct l; constructor. intros Hd. congruence.
Qed.

(** C8, as the code has it.  In every run a step that follows a decay step
    is a decay step with rate exactly 0; and when the maintenance budget is
    not positive at the start of the second loop, every decay step has rate
    0.  (The tick on which a positive budget runs out is tagged decay and
    carries the rate of that tick.) *)
Theorem decay_rate_zero_after_decay (params : Params) (fuel : nat) :
  Sorted afterDecay (steps (eleveldProtocol fuel params))
  /\ (maintenanceBudget params <= 0 ->
      decayRatesZero (steps (eleveldProtocol fuel params))).
Proof.
  rewrite steps_phases.
  pose proof (loading_phases params (intervalOf params) (eleveldParameters params)
                (fst (resolvedBolus params)) (resolvedDuration params) fuel
                (initialState params)) as Hl.
  fold (loadingPhase fuel params) in Hl.
  assert (Hlz : decayRatesZero (fst (loadingPhase fuel params))).
  { eapply Forall_impl; [|exact Hl]. cbn beta. intros s Hs Hd. congruence. }
  destruct (snd (loadingPhase fuel params)) as [st|].
  - destruct (main_decay_rates params (intervalOf params) (eleveldParameters params)
                (pumpCeiling params) fuel (maintenanceBudget params) st)
      as [Hsorted Hex].
    fold (mainPhase fuel params st) in Hsorted, Hex.
    split.
    + apply Sorted_app_all; [now apply Sorted_afterDecay_loading | assumption |].
      intros a b Ha _ Hd. rewrite Forall_forall in Hl.
      specialize (Hl a Ha). cbn beta in Hl. congruence.
    + intros HB. apply Forall_app. split; [assumption|].
      eapply Forall_impl; [|exact (Hex HB)]. cbn beta. intros s [_ Hr] _. exact Hr.
  - rewrite app_nil_r. split; [now apply Sorted_afterDecay_loading|].
    intros _. assumption.
Qed.


Lemma decay_rate_zero_after_decay_witness :
  maintenanceBudget atTargetPatient <= 0
  /\ Sorted afterDecay (steps (eleveldProtocol 40 atTargetPatient))
  /\ decayRatesZero (steps (eleveldProtocol 40 atTargetPatient)).
Proof.
  assert (HB : maintenanceBudget atTargetPatient <= 0)
    by (unfold maintenanceBudget; cbn; lra).
  split; [exact HB|].
  destruct (decay_rate_zero_after_decay atTargetPatient 40) as [Hs Hz].
  split; [exact Hs | exact (Hz HB)].
Defined.

(** ** Runs next to the reference patient *)

Lemma smallVolumePatient_valid : valid_params smallVolumePatient.
Proof. constructor; unfold valid_covariates; cbn; lra. Qed.

Lemma longLoadingPatient_valid : valid_params longLoadingPatient.
Proof. constructor; unfold valid_covariates; cbn; lra. Qed.

(** The parameter model reads the covariates only. *)
Lemma smallVolumePatient_parameters :
  eleveldParameters smallVolumePatient = eleveldParameters referencePatient.
Proof. reflexivity. Qed.

Lemma longLoadingPatient_parameters :
  eleveldParameters longLoadingPatient = eleveldParameters referencePatient.
Proof. reflexivity. Qed.


(** The first tick of the second loop, when the loop is entered. *)
Lemma mainLoop_first (params : Params) (interval : R) (p : CompartmentalParameters)
    (maxRate : R) (fuel : nat) (rem : R) (st : SimulationState) :
  continues rem st = true ->
  let r := infusionRate params interval p maxRate rem st in
  let rem' := remainingAfter interval rem r in
  let st' := integrate p r interval st in
  exists rest,
    fst (mainLoop params interval p maxRate (S fuel) rem st)
    = emit params r st' (if Rlt_dec 0 rem' then maintenance else decay) :: rest.
Proof.
  intros Hc. cbv zeta. cbn [mainLoop]. rewrite Hc.
  destruct (breaks _ _).
  - eexists. reflexivity.
  - destruct (mainLoop params interval p maxRate fuel _ _) as [rest fin].
    eexists. reflexivity.
Qed.

Lemma smallVolumePatient_resolved :
  resolvedBolus smallVolumePatient = (10 * (1000 / 3600), 6.7824).
Proof.
  unfold resolvedBolus, pumpCeiling.
  change (resolveLoading smallVolumePatient) with (resolveLoading referencePatient).
  rewrite reference_resolveLoading. cbn [fst snd].
  change (concentrationMgPerMl smallVolumePatient) with 10.
  apply reference_resolveBolus.
Qed.

(** The first two steps of the small-volume run: the loading tick, then the
    tick that spends the whole budget of 1 mg at 0.1 mg/s and is tagged
    decay. *)
Lemma smallVolumePatient_steps :
  exists s0 rest,
    steps (eleveldProtocol 40 smallVolumePatient)
    = s0 :: {| time := Math.round (6.7824 + 10);
               rate := ratePerKg smallVolumePatient 0.1;
               ce := 0 + 0.146 * (3 - 0) * 10;
               cumulativeDoseMg := 18.84 + 0.1 * 10;
               phase := decay |} :: rest.
Proof.
  rewrite steps_phases. unfold loadingPhase, resolvedDuration.
  rewrite smallVolumePatient_resolved; cbn [fst snd].
  change (intervalOf smallVolumePatient) with 10.
  rewrite loadingLoop_single by (try reflexivity; lra). cbn [fst snd].
  rewrite smallVolumePatient_parameters.
  change (initialState smallVolumePatient) with (initialState referencePatient).
  destruct reference_loaded as (E1 & E2 & E3 & Ee & Ec & Et).
  set (st := integrate (eleveldParameters referencePatient)
               (10 * (1000 / 3600)) 6.7824 (initialState referencePatient)) in *.
  unfold mainPhase. rewrite smallVolumePatient_parameters.
  change (intervalOf smallVolumePatient) with 10.
  assert (Hc : continues (maintenanceBudget smallVolumePatient) st = true).
  { unfold continues, maintenanceBudget; cbn [volumeMl concentrationMgPerMl
      smallVolumePatient orDefault].
    rewrite Rlt_dec_true by lra. reflexivity. }
  destruct (mainLoop_first smallVolumePatient 10 (eleveldParameters referencePatient)
              (pumpCeiling smallVolumePatient) 39
              (maintenanceBudget smallVolumePatient) st Hc) as (rest & ->).
  assert (Er : infusionRate smallVolumePatient 10 (eleveldParameters referencePatient)
                 (pumpCeiling smallVolumePatient)
                 (maintenanceBudget smallVolumePatient) st = 0.1).
  { unfold infusionRate, maintenanceBudget, pumpCeiling, Math.min;
      cbn [volumeMl concentrationMgPerMl targetCe smallVolumePatient orDefault].
    rewrite reference_cl1, reference_vc, reference_ke0, Ee.
    rewrite (Rlt_dec_true _ 0 (0.1 * 10)) by lra.
    rewrite (Rlt_dec_false _ _ 0) by lra.
    rewrite Rmin_right by lra.
    rewrite Rlt_dec_true by lra. lra. }
  rewrite Er.
  assert (Erem : remainingAfter 10 (maintenanceBudget smallVolumePatient) 0.1 = 0).
  { unfold remainingAfter, maintenanceBudget;
      cbn [volumeMl concentrationMgPerMl smallVolumePatient orDefault].
    rewrite Rlt_dec_true by lra. lra. }
  rewrite Erem, Rlt_dec_false by lra.
  eexists. exists rest. cbn [app]. f_equal. f_equal.
  unfold emit, integrate; cbn [elapsed Ce cumulative].
  rewrite Et, Ee, Ec, E1, reference_ke0. reflexivity.
Qed.

(** C8 fails as stated: in the run of the small-volume patient the second
    step is tagged decay and has a positive rate. *)
Lemma smallVolumePatient_decay_rate :
  valid_params smallVolumePatient
  /\ ~ decayRatesZero (steps (eleveldProtocol 40 smallVolumePatient)).
Proof.
  split; [exact smallVolumePatient_valid|].
  destruct smallVolumePatient_steps as (s0 & rest & ->).
  intros H. apply Forall_inv_tail, Forall_inv in H.
  cbn [phase rate] in H. specialize (H eq_refl).
  unfold ratePerKg in H. cbn [weightKg smallVolumePatient] in H. lra.
Qed.

(** ** Elapsed time *)

Lemma round_monotone (x y : R) : x <= y -> Math.round x <= Math.round y.
Proof.
  intros H. unfold Math.round. apply IZR_le, Zfloor_le. lra.
Qed.

Lemma round_plus_IZR (x : R) (n : Z) :
  Math.round (x + IZR n) = Math.round x + IZR n.
Proof.
  unfold Math.round. rewrite <- plus_IZR. f_equal.
  apply Zfloor_eq. rewrite plus_IZR.
  pose proof (Zfloor_bound (x + 0.5)). lra.
Qed.

Lemma round_IZR (n : Z) : Math.round (IZR n) = IZR n.
Proof.
  unfold Math.round. f_equal. apply Zfloor_eq. lra.
Qed.

Lemma Forall2_app_both (A B : Type) (P : A -> B -> Prop)
    (l1 l2 : list A) (l1' l2' : list B) :
  Forall2 P l1 l1' -> Forall2 P l2 l2' -> Forall2 P (l1 ++ l2) (l1' ++ l2').
Proof. intros H1 H2. induction H1; cbn [app]; [assumption | now constructor]. Qed.

Section ElapsedTime.

Variable params : Params.
Variable interval : R.
Variable p : CompartmentalParameters.
Variable maxRate : R.
Variable bolus : R.
Variable duration : R.

Hypothesis Hinterval : 0 < interval.

(** The un-rounded times of the ticks of the first loop. *)
Lemma loading_elapsed (fuel : nat) (st : SimulationState) :
  let l := fst (loadingLoop params interval p bolus duration fuel st) in
  let out := snd (loadingLoop params interval p bolus duration fuel st) in
  exists raw,
    Forall2 (stepAt duration) raw l
    /\ Sorted (tickAdvance interval duration) (elapsed st :: raw)
    /\ forall st1, out = Some st1 ->
         finalStep (elapsed st :: raw) = Some (elapsed st1)
         /\ duration <= elapsed st1.
Proof.
  cbv zeta. revert fuel st.
  apply (loadingLoop_ticks params interval p bolus duration
           (fun st l out =>
              exists raw,
                Forall2 (stepAt duration) raw l
                /\ Sorted (tickAdvance interval duration) (elapsed st :: raw)
                /\ forall st1, out = Some st1 ->
                     finalStep (elapsed st :: raw) = Some (elapsed st1)
                     /\ duration <= elapsed st1)).
  - intros st. exists []. split; [constructor|]. split; [repeat constructor|].
    discriminate.
  - intros st Hge. exists []. split; [constructor|]. split; [repeat constructor|].
    intros st1 [= <-]. split; [reflexivity | assumption].
  - intros st l out Hlt st' (raw & Hall & Hsorted & Hexit).
    assert (Et : elapsed st' = elapsed st + Math.min interval (duration - elapsed st))
      by reflexivity.
    assert (Hadv : tickAdvance interval duration (elapsed st) (elapsed st')
                   /\ elapsed st' <= duration).
    { rewrite Et. unfold tickAdvance, Math.min, Rmin.
      destruct (Rle_dec interval (duration - elapsed st)); repeat split; lra. }
    destruct Hadv as [Hadv Hle].
    exists (elapsed st' :: raw). split; [|split].
    + constructor; [|assumption].
      split; [reflexivity|]. cbn [emit phase]. tauto.
    + constructor; [assumption | now constructor].
    + intros st1 Hout. destruct (Hexit st1 Hout) as [Hfin Hd].
      split; [|assumption]. cbn [finalStep] in *. assumption.
Qed.

(** The un-rounded times of the ticks of the second loop. *)
Lemma main_elapsed (fuel : nat) (rem : R) (st : SimulationState) :
  duration <= elapsed st ->
  exists raw,
    Forall2 (stepAt duration) raw
      (fst (mainLoop params interval p maxRate fuel rem st))
    /\ Sorted (tickAdvance interval duration) (elapsed st :: raw).
Proof.
  revert fuel rem st.
  apply (mainLoop_ticks params interval p maxRate
           (fun _ st l =>
              duration <= elapsed st ->
              exists raw,
                Forall2 (stepAt duration) raw l
                /\ Sorted (tickAdvance interval duration) (elapsed st :: raw))).
  - intros _ st _. exists []. split; repeat constructor.
  - intros rem st l r rem' st' IH Hge.
    assert (Et : elapsed st' = elapsed st + interval) by reflexivity.
    destruct (IH ltac:(lra)) as (raw & Hall & Hsorted).
    exists (elapsed st' :: raw). split.
    + constructor; [|assumption].
      split; [reflexivity|]. cbn [emit phase].
      split; [destruct (Rlt_dec 0 rem'); discriminate | lra].
    + constructor; [assumption|]. constructor.
      unfold tickAdvance. split; [lra | left; lra].
Qed.

End ElapsedTime.

Lemma run_elapsed (params : Params) (fuel : nat) :
  0 < intervalOf params ->
  exists raw,
    Forall2 (stepAt (resolvedDuration params)) raw
      (steps (eleveldProtocol fuel params))
    /\ Sorted (tickAdvance (intervalOf params) (resolvedDuration params)) (0 :: raw).
Proof.
  intros Hi. rewrite steps_phases. unfold loadingPhase, mainPhase.
  destruct (loading_elapsed params (intervalOf params) (eleveldParameters params)
              (fst (resolvedBolus params)) (resolvedDuration params) Hi fuel
              (initialState params)) as (raw & Hall & Hsorted & Hexit).
  change (elapsed (initialState params)) with 0 in Hsorted, Hexit.
  destruct (snd (loadingLoop params (intervalOf params) (eleveldParameters params)
                   (fst (resolvedBolus params)) (resolvedDuration params) fuel
                   (initialState params))) as [st1|].
  - destruct (Hexit st1 eq_refl) as [Hfin Hge].
    destruct (main_elapsed params (intervalOf params) (eleveldParameters params)
                (pumpCeiling params) (resolvedDuration params) Hi fuel
                (maintenanceBudget params) st1 Hge) as (raw' & Hall' & Hsorted').
    exists (raw ++ raw'). split.
    + now apply Forall2_app_both.
    + eapply Sorted_app_final; eassumption.
  - exists raw. rewrite app_nil_r. split; assumption.
Qed.

(** C7, as the code has it.  For every valid input the steps carry the
    un-rounded elapsed times of their ticks, rounded to whole seconds: the
    un-rounded time starts from 0 and grows strictly from tick to tick, by
    the configured interval or by less on the tick that ends the loading
    phase; steps are tagged loading exactly up to the end of the loading
    phase.  Hence the [time] field never decreases, and when the interval is
    a whole number of seconds each increment of the [time] field equals the
    interval, except possibly at the loading step that lands on the phase
    boundary. *)
Theorem time_advances (params : Params) (fuel : nat) :
  valid_params params ->
  let l := steps (eleveldProtocol fuel params) in
  let interval := intervalOf params in
  let duration := resolvedDuration params in
  (exists raw,
      Forall2 (stepAt duration) raw l
      /\ Sorted (tickAdvance interval duration) (0 :: raw))
  /\ nondecreasing time l
  /\ (forall n : Z, interval = IZR n -> Sorted (timeAdvance interval duration) l).
Proof.
  intros V. cbv zeta.
  pose proof (valid_interval _ V) as Hi. fold (intervalOf params) in Hi.
  destruct (run_elapsed params fuel Hi) as (raw & Hall & Hsorted).
  split; [exists raw; split; assumption|].
  apply Sorted_inv in Hsorted as [Hsorted _].
  split.
  - eapply Sorted_Forall2; [|exact Hall|exact Hsorted].
    intros t t' s s' [Es _] [Es' _] [Hlt _]. rewrite Es, Es'.
    apply round_monotone. lra.
  - intros n En.
    eapply Sorted_Forall2; [|exact Hall|exact Hsorted].
    intros t t' s s' [Es _] [Es' Hph] [Hlt Hadv]. unfold timeAdvance.
    rewrite Es, Es'.
    destruct Hadv as [Hstep | [Hend Hshort]].
    + left. replace t' with (t + IZR n) by lra.
      rewrite round_plus_IZR. lra.
    + right. split; [apply Hph; lra|]. split; [now rewrite Hend|].
      assert (Hle : Math.round t' <= Math.round (t + IZR n))
        by (apply round_monotone; lra).
      rewrite round_plus_IZR in Hle. lra.
Qed.

Lemma time_advances_witness :
  valid_params referencePatient
  /\ (exists raw,
         Forall2 (stepAt (resolvedDuration referencePatient)) raw
           (steps (eleveldProtocol 40 referencePatient))
         /\ Sorted (tickAdvance (intervalOf referencePatient)
                      (resolvedDuration referencePatient)) (0 :: raw))
  /\ nondecreasing time (steps (eleveldProtocol 40 referencePatient))
  /\ (forall n : Z,
         intervalOf referencePatient = IZR n ->
         Sorted (timeAdvance (intervalOf referencePatient)
                   (resolvedDuration referencePatient))
           (steps (eleveldProtocol 40 referencePatient))).
Proof.
  split.
  - exact referencePatient_valid.
  - apply (time_advances referencePatient 40). exact referencePatient_valid.
Defined.

(** The first tick of the first loop, when the loop is entered. *)
Lemma loadingLoop_first (params : Params) (interval : R)
    (p : CompartmentalParameters) (bolus duration : R) (fuel : nat)
    (st : SimulationState) :
  elapsed st < duration ->
  let st' := integrate p bolus (Math.min interval (duration - elapsed st)) st in
  fst (loadingLoop params interval p bolus duration (S fuel) st)
  = emit params bolus st' loading
    :: fst (loadingLoop params interval p bolus duration fuel st').
Proof.
  intros Hlt. cbv zeta. cbn [loadingLoop]. rewrite Rlt_dec_true by assumption.
  now destruct (loadingLoop params interval p bolus duration fuel _).
Qed.

Lemma longLoadingPatient_resolved :
  resolvedBolus longLoadingPatient = (10 * (1000 / 3600), 10.1736).
Proof.
  unfold resolvedBolus, pumpCeiling, resolveLoading, calculateLoadingDose;
    cbn [longLoadingPatient loadingDoseMg loadingDurationSec ld_loadingDoseMg
         ld_durationSec orDefault currentCe targetCe concentrationMgPerMl fst snd].
  fold longLoadingPatient.
  rewrite longLoadingPatient_parameters, reference_vc.
  unfold Math.max. rewrite Rmax_left by lra.
  unfold resolveBolus.
  destruct (Req_dec_T _ 0) as [E|_]; [lra|].
  rewrite Rlt_dec_false by lra.
  f_equal; lra.
Qed.

(** The first two loading ticks of the long-loading run end at 10 s and at
    10.1736 s. *)
Lemma longLoadingPatient_loading :
  exists st1 st2 rest,
    fst (loadingPhase 40 longLoadingPatient)
    = emit longLoadingPatient (10 * (1000 / 3600)) st1 loading
      :: emit longLoadingPatient (10 * (1000 / 3600)) st2 loading :: rest
    /\ elapsed st1 = 10 /\ elapsed st2 = 10.1736.
Proof.
  unfold loadingPhase, resolvedDuration.
  rewrite longLoadingPatient_resolved; cbn [fst snd].
  change (intervalOf longLoadingPatient) with 10.
  rewrite loadingLoop_first
    by (unfold initialState; cbn [elapsed]; lra).
  rewrite loadingLoop_first
    by (unfold initialState, integrate, Math.min; cbn [elapsed];
        rewrite Rmin_left by lra; lra).
  do 3 eexists. split; [reflexivity|].
  unfold integrate, initialState, Math.min; cbn [elapsed].
  rewrite (Rmin_left 10 (10.1736 - 0)) by lra.
  rewrite Rmin_right by lra. split; lra.
Qed.

Lemma round_10 : Math.round 10 = 10 /\ Math.round 10.1736 = 10.
Proof.
  split.
  - apply (round_IZR 10).
  - unfold Math.round. apply (f_equal IZR (y := 10%Z)).
    apply Zfloor_eq. lra.
Qed.

(** The first two steps of the long-loading run both carry the time 10. *)
Lemma longLoadingPatient_steps :
  exists s1 s2 rest,
    steps (eleveldProtocol 40 longLoadingPatient) = s1 :: s2 :: rest
    /\ time s1 = 10 /\ time s2 = 10.
Proof.
  rewrite steps_phases.
  destruct longLoadingPatient_loading as (st1 & st2 & rest & -> & E1 & E2).
  destruct round_10 as [R1 R2].
  cbn [app]. do 3 eexists. split; [reflexivity|].
  cbn [emit time]. rewrite E1, E2. split; assumption.
Qed.

(** A loading tick of full length. *)
Lemma loadingLoop_full_tick (params : Params) (interval : R)
    (p : CompartmentalParameters) (bolus duration : R) (fuel : nat)
    (st : SimulationState) :
  0 < interval -> elapsed st + interval <= duration ->
  exists st',
    fst (loadingLoop params interval p bolus duration (S fuel) st)
    = emit params bolus st' loading
      :: fst (loadingLoop params interval p bolus duration fuel st')
    /\ elapsed st' = elapsed st + interval.
Proof.
  intros Hi Hle.
  exists (integrate p bolus (Math.min interval (duration - elapsed st)) st).
  split; [apply loadingLoop_first; lra|].
  cbn [integrate elapsed]. unfold Math.min. rewrite Rmin_left by lra. reflexivity.
Qed.

Lemma fineStepPatient_valid : valid_params fineStepPatient.
Proof. constructor; unfold valid_covariates; cbn; lra. Qed.

Lemma fineStepPatient_resolved :
  resolvedBolus fineStepPatient = (10 * (1000 / 3600), 6.7824).
Proof.
  unfold resolvedBolus, pumpCeiling.
  change (resolveLoading fineStepPatient) with (resolveLoading referencePatient).
  rewrite reference_resolveLoading. cbn [fst snd].
  change (concentrationMgPerMl fineStepPatient) with 10.
  apply reference_resolveBolus.
Qed.

Lemma round_08 : Math.round (0 + 0.4 + 0.4) = 1 /\ Math.round (0 + 0.4 + 0.4 + 0.4) = 1.
Proof.
  unfold Math.round.
  split; apply (f_equal IZR (y := 1%Z)); apply Zfloor_eq; lra.
Qed.

(** The first four loading ticks of the fine-step run end at 0.4 s, 0.8 s,
    1.2 s and 1.6 s. *)
Lemma fineStepPatient_loading :
  exists st1 st2 st3 st4 rest,
    fst (loadingPhase 40 fineStepPatient)
    = emit fineStepPatient (10 * (1000 / 3600)) st1 loading
      :: emit fineStepPatient (10 * (1000 / 3600)) st2 loading
      :: emit fineStepPatient (10 * (1000 / 3600)) st3 loading
      :: emit fineStepPatient (10 * (1000 / 3600)) st4 loading :: rest
    /\ elapsed st2 = 0 + 0.4 + 0.4 /\ elapsed st3 = 0 + 0.4 + 0.4 + 0.4.
Proof.
  unfold loadingPhase, resolvedDuration.
  rewrite fineStepPatient_resolved; cbn [fst snd].
  change (intervalOf fineStepPatient) with 0.4.
  assert (Hi : 0 < 0.4) by lra.
  assert (E0 : elapsed (initialState fineStepPatient) = 0) by reflexivity.
  destruct (loadingLoop_full_tick fineStepPatient 0.4
              (eleveldParameters fineStepPatient) (10 * (1000 / 3600)) 6.7824 39
              (initialState fineStepPatient) Hi ltac:(lra)) as (st1 & -> & E1).
  destruct (loadingLoop_full_tick fineStepPatient 0.4
              (eleveldParameters fineStepPatient) (10 * (1000 / 3600)) 6.7824 38
              st1 Hi ltac:(lra)) as (st2 & -> & E2).
  destruct (loadingLoop_full_tick fineStepPatient 0.4
              (eleveldParameters fineStepPatient) (10 * (1000 / 3600)) 6.7824 37
              st2 Hi ltac:(lra)) as (st3 & -> & E3).
  destruct (loadingLoop_full_tick fineStepPatient 0.4
              (eleveldParameters fineStepPatient) (10 * (1000 / 3600)) 6.7824 36
              st3 Hi ltac:(lra)) as (st4 & -> & E4).
  exists st1, st2, st3, st4. eexists. split; [reflexivity|].
  rewrite E3, E2, E1, E0. split; reflexivity.
Qed.

(** With a tick of 0.4 s the second and the third step both carry the time
    1, and a fourth loading step follows them. *)
Lemma fineStepPatient_steps :
  exists s1 s2 s3 s4 rest,
    steps (eleveldProtocol 40 fineStepPatient) = s1 :: s2 :: s3 :: s4 :: rest
    /\ time s2 = 1 /\ time s3 = 1 /\ phase s4 = loading.
Proof.
  rewrite steps_phases.
  destruct fineStepPatient_loading as (st1 & st2 & st3 & st4 & rest & -> & E2 & E3).
  destruct round_08 as [R2 R3].
  cbn [app]. do 5 eexists. split; [reflexivity|].
  cbn [emit time phase]. rewrite E2, E3.
  repeat split; assumption.
Qed.

(** C7 fails as stated: the [time] field does not increase strictly.  With
    target 4.5 the two loading steps carry the same time 10 (the second is
    the tick that ends the loading phase); with a tick of 0.4 s the second
    and third steps carry the same time 1 and are followed by another
    loading step. *)
Lemma times_not_strictly_increasing :
  (valid_params longLoadingPatient
   /\ ~ timesStrictlyIncreasing (steps (eleveldProtocol 40 longLoadingPatient)))
  /\ (valid_params fineStepPatient
      /\ ~ timesStrictlyIncreasing (steps (eleveldProtocol 40 fineStepPatient))
      /\ exists s1 s2 s3 s4 rest,
           steps (eleveldProtocol 40 fineStepPatient) = s1 :: s2 :: s3 :: s4 :: rest
           /\ time s2 = time s3 /\ phase s4 = loading).
Proof.
  split.
  - split; [exact longLoadingPatient_valid|].
    destruct longLoadingPatient_steps as (s1 & s2 & rest & -> & E1 & E2).
    intros H. apply Sorted_inv in H as [_ H]. apply HdRel_inv in H. lra.
  - split; [exact fineStepPatient_valid|].
    destruct fineStepPatient_steps as (s1 & s2 & s3 & s4 & rest & E & E2 & E3 & E4).
    split.
    + rewrite E. intros H.
      apply Sorted_inv in H as [H _]. apply Sorted_inv in H as [_ H].
      apply HdRel_inv in H. lra.
    + exists s1, s2, s3, s4, rest. repeat split; try assumption. lra.
Qed.

(** ** The first step *)


Lemma main_not_loading (params : Params) (interval : R) (p : CompartmentalParameters)
    (maxRate : R) (fuel : nat) (rem : R) (st : SimulationState) :
  Forall (fun s => phase s <> loading)
    (fst (mainLoop params interval p maxRate fuel rem st)).
Proof.
  revert fuel rem st.
  apply (mainLoop_ticks params interval p maxRate
           (fun _ _ l => Forall (fun s => phase s <> loading) l)).
  - constructor.
  - intros rem st l r rem' st' IH. constructor; [|assumption].
    cbn [emit phase]. destruct (Rlt_dec 0 rem'); discriminate.
Qed.

Section AtTarget.

Variable params : Params.
Hypothesis V : valid_params params.
Hypothesis Hat : currentCe params ?? 0 = targetCe params.
Hypothesis Hdose : loadingDoseMg params = None.
Hypothesis Hduration : loadingDurationSec params = None.

Lemma atTarget_calculated :
  ld_loadingDoseMg (calculateLoadingDose params) = 0
  /\ ld_durationSec (calculateLoadingDose params) = 0.
Proof.
  unfold calculateLoadingDose; cbn [ld_loadingDoseMg ld_durationSec].
  rewrite Hat. unfold Math.max.
  replace (targetCe params - targetCe params) with 0 by ring.
  rewrite Rmax_left by lra. split; unfold Rdiv; ring.
Qed.

Lemma atTarget_resolved : resolvedBolus params = (0, 0).
Proof.
  destruct atTarget_calculated as [Ed Et].
  unfold resolvedBolus, resolveLoading. rewrite Hdose, Hduration.
  cbn [orDefault fst snd]. rewrite Ed, Et.
  unfold resolveBolus.
  destruct (Req_dec_T 0 0) as [_|Hne]; [|contradiction].
  now rewrite Rlt_dec_false by lra.
Qed.





End AtTarget.

Lemma referencePatient_resolved :
  resolvedBolus referencePatient = (10 * (1000 / 3600), 6.7824).
Proof.
  unfold resolvedBolus, pumpCeiling.
  rewrite reference_resolveLoading. cbn [fst snd].
  change (concentrationMgPerMl referencePatient) with 10.
  apply reference_resolveBolus.
Qed.






(** ** Determinism *)





(** * Further properties of the code *)

(** ** The sigmoid and the curves built on it *)

(** X1. For positive arguments [fsigmoid x y z] is a fraction strictly between
    0 and 1; it is one half where [x] meets [y], and exchanging [x] and [y]
    gives the complement to 1. *)
Theorem fsigmoid_fraction (x y z : R) :
  0 < x -> 0 < y ->
  0 < fsigmoid x y z < 1
  /\ fsigmoid x y z + fsigmoid y x z = 1
  /\ fsigmoid x x z = 1 / 2.
Proof.
  intros _ _.
  pose proof (pow_pos x z) as Hx; pose proof (pow_pos y z) as Hy.
  split; [split; [apply fsigmoid_pos | apply fsigmoid_lt_1]|].
  unfold fsigmoid. split; field; lra.
Qed.

Lemma fsigmoid_fraction_witness :
  (0 < 70 /\ 0 < 33.6)
  /\ 0 < fsigmoid 70 33.6 1 < 1
  /\ fsigmoid 70 33.6 1 + fsigmoid 33.6 70 1 = 1
  /\ fsigmoid 70 70 1 = 1 / 2.
Proof.
  split; [lra|]. apply (fsigmoid_fraction 70 33.6 1); lra.
Defined.

Lemma fsigmoid_increasing (x x' y z : R) :
  0 < z -> 0 < x < x' -> fsigmoid x y z < fsigmoid x' y z.
Proof.
  intros Hz Hx. unfold fsigmoid.
  pose proof (Rlt_Rpower_l x x' z Hz Hx) as Hlt.
  fold (Math.pow x z) (Math.pow x' z) in Hlt.
  pose proof (pow_pos x z) as Ha; pose proof (pow_pos y z) as Hc.
  set (a := Math.pow x z) in *; set (b := Math.pow x' z) in *;
    set (c := Math.pow y z) in *.
  apply Rmult_lt_reg_r with ((a + c) * (b + c)); [nra|].
  replace (a / (a + c) * ((a + c) * (b + c))) with (a * (b + c)) by (field; lra).
  replace (b / (b + c) * ((a + c) * (b + c))) with (b * (a + c)) by (field; lra).
  nra.
Qed.

(** X2. The three curves of the parameter model grow with their argument: the
    central-volume curve with the weight, the clearance maturation with the
    post-menstrual age, and the Q3 maturation with the age in weeks. *)
Theorem maturation_increasing (w w' : R) :
  0 < w < w' ->
  fcentral w < fcentral w'
  /\ fclmaturation w < fclmaturation w'
  /\ fq3maturation w < fq3maturation w'.
Proof.
  intros Hw. unfold fcentral, fclmaturation, fq3maturation.
  repeat split; apply fsigmoid_increasing; lra.
Qed.

Lemma maturation_increasing_witness :
  0 < 50 < 70
  /\ fcentral 50 < fcentral 70
  /\ fclmaturation 50 < fclmaturation 70
  /\ fq3maturation 50 < fq3maturation 70.
Proof.
  split; [lra|]. apply (maturation_increasing 50 70); lra.
Defined.

(** X3. The ageing factor is 1 at 35 years, and with a negative coefficient
    (all coefficients of the source are negative) it falls with age: below 1
    past 35 years, above 1 before. *)
Theorem fageing_declines (age age' x : R) :
  x < 0 -> age < age' ->
  fageing 35 x = 1
  /\ fageing age' x < fageing age x
  /\ (35 < age' -> fageing age' x < 1)
  /\ (age < 35 -> 1 < fageing age x).
Proof.
  intros Hx Hage. unfold fageing, Math.exp.
  assert (E35 : Rtrigo_def.exp (x * (35 - 35)) = 1)
    by (replace (x * (35 - 35)) with 0 by ring; apply exp_0).
  split; [assumption|]. split; [apply exp_increasing; nra|].
  split; intros H; rewrite <- E35; apply exp_increasing; nra.
Qed.

Lemma fageing_declines_witness :
  (-0.0156 < 0 /\ 20 < 60)
  /\ fageing 35 (-0.0156) = 1
  /\ fageing 60 (-0.0156) < fageing 20 (-0.0156)
  /\ fageing 60 (-0.0156) < 1
  /\ 1 < fageing 20 (-0.0156).
Proof.
  assert (Hx : -0.0156 < 0) by lra.
  assert (Hage : 20 < 60) by lra.
  split; [split; [exact Hx | exact Hage]|].
  destruct (fageing_declines 20 60 (-0.0156) Hx Hage) as (E & Hlt & Hold & Hyoung).
  split; [exact E|]. split; [exact Hlt|].
  split; [apply Hold | apply Hyoung]; lra.
Defined.

(** ** Fat-free mass *)

Lemma logistic_mix_below (a q : R) :
  0 < q -> (a < 1 -> a + (1 - a) / (1 + q) < 1)
           /\ (1 < a -> 1 < a + (1 - a) / (1 + q) < a).
Proof.
  intros Hq.
  assert (Hinv : 0 < / (1 + q) < 1).
  { split; [apply Rinv_0_lt_compat; lra|].
    rewrite <- Rinv_1 at 2. apply Rinv_lt_contravar; lra. }
  unfold Rdiv. split; intros Ha; nra.
Qed.

(** X4. For a body-mass index of 12 or more the fat-free mass of [fffm] is
    positive and below the body weight, for either sex. *)
Theorem fffm_below_weight (weight height age : R) (s : Sex) :
  0 < weight -> 0 < height -> 0 < age ->
  12 <= bmi weight height ->
  0 < fffm weight height age s < weight.
Proof.
  intros Hw Hh Hage Hbmi.
  split; [now apply fffm_pos|].
  unfold fffm. fold (bmi weight height).
  set (b := bmi weight height) in *.
  destruct s.
  - pose proof (pow_pos (age / 13.4) (-12.7)) as Hq.
    set (q := Math.pow (age / 13.4) (-12.7)) in *.
    destruct (logistic_mix_below 0.88 q Hq) as [Hf _]. specialize (Hf ltac:(lra)).
    pose proof (logistic_mix_pos 0.88 q ltac:(lra) Hq) as Hf0.
    set (f := 0.88 + (1 - 0.88) / (1 + q)) in *.
    assert (Hg : 0 < 9270 * weight / (6680 + 216 * b) < weight).
    { split; [apply Rdiv_lt_0_compat; lra|].
      apply Rmult_lt_reg_r with (6680 + 216 * b); [lra|].
      unfold Rdiv. rewrite Rmult_assoc, Rinv_l by lra. nra. }
    nra.
  - pose proof (pow_pos (age / 7.1) (-1.1)) as Hq.
    set (q := Math.pow (age / 7.1) (-1.1)) in *.
    destruct (logistic_mix_below 1.11 q Hq) as [_ Hf]. specialize (Hf ltac:(lra)).
    set (f := 1.11 + (1 - 1.11) / (1 + q)) in *.
    assert (Hg : 0 < 9270 * weight / (8780 + 244 * b) /\
                 1.11 * (9270 * weight / (8780 + 244 * b)) < weight).
    { split; [apply Rdiv_lt_0_compat; lra|].
      apply Rmult_lt_reg_r with (8780 + 244 * b); [lra|].
      unfold Rdiv. rewrite !Rmult_assoc, Rinv_l by lra. nra. }
    nra.
Qed.

Lemma pow_2_reference : Math.pow (170 / 100) 2 = 2.89.
Proof. rewrite pow_2 by lra. lra. Qed.

Lemma fffm_below_weight_witness :
  (0 < 70 /\ 0 < 170 /\ 0 < 35 /\ 12 <= bmi 70 170)
  /\ 0 < fffm 70 170 35 Male < 70.
Proof.
  assert (Hb : 12 <= bmi 70 170)
    by (unfold bmi; rewrite pow_2_reference; lra).
  split; [repeat split; lra|].
  apply (fffm_below_weight 70 170 35 Male); lra.
Defined.

(** ** Rate constants and clearances *)

Lemma v2_positive (params : Params) :
  valid_covariates params -> 0 < v2 (eleveldParameters params).
Proof.
  intros (Hage & Hw & Hh). unfold eleveldParameters.
  destruct (drug params); cbn [v2]; destruct (sex params); positive.
Qed.

Lemma v3_positive (params : Params) :
  valid_covariates params -> 0 < v3 (eleveldParameters params).
Proof.
  intros (Hage & Hw & Hh). unfold eleveldParameters.
  destruct (drug params); cbn [v3]; positive.
Qed.

Lemma quotient_times (a b : R) : 0 < b -> a / b * b = a.
Proof. intros H. field. lra. Qed.

(** X5. The rate constants returned by [eleveldParameters] agree with the
    clearances they are quotients of: [k10 * Vc] is the elimination clearance,
    and the transfer between the central and a peripheral compartment is the
    same in both directions, [k12 * Vc = k21 * V2] and [k13 * Vc = k31 * V3]. *)
Theorem rate_constants_consistent (params : Params) :
  valid_covariates params ->
  let p := eleveldParameters params in
  k10 p * vc p = cl1 p
  /\ k12 p * vc p = k21 p * v2 p
  /\ k13 p * vc p = k31 p * v3 p.
Proof.
  intros Hcov. cbv zeta.
  pose proof (vc_positive params Hcov) as Hvc.
  pose proof (v2_positive params Hcov) as Hv2.
  pose proof (v3_positive params Hcov) as Hv3.
  revert Hvc Hv2 Hv3. unfold eleveldParameters.
  destruct (drug params); cbn [vc v2 v3 k10 k12 k13 k21 k31 cl1];
    intros Hvc Hv2 Hv3; repeat split;
    rewrite !quotient_times by assumption; reflexivity.
Qed.

Lemma rate_constants_consistent_witness :
  valid_covariates referencePatient
  /\ k10 (eleveldParameters referencePatient) * vc (eleveldParameters referencePatient)
     = cl1 (eleveldParameters referencePatient)
  /\ k12 (eleveldParameters referencePatient) * vc (eleveldParameters referencePatient)
     = k21 (eleveldParameters referencePatient) * v2 (eleveldParameters referencePatient)
  /\ k13 (eleveldParameters referencePatient) * vc (eleveldParameters referencePatient)
     = k31 (eleveldParameters referencePatient) * v3 (eleveldParameters referencePatient).
Proof.
  split; [exact referencePatient_covariates|].
  exact (rate_constants_consistent referencePatient referencePatient_covariates).
Defined.

(** ** The central volume of propofol *)

Lemma propofol_vc_formula (params : Params) :
  drug params = propofol -> 0 < weightKg params ->
  vc (eleveldParameters params)
  = 9.2944 * weightKg params / (weightKg params + 33.6).
Proof.
  intros Hd Hw. unfold eleveldParameters. rewrite Hd. cbn [vc].
  unfold fcentral. rewrite !fsigmoid_1 by lra.
  decimals. field. lra.
Qed.

Lemma saturation_increasing (c w w' : R) :
  0 < c -> 0 < w < w' -> w / (w + c) < w' / (w' + c).
Proof.
  intros Hc Hw.
  apply Rmult_lt_reg_r with ((w + c) * (w' + c)); [nra|].
  replace (w / (w + c) * ((w + c) * (w' + c))) with (w * (w' + c)) by (field; lra).
  replace (w' / (w' + c) * ((w + c) * (w' + c))) with (w' * (w + c)) by (field; lra).
  nra.
Qed.

(** X6. For propofol the central volume depends on the weight alone: it is
    [9.2944 * w / (w + 33.6)] litres, which is 6.28 at 70 kg, grows with the
    weight and stays below 9.2944 however heavy the patient. *)
Theorem propofol_central_volume (params : Params) :
  drug params = propofol -> 0 < weightKg params ->
  let w := weightKg params in
  let v := vc (eleveldParameters params) in
  v = 9.2944 * w / (w + 33.6)
  /\ 0 < v < 9.2944
  /\ (w = 70 -> v = 6.28)
  /\ forall heavier : Params,
       drug heavier = propofol -> w < weightKg heavier ->
       v < vc (eleveldParameters heavier).
Proof.
  intros Hd Hw. cbv zeta.
  rewrite (propofol_vc_formula params Hd Hw).
  set (w := weightKg params) in *.
  assert (Hfrac : 0 < w / (w + 33.6) < 1).
  { split; [apply Rdiv_lt_0_compat; lra|].
    apply Rmult_lt_reg_r with (w + 33.6); [lra|].
    rewrite quotient_times by lra. lra. }
  assert (E : 9.2944 * w / (w + 33.6) = 9.2944 * (w / (w + 33.6)))
    by (unfold Rdiv; ring).
  split; [reflexivity|]. split; [rewrite E; lra|]. split.
  - intros ->. lra.
  - intros heavier Hd' Hw'.
    rewrite (propofol_vc_formula heavier Hd') by lra.
    pose proof (saturation_increasing 33.6 w (weightKg heavier) ltac:(lra) ltac:(lra)).
    unfold Rdiv in *. lra.
Qed.

Lemma propofol_central_volume_witness :
  (drug referencePatient = propofol /\ 0 < weightKg referencePatient)
  /\ vc (eleveldParameters referencePatient) = 9.2944 * 70 / (70 + 33.6)
  /\ 0 < vc (eleveldParameters referencePatient) < 9.2944
  /\ vc (eleveldParameters referencePatient) = 6.28
  /\ forall heavier : Params,
       drug heavier = propofol -> 70 < weightKg heavier ->
       vc (eleveldParameters referencePatient) < vc (eleveldParameters heavier).
Proof.
  assert (Hw : 0 < weightKg referencePatient) by (cbn; lra).
  split; [split; [reflexivity | exact Hw]|].
  destruct (propofol_central_volume referencePatient eq_refl Hw)
    as (E & Hv & H70 & Hup).
  split; [exact E|]. split; [exact Hv|]. split; [exact (H70 eq_refl) | exact Hup].
Defined.

(** ** The effect-site rate constant of remifentanil *)

(** X7. For remifentanil [ke0] is 0.71 up to and including 16 years; past 16
    it follows the ageing curve, which is 1.09 at 35 years: at least 1.09 up
    to 35 years and at most 1.09 from then on. The value jumps at 16 years. *)
Theorem remifentanil_ke0_by_age (params : Params) :
  drug params = remifentanil ->
  let k := ke0 (eleveldParameters params) in
  (ageYears params <= 16 -> k = 0.71)
  /\ (16 < ageYears params <= 35 -> 1.09 <= k)
  /\ (35 <= ageYears params -> k <= 1.09).
Proof.
  intros Hd. cbv zeta. unfold eleveldParameters. rewrite Hd. cbn [ke0].
  assert (Hcurve : forall age,
             (age <= 35 -> 1 <= fageing age (-0.0289))
             /\ (35 <= age -> fageing age (-0.0289) <= 1)).
  { intros age. unfold fageing, Math.exp. rewrite <- exp_0.
    split; intros H;
      (destruct (Req_dec_T age 35) as [->|Hne];
       [right; f_equal; ring | left; apply exp_increasing; nra]). }
  destruct (Hcurve (ageYears params)) as [Hyoung Hold].
  destruct (Rle_dec (ageYears params) 16) as [Hle|Hgt].
  - repeat split; intros; lra.
  - split; [lra|]. split; intros H.
    + specialize (Hyoung ltac:(lra)). lra.
    + specialize (Hold H). lra.
Qed.

Lemma remifentanil_ke0_by_age_witness :
  ke0 (eleveldParameters (remifentanilPatient 16)) = 0.71
  /\ 1.09 <= ke0 (eleveldParameters (remifentanilPatient 30))
  /\ ke0 (eleveldParameters (remifentanilPatient 40)) <= 1.09.
Proof.
  split; [|split].
  - apply (remifentanil_ke0_by_age (remifentanilPatient 16) eq_refl). cbn. lra.
  - apply (remifentanil_ke0_by_age (remifentanilPatient 30) eq_refl). cbn. lra.
  - apply (remifentanil_ke0_by_age (remifentanilPatient 40) eq_refl). cbn. lra.
Defined.

(** ** The loading duration *)

(** X8. The duration returned by [calculateLoadingDose] is the time the pump
    needs at its ceiling of 1000 mL/h to deliver the dose: duration times
    ceiling is the dose. It is never negative, and it is 0 exactly when the
    target does not exceed the current concentration. *)
Theorem calculateLoadingDose_duration (params : Params) :
  valid_covariates params ->
  0 < concentrationMgPerMl params ->
  let calc := calculateLoadingDose params in
  ld_durationSec calc * pumpCeiling params = ld_loadingDoseMg calc
  /\ 0 <= ld_durationSec calc
  /\ (ld_durationSec calc = 0 <-> targetCe params <= currentCe params ?? 0).
Proof.
  intros Hcov Hc. cbv zeta.
  pose proof (vc_positive params Hcov) as Hvc.
  unfold calculateLoadingDose, pumpCeiling; cbn [ld_loadingDoseMg ld_durationSec].
  set (m := concentrationMgPerMl params * (1000 / 3600)).
  assert (Hm : 0 < m) by (subst m; lra).
  set (v := vc (eleveldParameters params)) in *.
  set (delta := Math.max (targetCe params - currentCe params ?? 0) 0).
  assert (Hdelta : 0 <= delta
                   /\ (delta = 0 <-> targetCe params <= currentCe params ?? 0)).
  { subst delta. unfold Math.max, Rmax.
    destruct (Rle_dec (targetCe params - currentCe params ?? 0) 0);
      split; try lra; split; lra. }
  destruct Hdelta as [Hd0 Hd].
  pose proof (quotient_times (delta * v) m Hm) as Hq.
  assert (Hinv : 0 < / m) by now apply Rinv_0_lt_compat.
  split; [assumption|]. split.
  - unfold Rdiv. apply Rmult_le_pos; [apply Rmult_le_pos|]; lra.
  - split; intros H.
    + apply Hd. rewrite H in Hq. nra.
    + apply Hd in H. rewrite H. unfold Rdiv. ring.
Qed.

Lemma calculateLoadingDose_duration_witness :
  (valid_covariates referencePatient /\ 0 < concentrationMgPerMl referencePatient)
  /\ ld_durationSec (calculateLoadingDose referencePatient) * pumpCeiling referencePatient
     = ld_loadingDoseMg (calculateLoadingDose referencePatient)
  /\ 0 <= ld_durationSec (calculateLoadingDose referencePatient)
  /\ (ld_durationSec (calculateLoadingDose referencePatient) = 0
      <-> targetCe referencePatient <= currentCe referencePatient ?? 0).
Proof.
  assert (Hc : 0 < concentrationMgPerMl referencePatient) by (cbn; lra).
  split; [split; [exact referencePatient_covariates | exact Hc]|].
  exact (calculateLoadingDose_duration referencePatient referencePatient_covariates Hc).
Defined.

(** ** The clamp of the bolus rate *)

Lemma resolveBolus_exact (maxRate dose duration : R) :
  0 < maxRate -> 0 <= dose -> 0 <= duration ->
  let bolus := fst (resolveBolus maxRate dose duration) in
  let duration' := snd (resolveBolus maxRate dose duration) in
  0 <= bolus <= maxRate
  /\ duration <= duration'
  /\ bolus * duration' = dose
  /\ (duration' = duration \/ bolus = maxRate).
Proof.
  intros Hm Hd Ht. cbv zeta. unfold resolveBolus.
  assert (Hq : 0 <= dose / maxRate)
    by (apply Rmult_le_pos; [lra | apply Rlt_le, Rinv_0_lt_compat; lra]).
  assert (Hmul : maxRate * (dose / maxRate) = dose) by (field; lra).
  destruct (Req_dec_T duration 0) as [E0|Hne].
  - destruct (Rlt_dec 0 dose); cbn [fst snd]; repeat split; lra.
  - assert (Hb : 0 <= dose / duration)
      by (apply Rmult_le_pos; [lra | apply Rlt_le, Rinv_0_lt_compat; lra]).
    assert (Hmul' : dose / duration * duration = dose) by (field; lra).
    destruct (Rlt_dec maxRate (dose / duration)) as [Hclamp|Hfit]; cbn [fst snd].
    + assert (Hlonger : duration <= dose / maxRate).
      { apply Rmult_le_reg_l with maxRate; [lra|]. rewrite Hmul. nra. }
      repeat split; lra.
    + repeat split; lra.
Qed.

(** X9. The clamp of the bolus rate to the pump ceiling changes the duration,
    never the dose: for a valid input the bolus rate lies between 0 and the
    ceiling, the duration is not shortened, rate times duration is the
    resolved loading dose, and the duration is changed only when the bolus
    runs at the ceiling. *)
Theorem clamp_keeps_dose (params : Params) :
  valid_params params ->
  let bolus := fst (resolvedBolus params) in
  0 <= bolus <= pumpCeiling params
  /\ snd (resolveLoading params) <= resolvedDuration params
  /\ bolus * resolvedDuration params = resolvedDose params
  /\ (resolvedDuration params = snd (resolveLoading params)
      \/ bolus = pumpCeiling params).
Proof.
  intros V. cbv zeta.
  pose proof (valid_concentration _ V) as Hc.
  pose proof (resolveLoading_nonneg params V) as [Hd Ht].
  assert (Hm : 0 < pumpCeiling params) by (unfold pumpCeiling; lra).
  unfold resolvedDuration, resolvedDose, resolvedBolus.
  exact (resolveBolus_exact _ _ _ Hm Hd Ht).
Qed.

Lemma clamp_keeps_dose_witness :
  valid_params referencePatient
  /\ 0 <= fst (resolvedBolus referencePatient) <= pumpCeiling referencePatient
  /\ snd (resolveLoading referencePatient) <= resolvedDuration referencePatient
  /\ fst (resolvedBolus referencePatient) * resolvedDuration referencePatient
     = resolvedDose referencePatient
  /\ (resolvedDuration referencePatient = snd (resolveLoading referencePatient)
      \/ fst (resolvedBolus referencePatient) = pumpCeiling referencePatient).
Proof.
  split; [exact referencePatient_valid|].
  exact (clamp_keeps_dose referencePatient referencePatient_valid).
Defined.

(** ** A loading phase without override *)

Lemma calculated_resolvedBolus (params : Params) :
  0 < concentrationMgPerMl params ->
  loadingDoseMg params = None ->
  loadingDurationSec params = None ->
  resolvedDuration params = ld_durationSec (calculateLoadingDose params)
  /\ (0 < resolvedDuration params ->
      fst (resolvedBolus params) = pumpCeiling params).
Proof.
  intros Hc Hdose Hduration.
  assert (Hm : 0 < pumpCeiling params) by (unfold pumpCeiling; lra).
  pose proof (quotient_times (ld_loadingDoseMg (calculateLoadingDose params))
                (pumpCeiling params) Hm) as Hq.
  unfold resolvedDuration, resolvedBolus, resolveLoading.
  rewrite Hdose, Hduration; cbn [orDefault fst snd].
  change (ld_durationSec (calculateLoadingDose params))
    with (ld_loadingDoseMg (calculateLoadingDose params) / pumpCeiling params) in *.
  set (dose := ld_loadingDoseMg (calculateLoadingDose params)) in *.
  set (m := pumpCeiling params) in *.
  unfold resolveBolus.
  destruct (Req_dec_T (dose / m) 0) as [E0|Hne].
  - assert (E : dose = 0) by (rewrite E0 in Hq; lra).
    rewrite Rlt_dec_false by lra. cbn [fst snd]. split; [reflexivity | lra].
  - assert (Hdne : dose <> 0)
      by (intros E; apply Hne; rewrite E; unfold Rdiv; ring).
    assert (E : dose / (dose / m) = m) by (field; split; lra).
    rewrite E, Rlt_dec_false by lra. cbn [fst snd]. split; reflexivity.
Qed.

Lemma loading_rates (params : Params) (interval : R) (p : CompartmentalParameters)
    (bolus duration : R) (fuel : nat) (st : SimulationState) :
  Forall (fun s => rate s = ratePerKg params bolus)
    (fst (loadingLoop params interval p bolus duration fuel st)).
Proof.
  revert fuel st.
  apply (loadingLoop_ticks params interval p bolus duration
           (fun _ l _ => Forall (fun s => rate s = ratePerKg params bolus) l)).
  - constructor.
  - constructor.
  - intros st l out _ st' IH. constructor; [reflexivity | assumption].
Qed.

Lemma loadingLoop_skipped (params : Params) (interval : R)
    (p : CompartmentalParameters) (bolus duration : R) (fuel : nat)
    (st : SimulationState) :
  duration <= elapsed st ->
  fst (loadingLoop params interval p bolus duration fuel st) = [].
Proof.
  intros H. destruct fuel as [|fuel]; cbn [loadingLoop]; [reflexivity|].
  now rewrite Rlt_dec_false by lra.
Qed.

(** X10. Without a loading override the bolus needs no clamp: the loading
    phase lasts the calculated duration, and every loading step runs at the
    pump ceiling. *)
Theorem calculated_loading_at_ceiling (params : Params) (fuel : nat) :
  0 < concentrationMgPerMl params ->
  loadingDoseMg params = None ->
  loadingDurationSec params = None ->
  resolvedDuration params = ld_durationSec (calculateLoadingDose params)
  /\ Forall (fun s => phase s = loading -> rate s = ceilingRate params)
       (steps (eleveldProtocol fuel params)).
Proof.
  intros Hc Hdose Hduration.
  destruct (calculated_resolvedBolus params Hc Hdose Hduration) as [Ed Hb].
  split; [assumption|].
  rewrite steps_phases. apply Forall_app. split.
  - unfold loadingPhase.
    destruct (Rlt_dec 0 (resolvedDuration params)) as [Hpos|Hzero].
    + rewrite (Hb Hpos).
      eapply Forall_impl; [|apply loading_rates]. cbn beta.
      intros s Hs _. exact Hs.
    + rewrite loadingLoop_skipped; [constructor|].
      unfold initialState; cbn [elapsed]. lra.
  - destruct (snd (loadingPhase fuel params)) as [st|]; [|constructor].
    eapply Forall_impl; [|apply main_not_loading]. cbn beta.
    intros s Hs E. contradiction.
Qed.

Lemma calculated_loading_at_ceiling_witness :
  (0 < concentrationMgPerMl referencePatient
   /\ loadingDoseMg referencePatient = None
   /\ loadingDurationSec referencePatient = None)
  /\ resolvedDuration referencePatient
     = ld_durationSec (calculateLoadingDose referencePatient)
  /\ Forall (fun s => phase s = loading -> rate s = ceilingRate referencePatient)
       (steps (eleveldProtocol 40 referencePatient)).
Proof.
  assert (Hc : 0 < concentrationMgPerMl referencePatient) by (cbn; lra).
  split; [split; [exact Hc | split; reflexivity]|].
  exact (calculated_loading_at_ceiling referencePatient 40 Hc eq_refl eq_refl).
Defined.

(** ** The end of the loading phase *)

Lemma finalStep_nonempty (A : Type) (l : list A) (a : A) :
  exists b, finalStep (a :: l) = Some b.
Proof.
  revert a. induction l as [|c l IH]; intros a.
  - now exists a.
  - destruct (IH c) as (b & E). exists b. exact E.
Qed.

Lemma finalStep_cons (A : Type) (a : A) (l : list A) :
  finalStep (a :: l) = match finalStep l with Some b => Some b | None => Some a end.
Proof.
  destruct l as [|c l]; [reflexivity|].
  destruct (finalStep_nonempty A l c) as (b & E).
  change (finalStep (a :: c :: l)) with (finalStep (c :: l)). now rewrite E.
Qed.

Lemma finalStep_None (A : Type) (l : list A) : finalStep l = None <-> l = [].
Proof.
  split; [|now intros ->].
  destruct l as [|a l]; [reflexivity|].
  destruct (finalStep_nonempty A l a) as (b & E). rewrite E. discriminate.
Qed.

(** The last step of the first loop shows the state the loop is left in. *)
Lemma loading_last_step (params : Params) (interval : R)
    (p : CompartmentalParameters) (bolus duration : R) (fuel : nat)
    (st : SimulationState) :
  forall st1,
    snd (loadingLoop params interval p bolus duration fuel st) = Some st1 ->
    match finalStep (fst (loadingLoop params interval p bolus duration fuel st)) with
    | Some s =>
        ce s = Ce st1
        /\ cumulativeDoseMg s = cumulative st1
        /\ time s = Math.round (elapsed st1)
        /\ phase s = loading
    | None => st1 = st
    end.
Proof.
  revert fuel st.
  apply (loadingLoop_ticks params interval p bolus duration
           (fun st l out =>
              forall st1, out = Some st1 ->
                match finalStep l with
                | Some s =>
                    ce s = Ce st1
                    /\ cumulativeDoseMg s = cumulative st1
                    /\ time s = Math.round (elapsed st1)
                    /\ phase s = loading
                | None => st1 = st
                end)).
  - discriminate.
  - intros st _ st1 [= <-]. reflexivity.
  - intros st l out _ st' IH st1 Hout. specialize (IH st1 Hout).
    rewrite finalStep_cons.
    destruct (finalStep l) as [s|]; [assumption|].
    subst st1. repeat split.
Qed.

Section LoadingTicks.

Variable params : Params.
Variable interval : R.
Variable p : CompartmentalParameters.
Variable bolus : R.
Variable duration : R.

(** The first loop ends exactly on the loading duration, with the bolus
    rate delivered over what was left of it, after as many ticks as cover
    what was left. *)
Lemma loading_exit (fuel : nat) :
  forall st : SimulationState,
    elapsed st <= duration ->
    forall st1,
      snd (loadingLoop params interval p bolus duration fuel st) = Some st1 ->
      elapsed st1 = duration
      /\ cumulative st1 = cumulative st + bolus * (duration - elapsed st)
      /\ (elapsed st < duration ->
          ticksCover interval (duration - elapsed st)
            (length (fst (loadingLoop params interval p bolus duration fuel st)))).
Proof.
  induction fuel as [|fuel IH]; intros st Hle st1; cbn [loadingLoop].
  - discriminate.
  - destruct (Rlt_dec (elapsed st) duration) as [Hlt|Hge].
    + set (st' := integrate p bolus (Math.min interval (duration - elapsed st)) st).
      assert (Et : elapsed st'
                   = elapsed st + Math.min interval (duration - elapsed st))
        by reflexivity.
      assert (Ec : cumulative st'
                   = cumulative st
                     + bolus * Math.min interval (duration - elapsed st))
        by reflexivity.
      specialize (IH st').
      pose proof (loadingLoop_skipped params interval p bolus duration fuel st')
        as Hskip.
      destruct (loadingLoop params interval p bolus duration fuel st')
        as [rest out]; cbn [fst snd] in *.
      intros Hout. unfold ticksCover in *.
      unfold Math.min, Rmin in Et, Ec.
      destruct (Rle_dec interval (duration - elapsed st)) as [Hfull|Hshort].
      * destruct (IH ltac:(lra) st1 Hout) as (E1 & E2 & Hk).
        split; [assumption|]. split; [rewrite E2, Ec, Et; ring|].
        intros _. cbn [length]. rewrite S_INR.
        destruct (Req_dec_T (elapsed st') duration) as [Eend|Hne].
        -- rewrite Hskip by lra. cbn [length INR]. lra.
        -- specialize (Hk ltac:(lra)). rewrite Et in Hk. lra.
      * destruct (IH ltac:(lra) st1 Hout) as (E1 & E2 & _).
        split; [assumption|]. split; [rewrite E2, Ec, Et; ring|].
        intros _. rewrite Hskip by lra. cbn [length INR]. lra.
    + cbn [fst snd]. intros [= <-]. repeat split; try lra.
      replace (duration - elapsed st) with 0 by lra. ring.
Qed.

(** The first loop is left within the ticks that cover what is left of the
    loading duration, and one more test. *)
Lemma loading_terminates (n : nat) :
  forall st : SimulationState,
    duration - elapsed st <= INR n * interval ->
    snd (loadingLoop params interval p bolus duration (S n) st) <> None.
Proof.
  induction n as [|n IH]; intros st Hn.
  - cbn [loadingLoop]. cbn [INR] in Hn.
    rewrite Rlt_dec_false by lra. discriminate.
  - rewrite S_INR in Hn. pose proof (pos_INR n) as H0.
    remember (S n) as m eqn:Em. cbn [loadingLoop].
    destruct (Rlt_dec (elapsed st) duration) as [Hlt|Hge]; [|discriminate].
    set (st' := integrate p bolus (Math.min interval (duration - elapsed st)) st).
    assert (Hn' : duration - elapsed st' <= INR n * interval).
    { subst st'; cbn [integrate elapsed]. unfold Math.min, Rmin.
      destruct (Rle_dec interval (duration - elapsed st)); nra. }
    subst m. specialize (IH st' Hn').
    destruct (loadingLoop params interval p bolus duration (S n) st')
      as [rest out]; cbn [snd] in *. assumption.
Qed.

End LoadingTicks.

Lemma isLoading_true (s : DosingStep) : isLoading s = true <-> phase s = loading.
Proof. unfold isLoading. destruct (phase s); split; congruence. Qed.

Lemma filter_all (A : Type) (f : A -> bool) (l : list A) :
  Forall (fun a => f a = true) l -> filter f l = l.
Proof.
  induction 1 as [|a l Ha Hall IH]; [reflexivity|].
  cbn [filter]. now rewrite Ha, IH.
Qed.

Lemma filter_none (A : Type) (f : A -> bool) (l : list A) :
  Forall (fun a => f a = false) l -> filter f l = [].
Proof.
  induction 1 as [|a l Ha Hall IH]; [reflexivity|].
  cbn [filter]. now rewrite Ha, IH.
Qed.

(** The loading steps of a run are the steps of its first loop. *)
Lemma loadingSteps_run (fuel : nat) (params : Params) :
  loadingSteps (steps (eleveldProtocol fuel params)) = fst (loadingPhase fuel params).
Proof.
  rewrite steps_phases. unfold loadingSteps. rewrite filter_app.
  rewrite filter_all, filter_none.
  - apply app_nil_r.
  - destruct (snd (loadingPhase fuel params)) as [st|]; [|constructor].
    eapply Forall_impl; [|apply main_not_loading]. cbn beta.
    intros s Hs. unfold isLoading. destruct (phase s); congruence.
  - eapply Forall_impl; [|apply loading_phases]. cbn beta.
    intros s Hs. now apply isLoading_true.
Qed.

(** X11. For a valid input the loading phase comes to its end: followed for as
    many ticks as cover the resolved loading duration, the run has no loading
    step when that duration is 0, and otherwise its loading steps are as many
    as the ticks that cover the duration, and the last of them lands on the
    end of the loading phase with the whole resolved loading dose delivered. *)
Theorem loading_phase_complete (params : Params) (n : nat) :
  valid_params params ->
  resolvedDuration params <= INR n * intervalOf params ->
  let ls := loadingSteps (steps (eleveldProtocol (S n) params)) in
  (resolvedDuration params = 0 -> ls = [])
  /\ (0 < resolvedDuration params ->
      ticksCover (intervalOf params) (resolvedDuration params) (length ls)
      /\ exists s,
           finalStep ls = Some s
           /\ cumulativeDoseMg s = resolvedDose params
           /\ time s = Math.round (resolvedDuration params)).
Proof.
  intros V Hn. cbv zeta. rewrite loadingSteps_run.
  pose proof (valid_interval _ V) as Hi. fold (intervalOf params) in Hi.
  pose proof (valid_concentration _ V) as Hc.
  pose proof (resolveLoading_nonneg params V) as [Hd Ht].
  assert (Hm : 0 < pumpCeiling params) by (unfold pumpCeiling; lra).
  destruct (resolveBolus_exact _ _ _ Hm Hd Ht) as (_ & _ & Hdose & _).
  fold (resolvedBolus params) (resolvedDuration params) (resolvedDose params) in Hdose.
  unfold loadingPhase. split.
  - intros E0. apply loadingLoop_skipped. unfold initialState; cbn [elapsed]. lra.
  - intros Hpos.
    pose proof (loading_terminates params (intervalOf params) (eleveldParameters params)
                  (fst (resolvedBolus params)) (resolvedDuration params) n
                  (initialState params)) as Hterm.
    pose proof (loading_exit params (intervalOf params) (eleveldParameters params)
                  (fst (resolvedBolus params)) (resolvedDuration params) (S n)
                  (initialState params)) as Hexit.
    pose proof (loading_last_step params (intervalOf params) (eleveldParameters params)
                  (fst (resolvedBolus params)) (resolvedDuration params) (S n)
                  (initialState params)) as Hlast.
    change (elapsed (initialState params)) with 0 in Hterm, Hexit.
    change (cumulative (initialState params)) with 0 in Hexit.
    rewrite Rminus_0_r in Hterm, Hexit. specialize (Hterm Hn).
    destruct (snd (loadingLoop params (intervalOf params) (eleveldParameters params)
                     (fst (resolvedBolus params)) (resolvedDuration params) (S n)
                     (initialState params))) as [st1|]; [|contradiction].
    destruct (Hexit ltac:(lra) st1 eq_refl) as (E1 & E2 & Hk).
    specialize (Hk Hpos). specialize (Hlast st1 eq_refl).
    split; [assumption|].
    destruct (finalStep _) as [s|] eqn:Efin.
    + exists s. destruct Hlast as (_ & Hcum & Htime & _).
      split; [reflexivity|]. split; [rewrite Hcum, E2; lra | now rewrite Htime, E1].
    + exfalso. apply finalStep_None in Efin. rewrite Efin in Hk.
      unfold ticksCover in Hk. cbn [length INR] in Hk. lra.
Qed.

Lemma loading_phase_complete_witness :
  (valid_params referencePatient
   /\ resolvedDuration referencePatient <= INR 1 * intervalOf referencePatient
   /\ 0 < resolvedDuration referencePatient)
  /\ ticksCover (intervalOf referencePatient) (resolvedDuration referencePatient)
       (length (loadingSteps (steps (eleveldProtocol 2 referencePatient))))
  /\ exists s,
       finalStep (loadingSteps (steps (eleveldProtocol 2 referencePatient))) = Some s
       /\ cumulativeDoseMg s = resolvedDose referencePatient
       /\ time s = Math.round (resolvedDuration referencePatient).
Proof.
  assert (Ed : resolvedDuration referencePatient = 6.7824)
    by (unfold resolvedDuration; now rewrite referencePatient_resolved).
  assert (Hn : resolvedDuration referencePatient <= INR 1 * intervalOf referencePatient).
  { rewrite Ed. cbn [INR intervalOf intervalSec referencePatient orDefault]. lra. }
  assert (Hd : 0 < resolvedDuration referencePatient) by (rewrite Ed; lra).
  split; [split; [exact referencePatient_valid | split; [exact Hn | exact Hd]]|].
  exact (proj2 (loading_phase_complete referencePatient 1 referencePatient_valid Hn)
           Hd).
Defined.

(** ** Rates and the pump ceiling *)

Lemma infusionRate_le_ceiling (params : Params) (interval : R)
    (p : CompartmentalParameters) (maxRate rem : R) (st : SimulationState) :
  0 <= maxRate ->
  infusionRate params interval p maxRate rem st <= maxRate.
Proof.
  intros Hm. unfold infusionRate.
  destruct (Rlt_dec 0 rem); [|assumption].
  set (d := if Rlt_dec _ 0 then 0 else _).
  pose proof (Rmin_l maxRate d) as Hmin. fold (Math.min maxRate d) in Hmin.
  destruct (Rlt_dec (rem / interval) (Math.min maxRate d)); lra.
Qed.

Lemma ratePerKg_monotone (params : Params) (r r' : R) :
  0 < weightKg params -> r <= r' -> ratePerKg params r <= ratePerKg params r'.
Proof.
  intros Hw Hr. unfold ratePerKg, Rdiv.
  pose proof (Rinv_0_lt_compat _ Hw) as Hinv.
  apply Rmult_le_compat_r; [lra|]. apply Rmult_le_compat_r; lra.
Qed.

Lemma main_rates (params : Params) (interval : R) (p : CompartmentalParameters)
    (maxRate : R) (fuel : nat) (rem : R) (st : SimulationState) :
  0 < interval -> 0 <= maxRate -> 0 < weightKg params ->
  Forall (fun s => 0 <= rate s <= ratePerKg params maxRate)
    (fst (mainLoop params interval p maxRate fuel rem st)).
Proof.
  intros Hi Hm Hw. revert fuel rem st.
  apply (mainLoop_ticks params interval p maxRate
           (fun _ _ l => Forall (fun s => 0 <= rate s <= ratePerKg params maxRate) l)).
  - constructor.
  - intros rem st l r rem' st' IH. constructor; [|assumption].
    cbn [emit rate].
    destruct (infusionRate_bounds params interval p maxRate rem st Hi Hm)
      as (Hr0 & _).
    pose proof (infusionRate_le_ceiling params interval p maxRate rem st Hm) as Hr1.
    fold r in Hr0, Hr1. rewrite <- (ratePerKg_0 params).
    split; apply ratePerKg_monotone; assumption.
Qed.

(** X12. For a valid input no step asks more of the pump than it can give: the
    rate of every step, loading, maintenance or decay, lies between 0 and the
    rate of the pump ceiling (1000 mL/h of the reservoir, per kilogram and
    minute). *)
Theorem rates_within_pump (params : Params) (fuel : nat) :
  valid_params params ->
  Forall (fun s => 0 <= rate s <= ceilingRate params)
    (steps (eleveldProtocol fuel params)).
Proof.
  intros V.
  destruct (resolved_facts params V) as (Hi & Hm & _).
  destruct (valid_cov _ V) as (_ & Hw & _).
  pose proof (valid_concentration _ V) as Hc.
  pose proof (resolveLoading_nonneg params V) as [Hd Ht].
  destruct (resolveBolus_exact _ _ _ Hm Hd Ht) as (Hb & _).
  fold (resolvedBolus params) in Hb.
  rewrite steps_phases. apply Forall_app. split.
  - unfold loadingPhase.
    eapply Forall_impl; [|apply loading_rates]. cbn beta.
    intros s ->. unfold ceilingRate. rewrite <- (ratePerKg_0 params) at 1.
    split; apply ratePerKg_monotone; lra.
  - destruct (snd (loadingPhase fuel params)) as [st|]; [|constructor].
    unfold mainPhase, ceilingRate. apply main_rates; lra.
Qed.

Lemma rates_within_pump_witness :
  valid_params referencePatient
  /\ Forall (fun s => 0 <= rate s <= ceilingRate referencePatient)
       (steps (eleveldProtocol 40 referencePatient)).
Proof.
  split; [exact referencePatient_valid|].
  exact (rates_within_pump referencePatient 40 referencePatient_valid).
Defined.

(** ** The supply and the phase tags *)

Lemma main_supply (params : Params) (interval : R) (p : CompartmentalParameters)
    (maxRate total : R) (fuel : nat) (rem : R) (st : SimulationState) :
  0 < interval -> 0 <= maxRate ->
  0 <= rem -> cumulative st + rem = total ->
  Forall (fun s =>
            (phase s = maintenance -> cumulativeDoseMg s < total)
            /\ (phase s = decay -> cumulativeDoseMg s = total))
    (fst (mainLoop params interval p maxRate fuel rem st)).
Proof.
  intros Hi Hm. revert fuel rem st.
  apply (mainLoop_ticks params interval p maxRate
           (fun rem st l =>
              0 <= rem -> cumulative st + rem = total ->
              Forall (fun s =>
                        (phase s = maintenance -> cumulativeDoseMg s < total)
                        /\ (phase s = decay -> cumulativeDoseMg s = total)) l)).
  - constructor.
  - intros rem st l r rem' st' IH Hrem Hsum.
    destruct (infusionRate_bounds params interval p maxRate rem st Hi Hm)
      as (Hr0 & Hr1 & Hr2).
    fold r in Hr0, Hr1, Hr2.
    assert (Hrem' : 0 <= rem' /\ rem' = rem - r * interval).
    { subst rem'; unfold remainingAfter.
      destruct (Rlt_dec 0 rem) as [Hpos|Hneg].
      - specialize (Hr1 Hpos). lra.
      - assert (E : r = 0) by (apply Hr2; lra). rewrite E. lra. }
    assert (Hcum' : cumulative st' = cumulative st + r * interval)
      by (subst st'; reflexivity).
    constructor; [|apply IH; lra].
    cbn [emit phase cumulativeDoseMg].
    destruct (Rlt_dec 0 rem'); split; intros Htag; try discriminate; lra.
Qed.

(** X13. For a valid input the tag of a step tells whether drug is left: a
    maintenance step has delivered less than the resolved loading dose plus
    the maintenance budget, and every decay step has delivered exactly that
    much, the whole loading dose and the whole budget. *)
Theorem supply_tagged (params : Params) (fuel : nat) :
  valid_params params ->
  Forall (supplyTagged params) (steps (eleveldProtocol fuel params)).
Proof.
  intros V.
  destruct (resolved_facts params V) as (Hi & Hm & HB & _).
  pose proof (valid_concentration _ V) as Hc.
  pose proof (resolveLoading_nonneg params V) as [Hd Ht].
  destruct (resolveBolus_exact _ _ _ Hm Hd Ht) as (_ & Hlonger & Hdose & _).
  fold (resolvedBolus params) (resolvedDuration params) (resolvedDose params)
    in Hdose, Hlonger.
  rewrite steps_phases. apply Forall_app. split.
  - eapply Forall_impl; [|apply loading_phases]. cbn beta.
    intros s Hs. split; intros Htag; congruence.
  - pose proof (loading_exit params (intervalOf params) (eleveldParameters params)
                  (fst (resolvedBolus params)) (resolvedDuration params) fuel
                  (initialState params)) as Hexit.
    fold (loadingPhase fuel params) in Hexit.
    destruct (snd (loadingPhase fuel params)) as [st|]; [|constructor].
    change (elapsed (initialState params)) with 0 in Hexit.
    change (cumulative (initialState params)) with 0 in Hexit.
    destruct (Hexit ltac:(lra) st eq_refl) as (_ & Ecum & _).
    unfold mainPhase. apply main_supply; try lra.
    unfold supply. rewrite Ecum. lra.
Qed.

Lemma supply_tagged_witness :
  valid_params referencePatient
  /\ Forall (supplyTagged referencePatient) (steps (eleveldProtocol 40 referencePatient)).
Proof.
  split; [exact referencePatient_valid|].
  exact (supply_tagged referencePatient 40 referencePatient_valid).
Defined.

(** ** The last step of a run that returned *)



Lemma continues_false (rem : R) (st : SimulationState) :
  continues rem st = false -> rem <= 0 /\ Ce st <= 0.01.
Proof.
  unfold continues.
  destruct (Rlt_dec 0 rem), (Rlt_dec 0.01 (Ce st)); cbn; try discriminate.
  intros _. split; lra.
Qed.




(** ** The empty run *)

(** X15. Whatever the input, the function returns the empty list exactly when
    there is nothing to do: the resolved loading duration is not positive,
    there is no maintenance budget, and the starting concentration is at most
    the threshold 0.01. It then returns at the first test of each loop. *)
Theorem empty_run (params : Params) (fuel : nat) :
  (steps (eleveldProtocol (S fuel) params) = []
   <-> resolvedDuration params <= 0
       /\ maintenanceBudget params <= 0
       /\ currentCe params ?? 0 <= 0.01)
  /\ (steps (eleveldProtocol (S fuel) params) = [] ->
      returned (eleveldProtocol (S fuel) params) = true).
Proof.
  rewrite eleveldProtocol_phases. unfold loadingPhase. cbn [loadingLoop].
  change (elapsed (initialState params)) with 0.
  destruct (Rlt_dec 0 (resolvedDuration params)) as [Hpos|Hzero].
  - destruct (loadingLoop _ _ _ _ _ fuel _) as [rest [st|]].
    + destruct (mainPhase (S fuel) params st) as [ms fin]. cbn [steps app].
      split; [split; [discriminate | lra] | discriminate].
    + cbn [steps]. split; [split; [discriminate | lra] | discriminate].
  - unfold mainPhase. cbn [mainLoop].
    destruct (continues (maintenanceBudget params) (initialState params)) eqn:Hc.
    + assert (Hgo : ~ (maintenanceBudget params <= 0 /\ currentCe params ?? 0 <= 0.01)).
      { revert Hc. unfold continues. change (Ce (initialState params))
          with (currentCe params ?? 0).
        destruct (Rlt_dec 0 (maintenanceBudget params)),
          (Rlt_dec 0.01 (currentCe params ?? 0)); cbn; try discriminate;
          intros _ [? ?]; lra. }
      destruct (breaks _ _).
      * cbn [steps app]. split; [split; [discriminate | tauto] | discriminate].
      * destruct (mainLoop _ _ _ _ fuel _ _) as [rest fin]. cbn [steps app].
        split; [split; [discriminate | tauto] | discriminate].
    + apply continues_false in Hc as [HB Hce].
      change (Ce (initialState params)) with (currentCe params ?? 0) in Hce.
      cbn [steps returned app]. split; [split; [intros _; lra | reflexivity] | reflexivity].
Qed.

(** ** Concentrations under a short tick *)

Lemma kinetics_positive (params : Params) :
  valid_covariates params ->
  let p := eleveldParameters params in
  0 < vc p /\ 0 < k10 p /\ 0 < k12 p /\ 0 < k13 p
  /\ 0 < k21 p /\ 0 < k31 p /\ 0 < ke0 p.
Proof.
  intros (Hage & Hw & Hh). cbv zeta. unfold eleveldParameters.
  destruct (drug params); cbn [vc k10 k12 k13 k21 k31 ke0].
  - repeat split; destruct (sex params); positive.
  - repeat split; destruct (sex params);
      try destruct (Rle_dec (ageYears params) 16); positive.
Qed.

Section ShortTick.

Variable params : Params.
Variable interval : R.
Variable p : CompartmentalParameters.
Variable maxRate : R.

Hypothesis Hvc : 0 < vc p.
Hypothesis Hk10 : 0 <= k10 p.
Hypothesis Hk12 : 0 <= k12 p.
Hypothesis Hk13 : 0 <= k13 p.
Hypothesis Hk21 : 0 <= k21 p.
Hypothesis Hk31 : 0 <= k31 p.
Hypothesis Hke0 : 0 <= ke0 p.
Hypothesis Hinterval : 0 < interval.
Hypothesis Hmax : 0 <= maxRate.
Hypothesis Hcentral : interval * (k10 p + k12 p + k13 p) <= 1.
Hypothesis Hsecond : interval * k21 p <= 1.
Hypothesis Hthird : interval * k31 p <= 1.
Hypothesis Heffect : interval * ke0 p <= 1.

(** A loss at rate [k] over a tick of at most [interval] leaves a
    non-negative part of a non-negative concentration. *)
Lemma short_tick_keeps (k c dt : R) :
  0 <= k -> interval * k <= 1 -> 0 <= dt <= interval -> 0 <= c ->
  0 <= c - k * c * dt.
Proof.
  intros Hk Hik Hdt Hc.
  assert (Hkd : k * dt <= 1).
  { apply Rle_trans with (k * interval); [apply Rmult_le_compat_l; lra | lra]. }
  replace (c - k * c * dt) with (c * (1 - k * dt)) by ring.
  apply Rmult_le_pos; lra.
Qed.

Lemma integrate_nonNegative (r dt : R) (st : SimulationState) :
  0 <= r -> 0 <= dt <= interval ->
  nonNegative st -> nonNegative (integrate p r dt st).
Proof.
  intros Hr Hdt (H1 & H2 & H3 & He).
  unfold nonNegative, integrate; cbn [C1 C2 C3 Ce].
  assert (Hin : 0 <= r / vc p)
    by (apply Rmult_le_pos; [lra | apply Rlt_le, Rinv_0_lt_compat; lra]).
  pose proof (short_tick_keeps (k10 p + k12 p + k13 p) (C1 st) dt
                ltac:(lra) Hcentral Hdt H1) as K1.
  pose proof (short_tick_keeps (k21 p) (C2 st) dt Hk21 Hsecond Hdt H2) as K2.
  pose proof (short_tick_keeps (k31 p) (C3 st) dt Hk31 Hthird Hdt H3) as K3.
  pose proof (short_tick_keeps (ke0 p) (Ce st) dt Hke0 Heffect Hdt He) as Ke.
  assert (G1 : 0 <= r / vc p * dt) by (apply Rmult_le_pos; lra).
  assert (G21 : 0 <= k21 p * C2 st * dt)
    by (apply Rmult_le_pos; [apply Rmult_le_pos|]; lra).
  assert (G31 : 0 <= k31 p * C3 st * dt)
    by (apply Rmult_le_pos; [apply Rmult_le_pos|]; lra).
  assert (G12 : 0 <= k12 p * C1 st * dt)
    by (apply Rmult_le_pos; [apply Rmult_le_pos|]; lra).
  assert (G13 : 0 <= k13 p * C1 st * dt)
    by (apply Rmult_le_pos; [apply Rmult_le_pos|]; lra).
  assert (Ge : 0 <= ke0 p * C1 st * dt)
    by (apply Rmult_le_pos; [apply Rmult_le_pos|]; lra).
  repeat split; lra.
Qed.

Lemma loading_nonNegative (bolus duration : R) (fuel : nat) (st : SimulationState) :
  0 <= bolus -> nonNegative st ->
  Forall (fun s => 0 <= ce s)
    (fst (loadingLoop params interval p bolus duration fuel st))
  /\ forall st1,
       snd (loadingLoop params interval p bolus duration fuel st) = Some st1 ->
       nonNegative st1.
Proof.
  intros Hb. revert fuel st.
  apply (loadingLoop_ticks params interval p bolus duration
           (fun st l out =>
              nonNegative st ->
              Forall (fun s => 0 <= ce s) l
              /\ forall st1, out = Some st1 -> nonNegative st1)).
  - intros st _. split; [constructor | discriminate].
  - intros st _ Hst. split; [constructor|]. now intros st1 [= <-].
  - intros st l out Hlt st' IH Hst.
    assert (Hdt : 0 <= Math.min interval (duration - elapsed st) <= interval).
    { unfold Math.min. split; [apply Rmin_glb; lra | apply Rmin_l]. }
    pose proof (integrate_nonNegative bolus _ st Hb Hdt Hst) as Hst'.
    fold st' in Hst'. destruct (IH Hst') as [Hall Hexit].
    split; [|assumption].
    constructor; [|assumption]. cbn [emit ce]. apply Hst'.
Qed.

Lemma main_nonNegative (fuel : nat) (rem : R) (st : SimulationState) :
  nonNegative st ->
  Forall (fun s => 0 <= ce s)
    (fst (mainLoop params interval p maxRate fuel rem st)).
Proof.
  revert fuel rem st.
  apply (mainLoop_ticks params interval p maxRate
           (fun _ st l => nonNegative st -> Forall (fun s => 0 <= ce s) l)).
  - constructor.
  - intros rem st l r rem' st' IH Hst.
    destruct (infusionRate_bounds params interval p maxRate rem st Hinterval Hmax)
      as (Hr & _).
    fold r in Hr.
    pose proof (integrate_nonNegative r interval st Hr ltac:(lra) Hst) as Hst'.
    fold st' in Hst'.
    constructor; [|now apply IH]. cbn [emit ce]. apply Hst'.
Qed.

End ShortTick.

Lemma fineStepPatient_parameters :
  eleveldParameters fineStepPatient = eleveldParameters referencePatient.
Proof. reflexivity. Qed.

Lemma fineStepPatient_stable : stableStep fineStepPatient.
Proof.
  unfold stableStep. cbv zeta. rewrite fineStepPatient_parameters.
  change (intervalOf fineStepPatient) with 0.4.
  pose proof reference_k12 as [? ?].
  pose proof reference_k13 as [? ?].
  pose proof reference_k31 as [? ?].
  pose proof reference_k21 as H21.
  rewrite reference_k10, reference_ke0.
  repeat split; lra.
Qed.


(** ** The maintenance controller *)

(** X16. The maintenance rate follows the error: with the same budget left, a
    higher effect-site concentration never gets a higher rate; and once the
    concentration reaches [targetCe * (1 + CL1 / (Vc * ke0))] the pump pauses,
    and the budget is left as it is. *)
Theorem infusion_rate_follows_error (params : Params) (rem : R)
    (st st' : SimulationState) :
  valid_params params ->
  Ce st <= Ce st' ->
  let p := eleveldParameters params in
  let rate :=
    infusionRate params (intervalOf params) p (pumpCeiling params) rem in
  rate st' <= rate st
  /\ (targetCe params * (1 + cl1 p / (vc p * ke0 p)) <= Ce st' ->
      rate st' = 0
      /\ remainingAfter (intervalOf params) rem (rate st') = rem).
Proof.
  intros V Hce. cbv zeta.
  destruct (resolved_facts params V) as (Hi & Hm & _).
  destruct (kinetics_positive params (valid_cov _ V)) as (Hvc & _ & _ & _ & _ & _ & Hke0).
  pose proof (cl1_positive params (valid_cov _ V)) as Hcl1.
  pose proof (valid_target _ V) as Ht.
  set (p := eleveldParameters params) in *.
  assert (Hq : 0 < vc p * ke0 p) by now apply Rmult_lt_0_compat.
  unfold infusionRate, remainingAfter.
  destruct (Rlt_dec 0 rem) as [Hrem|Hrem]; [|split; [lra | intros _; split; lra]].
  assert (Hdel : 0 < rem / intervalOf params) by now apply Rdiv_lt_0_compat.
  set (del := rem / intervalOf params) in *.
  set (d := (targetCe params * cl1 p + (targetCe params - Ce st) * vc p * ke0 p) / 60).
  set (d' := (targetCe params * cl1 p + (targetCe params - Ce st') * vc p * ke0 p) / 60).
  assert (Hd : d' <= d).
  { subst d d'.
    assert ((targetCe params - Ce st') * (vc p * ke0 p)
            <= (targetCe params - Ce st) * (vc p * ke0 p))
      by (apply Rmult_le_compat_r; lra).
    lra. }
  split.
  - unfold Math.min, Rmin.
    destruct (Rlt_dec d 0), (Rlt_dec d' 0);
      repeat match goal with
             | |- context [Rle_dec ?a ?b] => destruct (Rle_dec a b)
             | |- context [Rlt_dec ?a ?b] => destruct (Rlt_dec a b)
             end; lra.
  - intros Hhigh.
    assert (Hd' : d' <= 0).
    { subst d'.
      assert (E : targetCe params * (1 + cl1 p / (vc p * ke0 p)) * (vc p * ke0 p)
                  = targetCe params * (vc p * ke0 p) + targetCe params * cl1 p)
        by (field; lra).
      assert (targetCe params * (1 + cl1 p / (vc p * ke0 p)) * (vc p * ke0 p)
              <= Ce st' * (vc p * ke0 p))
        by (apply Rmult_le_compat_r; lra).
      lra. }
    assert (E0 : (if Rlt_dec d' 0 then 0 else d') = 0)
      by (destruct (Rlt_dec d' 0); lra).
    rewrite E0. unfold Math.min. rewrite Rmin_right by lra.
    rewrite Rlt_dec_false by lra. split; lra.
Qed.

Lemma infusion_rate_follows_error_witness :
  (valid_params referencePatient
   /\ Ce loadedState <= Ce overshotState
   /\ targetCe referencePatient
      * (1 + cl1 (eleveldParameters referencePatient)
             / (vc (eleveldParameters referencePatient)
                * ke0 (eleveldParameters referencePatient)))
      <= Ce overshotState)
  /\ infusionRate referencePatient (intervalOf referencePatient)
       (eleveldParameters referencePatient) (pumpCeiling referencePatient) 200
       overshotState
     <= infusionRate referencePatient (intervalOf referencePatient)
          (eleveldParameters referencePatient) (pumpCeiling referencePatient) 200
          loadedState
  /\ infusionRate referencePatient (intervalOf referencePatient)
       (eleveldParameters referencePatient) (pumpCeiling referencePatient) 200
       overshotState = 0
  /\ remainingAfter (intervalOf referencePatient) 200
       (infusionRate referencePatient (intervalOf referencePatient)
          (eleveldParameters referencePatient) (pumpCeiling referencePatient) 200
          overshotState) = 200.
Proof.
  assert (Hce : Ce loadedState <= Ce overshotState) by (cbn; lra).
  assert (Hhigh : targetCe referencePatient
                  * (1 + cl1 (eleveldParameters referencePatient)
                         / (vc (eleveldParameters referencePatient)
                            * ke0 (eleveldParameters referencePatient)))
                  <= Ce overshotState).
  { rewrite reference_cl1, reference_vc, reference_ke0. cbn. lra. }
  split; [split; [exact referencePatient_valid | split; [exact Hce | exact Hhigh]]|].
  destruct (infusion_rate_follows_error referencePatient 200 loadedState overshotState
              referencePatient_valid Hce) as [Hle Hpause].
  split; [exact Hle | exact (Hpause Hhigh)].
Defined.

(** ** The Euler tick *)

Lemma k10_vc (params : Params) :
  valid_covariates params ->
  k10 (eleveldParameters params) * vc (eleveldParameters params)
  = cl1 (eleveldParameters params).
Proof.
  intros Hcov. pose proof (vc_positive params Hcov) as Hvc. revert Hvc.
  unfold eleveldParameters.
  destruct (drug params); cbn [vc k10 cl1]; intros Hvc;
    now rewrite quotient_times.
Qed.

(** X17. One Euler tick, for valid covariates and a tick of [dt >= 0].  It
    moves drug between the compartments without creating or losing any: the
    amount in the three compartments changes by what the tick infuses (the
    growth of the cumulative dose) less what is eliminated from the central
    compartment at clearance CL1.  With [dt * ke0 <= 1] the effect-site
    concentration moves towards the central concentration and not past it;
    with [dt * ke0 > 1] it overshoots, ending strictly on the other side of
    the central concentration. *)
Theorem integrate_tick (params : Params) (r dt : R) (st : SimulationState) :
  valid_covariates params ->
  0 <= dt ->
  let p := eleveldParameters params in
  let st' := integrate p r dt st in
  vc p * (bodyLoad st' - bodyLoad st)
  = (cumulative st' - cumulative st) - cl1 p * C1 st * dt
  /\ (dt * ke0 p <= 1 ->
      Rmin (Ce st) (C1 st) <= Ce st' <= Rmax (Ce st) (C1 st))
  /\ (1 < dt * ke0 p -> Ce st < C1 st -> C1 st < Ce st').
Proof.
  intros Hcov Hdt. cbv zeta.
  pose proof (vc_positive params Hcov) as Hvc.
  destruct (kinetics_positive params Hcov) as (_ & _ & _ & _ & _ & _ & Hke0).
  split.
  { rewrite <- (k10_vc params Hcov).
    unfold bodyLoad, integrate; cbn [C1 C2 C3 cumulative].
    field. lra. }
  set (p := eleveldParameters params) in *.
  unfold integrate; cbn [Ce].
  set (a := dt * ke0 p).
  assert (Ha : 0 <= a) by (subst a; apply Rmult_le_pos; lra).
  assert (E : Ce st + ke0 p * (C1 st - Ce st) * dt
              = Ce st + a * (C1 st - Ce st)) by (subst a; ring).
  rewrite E. split.
  - intros Ha1. unfold Rmin, Rmax.
    destruct (Rle_dec (Ce st) (C1 st)); split; nra.
  - intros Ha1 Hlt. nra.
Qed.

Lemma integrate_tick_witness :
  (valid_covariates referencePatient
   /\ 1 * ke0 (eleveldParameters referencePatient) <= 1
   /\ 1 < 10 * ke0 (eleveldParameters referencePatient)
   /\ Ce loadedState < C1 loadedState)
  /\ vc (eleveldParameters referencePatient)
     * (bodyLoad (integrate (eleveldParameters referencePatient) 2 10 loadedState)
        - bodyLoad loadedState)
     = (cumulative (integrate (eleveldParameters referencePatient) 2 10 loadedState)
        - cumulative loadedState)
       - cl1 (eleveldParameters referencePatient) * C1 loadedState * 10
  /\ Rmin (Ce loadedState) (C1 loadedState)
     <= Ce (integrate (eleveldParameters referencePatient) 2 1 loadedState)
     <= Rmax (Ce loadedState) (C1 loadedState)
  /\ C1 loadedState
     < Ce (integrate (eleveldParameters referencePatient) 2 10 loadedState).
Proof.
  assert (Hshort : 1 * ke0 (eleveldParameters referencePatient) <= 1)
    by (rewrite reference_ke0; lra).
  assert (Hlong : 1 < 10 * ke0 (eleveldParameters referencePatient))
    by (rewrite reference_ke0; lra).
  assert (Hlt : Ce loadedState < C1 loadedState) by (cbn; lra).
  split.
  - split; [exact referencePatient_covariates|].
    split; [exact Hshort | split; [exact Hlong | exact Hlt]].
  - destruct (integrate_tick referencePatient 2 10 loadedState
                referencePatient_covariates ltac:(lra)) as (Hbal & _ & Hover).
    destruct (integrate_tick referencePatient 2 1 loadedState
                referencePatient_covariates ltac:(lra)) as (_ & Hnear & _).
    split; [exact Hbal|]. split; [exact (Hnear Hshort) | exact (Hover Hlong Hlt)].
Defined.

(** ** The first step *)


(** ** Rate and cumulative dose *)

Lemma ratePerKg_dose (params : Params) (r dt : R) :
  0 < weightKg params ->
  ratePerKg params r * weightKg params / (60 * 1000) * dt = r * dt.
Proof. intros Hw. unfold ratePerKg. field. lra. Qed.

Lemma doseChain_app (params : Params) (l1 l2 : list DosingStep) :
  forall prev : R,
    doseChain params prev l1 ->
    doseChain params
      (match finalStep l1 with Some s => cumulativeDoseMg s | None => prev end) l2 ->
    doseChain params prev (l1 ++ l2).
Proof.
  induction l1 as [|s l1 IH]; intros prev H1 H2; [exact H2|].
  cbn [app doseChain] in *. destruct H1 as (Hle & Heq & Hrest).
  split; [assumption|]. split; [assumption|].
  apply IH; [assumption|].
  rewrite finalStep_cons in H2. now destruct (finalStep l1).
Qed.

Lemma loading_doseChain (params : Params) (p : CompartmentalParameters)
    (bolus duration : R) (fuel : nat) (st : SimulationState) :
  0 < weightKg params -> 0 <= bolus ->
  doseChain params (cumulative st)
    (fst (loadingLoop params (intervalOf params) p bolus duration fuel st)).
Proof.
  intros Hw Hb. revert fuel st.
  apply (loadingLoop_ticks params (intervalOf params) p bolus duration
           (fun st l _ => doseChain params (cumulative st) l)).
  - intros st. exact I.
  - intros st _. exact I.
  - intros st l out Hlt st' IH. cbn [doseChain].
    split; [|split; [intros H; now contradiction H | exact IH]].
    unfold doseAtRate. cbn [emit rate cumulativeDoseMg].
    rewrite ratePerKg_dose by assumption.
    subst st'; cbn [integrate cumulative].
    pose proof (Rmin_l (intervalOf params) (duration - elapsed st)) as Hmin.
    fold (Math.min (intervalOf params) (duration - elapsed st)) in Hmin.
    nra.
Qed.

Lemma main_doseChain (params : Params) (p : CompartmentalParameters)
    (maxRate : R) (fuel : nat) (rem : R) (st : SimulationState) :
  0 < weightKg params ->
  doseChain params (cumulative st)
    (fst (mainLoop params (intervalOf params) p maxRate fuel rem st)).
Proof.
  intros Hw. revert fuel rem st.
  apply (mainLoop_ticks params (intervalOf params) p maxRate
           (fun _ st l => doseChain params (cumulative st) l)).
  - intros rem st. exact I.
  - intros rem st l r rem' st' IH. cbn [doseChain].
    assert (E : cumulativeDoseMg
                  (emit params r st' (if Rlt_dec 0 rem' then maintenance else decay))
                - cumulative st
                = doseAtRate params
                    (emit params r st' (if Rlt_dec 0 rem' then maintenance else decay))
                    (intervalOf params)).
    { unfold doseAtRate. cbn [emit rate cumulativeDoseMg].
      rewrite ratePerKg_dose by assumption.
      subst st'; cbn [integrate cumulative]. ring. }
    split; [rewrite E; lra|]. split; [intros _; exact E | exact IH].
Qed.

(** X19. For a valid input the [rate] and [cumulativeDoseMg] fields of a run
    agree: from 0 before the first step, each step adds to the cumulative dose
    what its rate (mcg/kg/min, times the weight) delivers over one tick of the
    configured interval; a loading step may add less, its tick being cut at
    the end of the loading phase. *)
Theorem dose_matches_rate (params : Params) (fuel : nat) :
  valid_params params ->
  doseChain params 0 (steps (eleveldProtocol fuel params)).
Proof.
  intros V.
  destruct (resolved_facts params V) as (_ & _ & _ & _ & Hb & _).
  destruct (valid_cov _ V) as (_ & Hw & _).
  rewrite steps_phases. apply doseChain_app.
  - exact (loading_doseChain params (eleveldParameters params)
             (fst (resolvedBolus params)) (resolvedDuration params) fuel
             (initialState params) Hw Hb).
  - pose proof (loading_last_step params (intervalOf params) (eleveldParameters params)
                  (fst (resolvedBolus params)) (resolvedDuration params) fuel
                  (initialState params)) as Hlast.
    fold (loadingPhase fuel params) in Hlast.
    destruct (snd (loadingPhase fuel params)) as [st|]; [|exact I].
    specialize (Hlast st eq_refl).
    unfold mainPhase.
    destruct (finalStep (fst (loadingPhase fuel params))) as [s|].
    + destruct Hlast as (_ & -> & _). now apply main_doseChain.
    + subst st. change 0 with (cumulative (initialState params)).
      now apply main_doseChain.
Qed.

Lemma dose_matches_rate_witness :
  valid_params referencePatient
  /\ doseChain referencePatient 0 (steps (eleveldProtocol 40 referencePatient)).
Proof.
  split; [exact referencePatient_valid|].
  exact (dose_matches_rate referencePatient 40 referencePatient_valid).
Defined.

(** ** Termination under a short tick *)

Section Termination.

Variable params : Params.

Hypothesis V : valid_params params.
Hypothesis Hstable : stableStep params.
Hypothesis Htarget : 0 < targetCe params.

Let p := eleveldParameters params.
Let dt := intervalOf params.

Lemma holdingRate_positive : 0 < holdingRate params.
Proof.
  destruct (resolved_facts params V) as (_ & Hm & _).
  pose proof (cl1_positive params (valid_cov _ V)) as Hcl1.
  unfold holdingRate, Math.min. apply Rmin_glb_lt; [assumption|].
  apply Rdiv_lt_0_compat; [apply Rmult_lt_0_compat; assumption | lra].
Qed.

Lemma tickDrop_bounds :
  0 < tickDrop params
  /\ tickDrop params <= targetCe params
  /\ tickDrop params <= 0.01
  /\ tickDrop params <= holdingRate params * dt / vc p.
Proof.
  destruct (resolved_facts params V) as (Hi & _).
  pose proof (vc_positive params (valid_cov _ V)) as Hvc.
  pose proof holdingRate_positive as Hrho.
  assert (Hu : 0 < holdingRate params * dt / vc p).
  { apply Rdiv_lt_0_compat; [apply Rmult_lt_0_compat|]; assumption. }
  unfold tickDrop. fold p dt.
  set (u := holdingRate params * dt / vc p) in *.
  unfold Rmin.
  destruct (Rle_dec 0.01 u); destruct (Rle_dec (targetCe params) _);
    repeat split; lra.
Qed.

(** Below the target and with budget left after the tick, the rate is at
    least the holding rate. *)
Lemma infusionRate_below_target (rem : R) (st : SimulationState) :
  0 < rem -> Ce st < targetCe params ->
  let r := infusionRate params dt p (pumpCeiling params) rem st in
  0 < remainingAfter dt rem r -> holdingRate params <= r.
Proof.
  intros Hrem Hce. cbv zeta.
  destruct (resolved_facts params V) as (Hi & Hm & _). fold dt in Hi.
  destruct (kinetics_positive params (valid_cov _ V))
    as (Hvc & _ & _ & _ & _ & _ & Hke0). fold p in Hvc, Hke0.
  unfold infusionRate, remainingAfter, holdingRate. fold p.
  rewrite !(Rlt_dec_true _ 0 rem) by assumption.
  set (d := (targetCe params * cl1 p + (targetCe params - Ce st) * vc p * ke0 p) / 60).
  assert (Hd : targetCe params * cl1 p / 60 <= d).
  { subst d.
    assert (0 <= (targetCe params - Ce st) * vc p * ke0 p)
      by (apply Rmult_le_pos; [apply Rmult_le_pos|]; lra).
    lra. }
  pose proof (cl1_positive params (valid_cov _ V)) as Hcl1. fold p in Hcl1.
  assert (Hh : 0 < targetCe params * cl1 p / 60)
    by (apply Rdiv_lt_0_compat; [apply Rmult_lt_0_compat; assumption | lra]).
  rewrite (Rlt_dec_false _ d 0) by lra.
  assert (Hmul : rem / dt * dt = rem) by (field; lra).
  destruct (Rlt_dec (rem / dt) (Math.min (pumpCeiling params) d)) as [Hcut|Hfit].
  - rewrite Hmul. lra.
  - intros _. unfold Math.min, Rmin.
    destruct (Rle_dec (pumpCeiling params) (targetCe params * cl1 p / 60)),
      (Rle_dec (pumpCeiling params) d); lra.
Qed.

Lemma potential_nonneg (rem : R) (st : SimulationState) :
  nonNegative st -> 0 <= rem -> 0 <= potential params rem st.
Proof.
  intros (H1 & H2 & H3 & He) Hrem.
  destruct (resolved_facts params V) as (Hi & _). fold dt in Hi.
  destruct (kinetics_positive params (valid_cov _ V))
    as (Hvc & Hk10 & _ & _ & _ & _ & Hke0). fold p in Hvc, Hk10, Hke0.
  destruct tickDrop_bounds as (Hdrop & _).
  unfold potential, bodyLoad. fold p dt.
  assert (Ha : 0 < / (ke0 p * dt))
    by (apply Rinv_0_lt_compat, Rmult_lt_0_compat; assumption).
  assert (Hb : 0 < / (k10 p * dt))
    by (apply Rinv_0_lt_compat, Rmult_lt_0_compat; assumption).
  assert (Hv : 0 < / vc p) by now apply Rinv_0_lt_compat.
  assert (T1 : 0 <= Ce st / (ke0 p * dt)) by (apply Rmult_le_pos; lra).
  assert (T2 : 0 <= (C1 st + C2 st + C3 st) / (k10 p * dt))
    by (apply Rmult_le_pos; lra).
  assert (T3 : 0 <= (1 / (k10 p * dt) + 1) / vc p * rem).
  { apply Rmult_le_pos; [|assumption]. apply Rmult_le_pos; [|lra].
    unfold Rdiv. lra. }
  destruct (Rlt_dec 0 rem); lra.
Qed.

(** Every tick of the second loop takes at least [tickDrop] off the
    potential. *)
Lemma tick_drops (rem : R) (st : SimulationState) :
  nonNegative st -> 0 <= rem ->
  continues rem st = true ->
  let r := infusionRate params dt p (pumpCeiling params) rem st in
  let rem' := remainingAfter dt rem r in
  let st' := integrate p r dt st in
  0 <= rem'
  /\ potential params rem' st' <= potential params rem st - tickDrop params.
Proof.
  intros (H1 & H2 & H3 & He) Hrem Hgo. cbv zeta.
  destruct (resolved_facts params V) as (Hi & Hm & _). fold dt in Hi.
  destruct (kinetics_positive params (valid_cov _ V))
    as (Hvc & Hk10 & _ & _ & _ & _ & Hke0). fold p in Hvc, Hk10, Hke0.
  destruct tickDrop_bounds as (Hdrop & HdT & Hd01 & Hdu).
  destruct (infusionRate_bounds params dt p (pumpCeiling params) rem st
              Hi (Rlt_le _ _ Hm)) as (Hr0 & Hr1 & Hr2).
  pose proof (infusionRate_below_target rem st) as Hlow. cbv zeta in Hlow.
  set (r := infusionRate params dt p (pumpCeiling params) rem st) in *.
  assert (Hrem' : 0 <= remainingAfter dt rem r
                  /\ remainingAfter dt rem r = rem - r * dt).
  { unfold remainingAfter.
    destruct (Rlt_dec 0 rem) as [Hpos|Hneg].
    - specialize (Hr1 Hpos). lra.
    - assert (E : r = 0) by (apply Hr2; lra). rewrite E. lra. }
  destruct Hrem' as [Hrem0 Erem].
  set (rem' := remainingAfter dt rem r) in *.
  split; [assumption|].
  assert (Hrdt : 0 <= r * dt) by (apply Rmult_le_pos; lra).
  assert (Hu : 0 <= r * dt / vc p).
  { apply Rmult_le_pos; [assumption|].
    apply Rlt_le, Rinv_0_lt_compat; assumption. }
  assert (E : Ce (integrate p r dt st) / (ke0 p * dt)
              + bodyLoad (integrate p r dt st) / (k10 p * dt)
              + (1 / (k10 p * dt) + 1) / vc p * rem'
              = Ce st / (ke0 p * dt)
                + bodyLoad st / (k10 p * dt)
                + (1 / (k10 p * dt) + 1) / vc p * rem
                - Ce st - r * dt / vc p).
  { rewrite Erem. unfold bodyLoad, integrate; cbn [C1 C2 C3 Ce].
    field. repeat split; lra. }
  unfold potential. fold p dt. rewrite E.
  destruct (Rlt_dec 0 rem') as [Hleft|Hspent].
  - assert (Hpos : 0 < rem) by lra.
    rewrite (Rlt_dec_true _ 0 rem) by assumption.
    destruct (Rlt_dec (Ce st) (targetCe params)) as [Hbelow|Habove]; [|lra].
    specialize (Hlow Hpos Hbelow Hleft).
    assert (holdingRate params * dt / vc p <= r * dt / vc p).
    { unfold Rdiv. apply Rmult_le_compat_r;
        [apply Rlt_le, Rinv_0_lt_compat; assumption|].
      apply Rmult_le_compat_r; lra. }
    lra.
  - destruct (Rlt_dec 0 rem) as [Hpos|Hzero]; [lra|].
    assert (Hce : 0.01 < Ce st).
    { revert Hgo. unfold continues.
      rewrite (Rlt_dec_false _ 0 rem) by lra.
      destruct (Rlt_dec 0.01 (Ce st)); [trivial | discriminate]. }
    lra.
Qed.

Lemma stable_tick (r d : R) (st : SimulationState) :
  0 <= r -> 0 <= d <= dt -> nonNegative st -> nonNegative (integrate p r d st).
Proof.
  intros Hr Hd Hst.
  destruct Hstable as (Hc & H2 & H3 & He).
  destruct (kinetics_positive params (valid_cov _ V))
    as (Hvc & Hk10 & Hk12 & Hk13 & Hk21 & Hk31 & Hke0).
  fold p dt in Hc, H2, H3, He, Hvc, Hk10, Hk12, Hk13, Hk21, Hk31, Hke0.
  apply (integrate_nonNegative dt p); try assumption; lra.
Qed.

(** The second loop is left within [n] ticks when the potential is below
    [n] drops. *)
Lemma main_terminates (n : nat) :
  forall (rem : R) (st : SimulationState),
    nonNegative st -> 0 <= rem ->
    potential params rem st < INR n * tickDrop params ->
    snd (mainLoop params dt p (pumpCeiling params) (S n) rem st) = true.
Proof.
  destruct (resolved_facts params V) as (Hi & Hm & _). fold dt in Hi.
  induction n as [|n IH]; intros rem st Hst Hrem Hpot.
  - pose proof (potential_nonneg rem st Hst Hrem). cbn [INR] in Hpot. lra.
  - remember (S n) as m eqn:Em. cbn [mainLoop].
    destruct (continues rem st) eqn:Hgo; [|reflexivity].
    destruct (tick_drops rem st Hst Hrem Hgo) as [Hrem' Hdrop].
    destruct (infusionRate_bounds params dt p (pumpCeiling params) rem st
                Hi (Rlt_le _ _ Hm)) as (Hr0 & _).
    set (r := infusionRate params dt p (pumpCeiling params) rem st) in *.
    set (rem' := remainingAfter dt rem r) in *.
    pose proof (stable_tick r dt st Hr0 ltac:(lra) Hst) as Hst'.
    set (st' := integrate p r dt st) in *.
    destruct (breaks rem' st'); [reflexivity|].
    subst m. rewrite S_INR in Hpot.
    specialize (IH rem' st' Hst' Hrem' ltac:(lra)).
    destruct (mainLoop params dt p (pumpCeiling params) (S n) rem' st')
      as [rest fin]; cbn [snd] in *. assumption.
Qed.

(** With a short tick and a positive target both loops are left: the run
    returns once it is given enough fuel. *)
Lemma run_terminates :
  exists n : nat, returned (eleveldProtocol n params) = true.
Proof.
  destruct (resolved_facts params V) as (Hi & Hm & HB & _ & Hb & Hd & _).
  fold dt in Hi.
  destruct tickDrop_bounds as (Hdrop & _).
  destruct (INR_archimed dt (resolvedDuration params) Hi) as (n1 & Hn1).
  pose proof (loading_terminates params dt p (fst (resolvedBolus params))
                (resolvedDuration params) n1 (initialState params)) as Hterm.
  change (elapsed (initialState params)) with 0 in Hterm.
  specialize (Hterm ltac:(lra)).
  destruct (snd (loadingLoop params dt p (fst (resolvedBolus params))
                   (resolvedDuration params) (S n1) (initialState params)))
    as [st1|] eqn:E1; [clear Hterm | contradiction].
  assert (Hst0 : nonNegative (initialState params)).
  { pose proof (valid_current _ V).
    unfold nonNegative, initialState; cbn [C1 C2 C3 Ce]. lra. }
  assert (Hst1 : nonNegative st1).
  { destruct Hstable as (Hc & H2 & H3 & He).
    destruct (kinetics_positive params (valid_cov _ V))
      as (Hvc & Hk10 & Hk12 & Hk13 & Hk21 & Hk31 & Hke0).
    fold p dt in Hc, H2, H3, He, Hvc, Hk10, Hk12, Hk13, Hk21, Hk31, Hke0.
    destruct (loading_nonNegative params dt p
                Hvc ltac:(lra) ltac:(lra) ltac:(lra) ltac:(lra) ltac:(lra)
                ltac:(lra) Hi Hc H2 H3 He
                (fst (resolvedBolus params)) (resolvedDuration params) (S n1)
                (initialState params) Hb Hst0) as [_ Hexit].
    now apply Hexit. }
  destruct (INR_archimed (tickDrop params)
              (potential params (maintenanceBudget params) st1) Hdrop)
    as (n2 & Hn2).
  pose proof (main_terminates n2 (maintenanceBudget params) st1 Hst1 HB
                ltac:(lra)) as Hmain.
  exists (Nat.max (S n1) (S n2)).
  rewrite eleveldProtocol_phases. unfold loadingPhase, mainPhase.
  fold dt p.
  pose proof (loadingLoop_fuel params dt p (fst (resolvedBolus params))
                (resolvedDuration params) (S n1) (Nat.max (S n1) (S n2))
                (initialState params) (Nat.le_max_l _ _)) as Hl.
  rewrite E1 in Hl. rewrite Hl.
  destruct (loadingLoop params dt p (fst (resolvedBolus params))
              (resolvedDuration params) (S n1) (initialState params))
    as [ls out]; cbn [snd] in E1; subst out.
  pose proof (mainLoop_fuel params dt p (pumpCeiling params) (S n2)
                (Nat.max (S n1) (S n2)) (maintenanceBudget params) st1
                (Nat.le_max_r _ _)) as Hmn.
  rewrite Hmain in Hmn. rewrite Hmn.
  destruct (mainLoop params dt p (pumpCeiling params) (S n2)
              (maintenanceBudget params) st1) as [ms fin];
    cbn [snd] in Hmain; subst fin.
  reflexivity.
Qed.

End Termination.

(** X20. For a valid input with a positive target and a tick that is short
    against the rate constants, the function returns: there is a number of
    loop tests within which both loops are left, and the run is the same for
    every larger number. *)
Theorem short_tick_terminates (params : Params) :
  valid_params params ->
  stableStep params ->
  0 < targetCe params ->
  exists n : nat,
    forall fuel : nat,
      (n <= fuel)%nat ->
      returned (eleveldProtocol fuel params) = true
      /\ steps (eleveldProtocol fuel params) = steps (eleveldProtocol n params).
Proof.
  intros V Hstable Htarget.
  destruct (run_terminates params V Hstable Htarget) as (n & Hn).
  exists n. intros fuel Hle.
  destruct (eleveldProtocol_fuel params n fuel Hle) as [Hsame _].
  rewrite (Hsame Hn). split; [assumption | reflexivity].
Qed.

Lemma short_tick_terminates_witness :
  (valid_params fineStepPatient
   /\ stableStep fineStepPatient
   /\ 0 < targetCe fineStepPatient)
  /\ exists n : nat,
       forall fuel : nat,
         (n <= fuel)%nat ->
         returned (eleveldProtocol fuel fineStepPatient) = true
         /\ steps (eleveldProtocol fuel fineStepPatient)
            = steps (eleveldProtocol n fineStepPatient).
Proof.
  assert (Ht : 0 < targetCe fineStepPatient) by (cbn; lra).
  split; [split; [exact fineStepPatient_valid |
                  split; [exact fineStepPatient_stable | exact Ht]]|].
  exact (short_tick_terminates fineStepPatient
           fineStepPatient_valid fineStepPatient_stable Ht).
Defined.

(** ** A target of zero *)

Lemma mainLoop_idle (params : Params) (interval : R) (p : CompartmentalParameters)
    (maxRate rem : R) (fuel : nat) :
  targetCe params = 0 -> 0 < interval -> 0 <= maxRate -> 0 < rem ->
  forall st : SimulationState,
    C1 st = 0 -> C2 st = 0 -> C3 st = 0 -> Ce st = 0 -> cumulative st = 0 ->
    snd (mainLoop params interval p maxRate fuel rem st) = false
    /\ length (fst (mainLoop params interval p maxRate fuel rem st)) = fuel
    /\ Forall idleStep (fst (mainLoop params interval p maxRate fuel rem st)).
Proof.
  intros HT Hi Hm Hrem.
  induction fuel as [|fuel IH]; intros st E1 E2 E3 Ee Ec; cbn [mainLoop].
  - repeat split. constructor.
  - assert (Hgo : continues rem st = true)
      by (unfold continues; now rewrite Rlt_dec_true by assumption).
    assert (Er : infusionRate params interval p maxRate rem st = 0).
    { unfold infusionRate. rewrite Rlt_dec_true by assumption.
      rewrite HT, Ee.
      replace ((0 * cl1 p + (0 - 0) * vc p * ke0 p) / 60) with 0
        by (unfold Rdiv; ring).
      rewrite (Rlt_dec_false _ 0 0) by lra.
      unfold Math.min. rewrite Rmin_right by assumption.
      assert (0 < rem / interval) by now apply Rdiv_lt_0_compat.
      now rewrite Rlt_dec_false by lra. }
    rewrite Hgo, Er.
    assert (Erem : remainingAfter interval rem 0 = rem)
      by (unfold remainingAfter; rewrite Rlt_dec_true by assumption; ring).
    rewrite Erem.
    set (st' := integrate p 0 interval st).
    assert (Hst' : C1 st' = 0 /\ C2 st' = 0 /\ C3 st' = 0 /\ Ce st' = 0
                   /\ cumulative st' = 0).
    { subst st'; unfold integrate; cbn [C1 C2 C3 Ce cumulative].
      rewrite E1, E2, E3, Ee, Ec. unfold Rdiv. repeat split; ring. }
    destruct Hst' as (E1' & E2' & E3' & Ee' & Ec').
    assert (Hb : breaks rem st' = false)
      by (unfold breaks; now rewrite Rle_dec_false by assumption).
    rewrite Hb. destruct (IH st' E1' E2' E3' Ee' Ec') as (Hfin & Hlen & Hall).
    destruct (mainLoop params interval p maxRate fuel rem st') as [rest fin];
      cbn [fst snd length] in *.
    split; [assumption|]. split; [now rewrite Hlen|].
    constructor; [|assumption].
    unfold idleStep; cbn [emit phase rate ce cumulativeDoseMg].
    rewrite Rlt_dec_true by assumption.
    repeat split; try assumption. apply ratePerKg_0.
Qed.

(** X21. With a target of 0, a starting concentration of 0, no loading
    override and a positive maintenance volume the function never returns: the
    budget is never touched, so the second loop is never left. However many
    loop tests the run is allowed, it has not returned, it has pushed one step
    per test, and every step is a maintenance step with rate 0, concentration
    0 and cumulative dose 0. *)
Theorem zero_target_never_returns (params : Params) (fuel : nat) :
  valid_params params ->
  targetCe params = 0 ->
  currentCe params ?? 0 = 0 ->
  loadingDoseMg params = None ->
  loadingDurationSec params = None ->
  0 < volumeMl params ?? 0 ->
  returned (eleveldProtocol fuel params) = false
  /\ length (steps (eleveldProtocol fuel params)) = fuel
  /\ Forall idleStep (steps (eleveldProtocol fuel params)).
Proof.
  intros V HT H0 Hdose Hduration Hvol.
  destruct (resolved_facts params V) as (Hi & Hm & _).
  assert (Hat : currentCe params ?? 0 = targetCe params) by congruence.
  assert (HB : 0 < maintenanceBudget params).
  { unfold maintenanceBudget. apply Rmult_lt_0_compat; [assumption|].
    exact (valid_concentration _ V). }
  rewrite eleveldProtocol_phases. unfold loadingPhase, resolvedDuration.
  rewrite (atTarget_resolved params Hat Hdose Hduration); cbn [fst snd].
  destruct fuel as [|fuel]; cbn [loadingLoop].
  - cbn [steps returned length]. repeat split. constructor.
  - rewrite Rlt_dec_false by (unfold initialState; cbn [elapsed]; lra).
    destruct (mainLoop_idle params (intervalOf params) (eleveldParameters params)
                (pumpCeiling params) (maintenanceBudget params) (S fuel)
                HT Hi (Rlt_le _ _ Hm) HB (initialState params))
      as (Hfin & Hlen & Hall);
      try (unfold initialState; cbn [C1 C2 C3 Ce cumulative]; lra).
    unfold mainPhase.
    destruct (mainLoop _ _ _ _ (S fuel) _ _) as [ms fin]; cbn [fst snd] in *.
    cbn [steps returned app]. repeat split; assumption.
Qed.

Lemma zeroTargetPatient_valid : valid_params zeroTargetPatient.
Proof. constructor; unfold valid_covariates; cbn; lra. Qed.

Lemma zero_target_never_returns_witness :
  (valid_params zeroTargetPatient
   /\ targetCe zeroTargetPatient = 0
   /\ currentCe zeroTargetPatient ?? 0 = 0
   /\ loadingDoseMg zeroTargetPatient = None
   /\ loadingDurationSec zeroTargetPatient = None
   /\ 0 < volumeMl zeroTargetPatient ?? 0)
  /\ returned (eleveldProtocol 1000 zeroTargetPatient) = false
  /\ length (steps (eleveldProtocol 1000 zeroTargetPatient)) = 1000%nat
  /\ Forall idleStep (steps (eleveldProtocol 1000 zeroTargetPatient)).
Proof.
  assert (Hvol : 0 < volumeMl zeroTargetPatient ?? 0) by (cbn; lra).
  split.
  - split; [exact zeroTargetPatient_valid|].
    repeat (split; [reflexivity|]). exact Hvol.
  - exact (zero_target_never_returns zeroTargetPatient 1000 zeroTargetPatient_valid
           eq_refl eq_refl eq_refl eq_refl Hvol).
Defined.

(** ** A ceiling on the concentrations *)

Section Dilution.

Variable params : Params.

Hypothesis V : valid_params params.
Hypothesis Hstable : stableStep params.

Let p := eleveldParameters params.
Let dt := intervalOf params.

(** Nothing is negative, and neither the body load nor the effect site is
    above the diluted dose. *)
Let diluted (st : SimulationState) : Prop :=
  nonNegative st
  /\ bodyLoad st <= dilutedDose params (cumulative st)
  /\ Ce st <= dilutedDose params (cumulative st).

Lemma diluted_tick (r d : R) (st : SimulationState) :
  0 <= r -> 0 <= d <= dt -> diluted st -> diluted (integrate p r d st).
Proof.
  intros Hr Hd (Hst & Hload & Hce).
  pose proof (stable_tick params V Hstable r d st Hr Hd Hst) as Hst'.
  fold p in Hst'.
  destruct Hstable as (_ & _ & _ & He). fold p dt in He.
  destruct (kinetics_positive params (valid_cov _ V))
    as (Hvc & Hk10 & _ & _ & _ & _ & Hke0). fold p in Hvc, Hk10, Hke0.
  destruct Hst as (H1 & H2 & H3 & H4).
  assert (Hinv : 0 < / vc p) by now apply Rinv_0_lt_compat.
  assert (Hin : 0 <= r * d / vc p)
    by (apply Rmult_le_pos; [apply Rmult_le_pos|]; lra).
  assert (Hout : 0 <= k10 p * C1 st * d)
    by (apply Rmult_le_pos; [apply Rmult_le_pos|]; lra).
  assert (Ed : dilutedDose params (cumulative (integrate p r d st))
               = dilutedDose params (cumulative st) + r * d / vc p).
  { unfold dilutedDose, integrate; cbn [cumulative]. fold p. field. lra. }
  assert (El : bodyLoad (integrate p r d st)
               = bodyLoad st + r * d / vc p - k10 p * C1 st * d).
  { unfold bodyLoad, integrate; cbn [C1 C2 C3]. field. lra. }
  assert (Ha : 0 <= ke0 p * d <= 1).
  { split; [apply Rmult_le_pos; lra|].
    apply Rle_trans with (ke0 p * dt); [apply Rmult_le_compat_l; lra | lra]. }
  assert (Ee : Ce (integrate p r d st)
               = Ce st + ke0 p * d * (C1 st - Ce st))
    by (unfold integrate; cbn [Ce]; ring).
  split; [assumption|]. rewrite Ed, El, Ee.
  split; [lra|]. unfold bodyLoad in Hload.
  set (B := dilutedDose params (cumulative st)) in *.
  set (a := ke0 p * d) in *.
  assert (HC1 : C1 st <= B) by lra.
  assert (a * (C1 st - Ce st) <= B - Ce st).
  { destruct (Rle_dec (Ce st) (C1 st)); nra. }
  lra.
Qed.

Lemma loading_diluted (bolus duration : R) (fuel : nat) (st : SimulationState) :
  0 <= bolus -> diluted st ->
  Forall (fun s => 0 <= ce s <= dilutedDose params (cumulativeDoseMg s))
    (fst (loadingLoop params dt p bolus duration fuel st))
  /\ forall st1,
       snd (loadingLoop params dt p bolus duration fuel st) = Some st1 ->
       diluted st1.
Proof.
  intros Hb.
  destruct (resolved_facts params V) as (Hi & _). fold dt in Hi.
  revert fuel st.
  apply (loadingLoop_ticks params dt p bolus duration
           (fun st l out =>
              diluted st ->
              Forall (fun s => 0 <= ce s <= dilutedDose params (cumulativeDoseMg s)) l
              /\ forall st1, out = Some st1 -> diluted st1)).
  - intros st _. split; [constructor | discriminate].
  - intros st _ Hst. split; [constructor|]. now intros st1 [= <-].
  - intros st l out Hlt st' IH Hst.
    assert (Hd : 0 <= Math.min dt (duration - elapsed st) <= dt).
    { unfold Math.min. split; [apply Rmin_glb; lra | apply Rmin_l]. }
    pose proof (diluted_tick bolus _ st Hb Hd Hst) as Hst'. fold st' in Hst'.
    destruct (IH Hst') as [Hall Hexit].
    split; [|assumption].
    constructor; [|assumption]. cbn [emit ce cumulativeDoseMg].
    destruct Hst' as ((_ & _ & _ & Hce0) & _ & Hce). split; assumption.
Qed.

Lemma main_diluted (fuel : nat) (rem : R) (st : SimulationState) :
  diluted st ->
  Forall (fun s => 0 <= ce s <= dilutedDose params (cumulativeDoseMg s))
    (fst (mainLoop params dt p (pumpCeiling params) fuel rem st)).
Proof.
  destruct (resolved_facts params V) as (Hi & Hm & _). fold dt in Hi.
  revert fuel rem st.
  apply (mainLoop_ticks params dt p (pumpCeiling params)
           (fun _ st l =>
              diluted st ->
              Forall (fun s => 0 <= ce s <= dilutedDose params (cumulativeDoseMg s)) l)).
  - constructor.
  - intros rem st l r rem' st' IH Hst.
    destruct (infusionRate_bounds params dt p (pumpCeiling params) rem st
                Hi (Rlt_le _ _ Hm)) as (Hr & _).
    fold r in Hr.
    pose proof (diluted_tick r dt st Hr ltac:(lra) Hst) as Hst'.
    fold st' in Hst'.
    constructor; [|now apply IH]. cbn [emit ce cumulativeDoseMg].
    destruct Hst' as ((_ & _ & _ & Hce0) & _ & Hce). split; assumption.
Qed.

Lemma run_diluted (fuel : nat) :
  Forall (fun s => 0 <= ce s <= dilutedDose params (cumulativeDoseMg s))
    (steps (eleveldProtocol fuel params)).
Proof.
  destruct (resolved_facts params V) as (_ & _ & _ & _ & Hb & _).
  pose proof (valid_current _ V) as H0.
  assert (Hst : diluted (initialState params)).
  { unfold diluted, nonNegative, bodyLoad, dilutedDose, initialState;
      cbn [C1 C2 C3 Ce cumulative].
    unfold Rdiv. rewrite Rmult_0_l. repeat split; lra. }
  destruct (loading_diluted (fst (resolvedBolus params)) (resolvedDuration params)
              fuel (initialState params) Hb Hst) as [Hall Hexit].
  fold (loadingPhase fuel params) in Hall, Hexit.
  rewrite steps_phases. apply Forall_app. split; [assumption|].
  destruct (snd (loadingPhase fuel params)) as [st|] eqn:E; [|constructor].
  unfold mainPhase. apply main_diluted. apply Hexit. exact E.
Qed.

End Dilution.

(** X22. What the code keeps of the non-negativity of concentrations.  For
    a valid input whose tick is short against the rate constants, that is
    [interval * (k10 + k12 + k13)], [interval * k21], [interval * k31] and
    [interval * ke0] are all at most 1, every step of the run has an
    effect-site concentration that is not negative, and that is at most the
    starting concentration plus the cumulative dose of the step divided by
    the central volume: no step shows more drug at the effect site than has
    been given. *)
Theorem short_tick_bounds (params : Params) (fuel : nat) :
  valid_params params ->
  stableStep params ->
  Forall (fun s =>
            0 <= ce s
            <= currentCe params ?? 0
               + cumulativeDoseMg s / vc (eleveldParameters params))
    (steps (eleveldProtocol fuel params)).
Proof.
  intros V Hstable.
  pose proof (run_diluted params V Hstable fuel) as H.
  eapply Forall_impl; [|exact H]. cbn beta. intros s Hs. exact Hs.
Qed.

Lemma short_tick_bounds_witness :
  (valid_params fineStepPatient /\ stableStep fineStepPatient)
  /\ Forall (fun s =>
               0 <= ce s
               <= currentCe fineStepPatient ?? 0
                  + cumulativeDoseMg s / vc (eleveldParameters fineStepPatient))
       (steps (eleveldProtocol 40 fineStepPatient)).
Proof.
  split; [split; [exact fineStepPatient_valid | exact fineStepPatient_stable]|].
  exact (short_tick_bounds fineStepPatient 40
           fineStepPatient_valid fineStepPatient_stable).
Defined.

(** ** A tick that does not advance *)

Lemma loadingLoop_stuck (params : Params) (interval : R)
    (p : CompartmentalParameters) (bolus duration : R) (fuel : nat) :
  interval <= 0 -> 0 < duration ->
  forall st : SimulationState,
    elapsed st <= 0 ->
    snd (loadingLoop params interval p bolus duration fuel st) = None
    /\ length (fst (loadingLoop params interval p bolus duration fuel st)) = fuel.
Proof.
  intros Hi Hd. induction fuel as [|fuel IH]; intros st Hst; cbn [loadingLoop].
  - split; reflexivity.
  - rewrite Rlt_dec_true by lra.
    set (st' := integrate p bolus (Math.min interval (duration - elapsed st)) st).
    assert (Hst' : elapsed st' <= 0).
    { subst st'; cbn [integrate elapsed]. unfold Math.min.
      rewrite Rmin_left by lra. lra. }
    destruct (IH st' Hst') as [Hout Hlen].
    destruct (loadingLoop params interval p bolus duration fuel st')
      as [rest out]; cbn [fst snd length] in *.
    split; [assumption | now rewrite Hlen].
Qed.

(** X23. With an interval of 0 or less and a loading phase to run, the
    function never returns: the loading tick does not advance the time, so the
    first loop is never left. However many loop tests the run is allowed, it
    has not returned and it has pushed one loading step per test. *)
Theorem stuck_interval_never_returns (params : Params) (fuel : nat) :
  intervalOf params <= 0 ->
  0 < resolvedDuration params ->
  returned (eleveldProtocol fuel params) = false
  /\ length (steps (eleveldProtocol fuel params)) = fuel
  /\ Forall (fun s => phase s = loading) (steps (eleveldProtocol fuel params)).
Proof.
  intros Hi Hd.
  destruct (loadingLoop_stuck params (intervalOf params) (eleveldParameters params)
              (fst (resolvedBolus params)) (resolvedDuration params) fuel Hi Hd
              (initialState params) ltac:(cbn; lra)) as [Hout Hlen].
  pose proof (loading_phases params (intervalOf params) (eleveldParameters params)
                (fst (resolvedBolus params)) (resolvedDuration params) fuel
                (initialState params)) as Hall.
  fold (loadingPhase fuel params) in Hout, Hlen, Hall.
  rewrite eleveldProtocol_phases.
  destruct (loadingPhase fuel params) as [ls out]; cbn [fst snd] in *.
  subst out. cbn [steps returned]. repeat split; assumption.
Qed.

Lemma stuck_interval_never_returns_witness :
  (intervalOf zeroIntervalPatient <= 0 /\ 0 < resolvedDuration zeroIntervalPatient)
  /\ returned (eleveldProtocol 1000 zeroIntervalPatient) = false
  /\ length (steps (eleveldProtocol 1000 zeroIntervalPatient)) = 1000%nat
  /\ Forall (fun s => phase s = loading)
       (steps (eleveldProtocol 1000 zeroIntervalPatient)).
Proof.
  assert (Hi : intervalOf zeroIntervalPatient <= 0) by (cbn; lra).
  assert (Hd : 0 < resolvedDuration zeroIntervalPatient).
  { unfold resolvedDuration.
    change (resolvedBolus zeroIntervalPatient) with (resolvedBolus referencePatient).
    rewrite referencePatient_resolved. cbn [snd]. lra. }
  split; [split; [exact Hi | exact Hd]|].
  exact (stuck_interval_never_returns zeroIntervalPatient 1000 Hi Hd).
Defined.

(** * The earlier simulator with a timed loading phase *)

Section TimedLoop.

Variable params : TimedLoading.Params.
Variable interval : R.
Variable p : CompartmentalParameters.
Variable maxRate : R.
Variable loadingRate : R.
Variable duration : R.
Variable total : R.

Let rateAt := TimedLoading.rateAt params interval p maxRate loadingRate duration total.
Let loop := TimedLoading.loop params interval p maxRate loadingRate duration total.

(** Induction over the iterations of the loop. *)
Lemma timed_loop_ticks
    (P : TimedLoading.LoopState -> list TimedLoading.DosingStep -> Prop) :
  (forall st, P st []) ->
  (forall st l,
      let r := fst (rateAt st) in
      let inf' := snd (rateAt st) in
      let st' := TimedLoading.advance interval p r inf' st in
      P st' l ->
      P st (TimedLoading.pushed params r st' (TimedLoading.phaseAt duration st) :: l)) ->
  forall fuel st, P st (fst (loop fuel st)).
Proof.
  intros Hnil Htick. subst loop.
  induction fuel as [|fuel IH]; intros st; cbn [TimedLoading.loop].
  - apply Hnil.
  - specialize (Htick st). subst rateAt. cbv zeta in Htick.
    destruct (TimedLoading.rateAt params interval p maxRate loadingRate duration
                total st) as [r inf']; cbn [fst snd] in Htick.
    set (st' := TimedLoading.advance interval p r inf' st) in *.
    destruct (TimedLoading.breaks r st').
    + cbn [fst]. apply Htick, Hnil.
    + specialize (IH st').
      destruct (TimedLoading.loop params interval p maxRate loadingRate duration
                  total fuel st') as [rest fin]; cbn [fst] in *.
      now apply Htick.
Qed.

Lemma timed_times (fuel : nat) (st : TimedLoading.LoopState) (k : nat) :
  TimedLoading.t st = INR k * interval ->
  TimedLoading.timesFrom interval (S k) (fst (loop fuel st)).
Proof.
  revert k. revert fuel st.
  apply (timed_loop_ticks
           (fun st l =>
              forall k, TimedLoading.t st = INR k * interval ->
                        TimedLoading.timesFrom interval (S k) l)).
  - intros st k _. exact I.
  - intros st l r inf' st' IH k Hk. cbn [TimedLoading.timesFrom].
    assert (Et : TimedLoading.t st' = INR (S k) * interval).
    { subst st'; cbn [TimedLoading.advance TimedLoading.t].
      rewrite Hk, S_INR. ring. }
    split; [exact Et | now apply IH].
Qed.

(** The loop is left only after a step with rate 0 and a concentration of
    at most 0.05; it pushes at least one step before. *)
Lemma timed_loop_exit (fuel : nat) :
  forall (st : TimedLoading.LoopState) (l : list TimedLoading.DosingStep),
    loop fuel st = (l, true) ->
    exists s,
      finalStep l = Some s
      /\ TimedLoading.rate s = 0
      /\ TimedLoading.ce s <= 0.05.
Proof.
  subst loop.
  induction fuel as [|fuel IH]; intros st l; cbn [TimedLoading.loop];
    [discriminate|].
  destruct (TimedLoading.rateAt params interval p maxRate loadingRate duration
              total st) as [r inf'].
  set (st' := TimedLoading.advance interval p r inf' st).
  destruct (TimedLoading.breaks r st') eqn:Hb.
  - intros [= <-]. eexists. split; [reflexivity|].
    unfold TimedLoading.breaks in Hb.
    destruct (Req_dec_T r 0) as [->|]; [|discriminate].
    destruct (Rle_dec (TimedLoading.Ce st') 0.05); [|discriminate].
    cbn [TimedLoading.pushed TimedLoading.rate TimedLoading.ce].
    split; [unfold Rdiv; ring | assumption].
  - specialize (IH st').
    destruct (TimedLoading.loop params interval p maxRate loadingRate duration
                total fuel st') as [rest fin].
    intros [= <- ->]. destruct (IH rest eq_refl) as (s & Hs & Hr & Hce).
    exists s. rewrite finalStep_cons, Hs. repeat split; assumption.
Qed.

End TimedLoop.

(** X24. Whatever the input, the timed version never returns an empty list:
    its first step is the starting state, at time 0, tagged loading, with the
    starting concentration and no dose; and the [time] fields of its steps are
    the multiples 0, 1, 2, ... of the interval, not rounded. *)
Theorem timed_steps_on_the_grid (params : TimedLoading.Params) (fuel : nat) :
  (exists rest,
      TimedLoading.steps (TimedLoading.eleveldProtocol fuel params)
      = TimedLoading.initialStep params :: rest)
  /\ TimedLoading.timesFrom (TimedLoading.resolvedInterval params) 0
       (TimedLoading.steps (TimedLoading.eleveldProtocol fuel params)).
Proof.
  unfold TimedLoading.eleveldProtocol.
  pose proof (timed_times params (TimedLoading.resolvedInterval params)
                (TimedLoading.eleveldParameters params)
                (TimedLoading.maxRateMgMin params)
                (TimedLoading.loadingRateMgMin params)
                (TimedLoading.resolvedLoadingDuration params)
                (TimedLoading.totalMaintDoseMg params) fuel
                (TimedLoading.initialState params) 0) as Ht.
  destruct (TimedLoading.loop _ _ _ _ _ _ _ fuel _) as [rest fin];
    cbn [fst TimedLoading.steps] in *.
  split; [now exists rest|].
  cbn [TimedLoading.timesFrom TimedLoading.initialStep TimedLoading.time INR].
  split; [ring|].
  apply Ht. cbn [TimedLoading.initialState TimedLoading.t INR]. ring.
Qed.

(** X25. Whatever the input, when the timed version returns, its last step
    has rate 0 and an effect-site concentration of at most 0.05, and it is not
    the starting state: the loop has run at least once. *)
Theorem timed_final_step (params : TimedLoading.Params) (fuel : nat) :
  TimedLoading.returned (TimedLoading.eleveldProtocol fuel params) = true ->
  exists s : TimedLoading.DosingStep,
    finalStep (TimedLoading.steps (TimedLoading.eleveldProtocol fuel params)) = Some s
    /\ TimedLoading.rate s = 0
    /\ TimedLoading.ce s <= 0.05
    /\ (2 <= length (TimedLoading.steps (TimedLoading.eleveldProtocol fuel params)))%nat.
Proof.
  unfold TimedLoading.eleveldProtocol.
  pose proof (timed_loop_exit params (TimedLoading.resolvedInterval params)
                (TimedLoading.eleveldParameters params)
                (TimedLoading.maxRateMgMin params)
                (TimedLoading.loadingRateMgMin params)
                (TimedLoading.resolvedLoadingDuration params)
                (TimedLoading.totalMaintDoseMg params) fuel
                (TimedLoading.initialState params)) as Hexit.
  destruct (TimedLoading.loop _ _ _ _ _ _ _ fuel _) as [rest fin];
    cbn [TimedLoading.steps TimedLoading.returned].
  intros ->. destruct (Hexit rest eq_refl) as (s & Hs & Hr & Hce).
  exists s. rewrite finalStep_cons, Hs. repeat split; try assumption.
  destruct rest as [|s0 rest]; [discriminate|]. cbn [length]. lia.
Qed.

Lemma timed_restingPatient_returns :
  TimedLoading.returned (TimedLoading.eleveldProtocol 1 TimedLoading.restingPatient)
  = true.
Proof.
  assert (Ed : TimedLoading.resolvedLoadingDuration TimedLoading.restingPatient = 0).
  { unfold TimedLoading.resolvedLoadingDuration, TimedLoading.calculateLoadingDose;
      cbn [TimedLoading.loadingDurationSec TimedLoading.restingPatient orDefault
           TimedLoading.durationSec TimedLoading.targetCe TimedLoading.currentCe].
    unfold Math.max. rewrite Rmax_right by lra. unfold Rdiv. ring. }
  unfold TimedLoading.eleveldProtocol. cbn [TimedLoading.loop].
  unfold TimedLoading.rateAt. rewrite Ed.
  change (TimedLoading.t (TimedLoading.initialState TimedLoading.restingPatient))
    with 0.
  rewrite (Rlt_dec_false _ 0 0) by lra.
  change (TimedLoading.infused (TimedLoading.initialState TimedLoading.restingPatient))
    with 0.
  rewrite Rlt_dec_false
    by (unfold TimedLoading.totalMaintDoseMg;
        cbn [TimedLoading.volumeMl TimedLoading.concentrationMgPerMl
             TimedLoading.restingPatient]; lra).
  unfold TimedLoading.breaks.
  destruct (Req_dec_T 0 0) as [_|Hne]; [|contradiction].
  rewrite Rle_dec_true; [reflexivity|].
  cbn [TimedLoading.advance TimedLoading.Ce TimedLoading.C1 TimedLoading.initialState
       TimedLoading.currentCe TimedLoading.restingPatient orDefault].
  nra.
Qed.

Lemma timed_final_step_witness :
  TimedLoading.returned (TimedLoading.eleveldProtocol 1 TimedLoading.restingPatient)
  = true
  /\ exists s : TimedLoading.DosingStep,
       finalStep (TimedLoading.steps
                    (TimedLoading.eleveldProtocol 1 TimedLoading.restingPatient))
       = Some s
       /\ TimedLoading.rate s = 0
       /\ TimedLoading.ce s <= 0.05
       /\ (2 <= length (TimedLoading.steps
                          (TimedLoading.eleveldProtocol 1 TimedLoading.restingPatient)))%nat.
Proof.
  split; [exact timed_restingPatient_returns|].
  exact (timed_final_step TimedLoading.restingPatient 1 timed_restingPatient_returns).
Defined.

(** ** What a valid input of the timed version resolves to *)

Lemma timed_covariates (params : TimedLoading.Params) :
  TimedLoading.valid_params params ->
  valid_covariates
    (covariateParams (TimedLoading.drug params) (TimedLoading.ageYears params)
       (TimedLoading.sex params) (TimedLoading.weightKg params)
       (TimedLoading.heightCm params)).
Proof.
  intros V. unfold valid_covariates; cbn [covariateParams ageYears weightKg heightCm].
  repeat split; apply V.
Qed.

Lemma timed_resolved_facts (params : TimedLoading.Params) :
  TimedLoading.valid_params params ->
  0 < TimedLoading.resolvedInterval params
  /\ 0 < TimedLoading.maxRateMgMin params
  /\ 0 <= TimedLoading.loadingRateMgMin params
  /\ 0 <= TimedLoading.loadingTickRate params.
Proof.
  intros V.
  pose proof (TimedLoading.valid_concentration _ V) as Hc.
  pose proof (vc_positive _ (timed_covariates params V)) as Hvc.
  fold (TimedLoading.eleveldParameters params) in Hvc.
  assert (Hm : 0 < TimedLoading.maxRateMgMin params)
    by (unfold TimedLoading.maxRateMgMin; lra).
  assert (Hdose : 0 <= TimedLoading.resolvedLoadingDose params).
  { pose proof (TimedLoading.valid_loadingDose _ V) as Hd.
    unfold TimedLoading.resolvedLoadingDose.
    destruct (TimedLoading.loadingDoseMg params) as [d|]; cbn [orDefault] in *;
      [assumption|].
    unfold TimedLoading.calculateLoadingDose; cbn [TimedLoading.doseMg].
    apply Rmult_le_pos; [unfold Math.max; apply Rmax_r | lra]. }
  assert (Hl : 0 <= TimedLoading.loadingRateMgMin params).
  { unfold TimedLoading.loadingRateMgMin.
    destruct (Rlt_dec 0 (TimedLoading.resolvedLoadingDuration params)); [|lra].
    apply Rmult_le_pos; [assumption|].
    apply Rlt_le, Rinv_0_lt_compat. lra. }
  split; [exact (TimedLoading.valid_interval _ V)|].
  split; [assumption|]. split; [assumption|].
  unfold TimedLoading.loadingTickRate, Math.min. apply Rmin_glb; lra.
Qed.

Section TimedShortTick.

Variable params : TimedLoading.Params.
Variable interval : R.
Variable p : CompartmentalParameters.
Variable maxRate : R.
Variable loadingRate : R.
Variable duration : R.
Variable total : R.

Hypothesis Hvc : 0 < vc p.
Hypothesis Hk10 : 0 <= k10 p.
Hypothesis Hk12 : 0 <= k12 p.
Hypothesis Hk13 : 0 <= k13 p.
Hypothesis Hk21 : 0 <= k21 p.
Hypothesis Hk31 : 0 <= k31 p.
Hypothesis Hke0 : 0 <= ke0 p.
Hypothesis Hinterval : 0 < interval.
Hypothesis Hmax : 0 <= maxRate.
Hypothesis Hloading : 0 <= loadingRate.
Hypothesis Hcentral : interval / 60 * (k10 p + k12 p + k13 p + ke0 p) <= 1.
Hypothesis Hsecond : interval / 60 * k21 p <= 1.
Hypothesis Hthird : interval / 60 * k31 p <= 1.
Hypothesis Heffect : interval / 60 * ke0 p <= 1.

Let rateAt := TimedLoading.rateAt params interval p maxRate loadingRate duration total.

Lemma timed_rate_nonneg (st : TimedLoading.LoopState) : 0 <= fst (rateAt st).
Proof.
  subst rateAt. unfold TimedLoading.rateAt.
  destruct (Rlt_dec (TimedLoading.t st) duration).
  - cbn [fst]. unfold Math.min. apply Rmin_glb; assumption.
  - destruct (Rlt_dec (TimedLoading.infused st) total) as [Hleft|]; cbn [fst]; [|lra].
    unfold Math.min. apply Rmin_glb.
    + unfold Math.max. apply Rmax_l.
    + apply Rlt_le, Rdiv_lt_0_compat; lra.
Qed.

Lemma timed_advance_nonNegative (r inf' : R) (st : TimedLoading.LoopState) :
  0 <= r ->
  TimedLoading.nonNegative st ->
  TimedLoading.nonNegative (TimedLoading.advance interval p r inf' st).
Proof.
  intros Hr (H1 & H2 & H3 & He).
  unfold TimedLoading.nonNegative, TimedLoading.advance;
    cbn [TimedLoading.C1 TimedLoading.C2 TimedLoading.C3 TimedLoading.Ce].
  set (dtMin := interval / 60) in *.
  assert (Hdt : 0 <= dtMin <= dtMin) by (subst dtMin; lra).
  assert (Hin : 0 <= r / vc p)
    by (apply Rmult_le_pos; [lra | apply Rlt_le, Rinv_0_lt_compat; lra]).
  pose proof (short_tick_keeps dtMin (k10 p + k12 p + k13 p + ke0 p)
                (TimedLoading.C1 st) dtMin ltac:(lra) Hcentral Hdt H1) as K1.
  pose proof (short_tick_keeps dtMin (k21 p) (TimedLoading.C2 st) dtMin
                Hk21 Hsecond Hdt H2) as K2.
  pose proof (short_tick_keeps dtMin (k31 p) (TimedLoading.C3 st) dtMin
                Hk31 Hthird Hdt H3) as K3.
  pose proof (short_tick_keeps dtMin (ke0 p) (TimedLoading.Ce st) dtMin
                Hke0 Heffect Hdt He) as Ke.
  assert (G1 : 0 <= r / vc p * dtMin) by (apply Rmult_le_pos; lra).
  assert (G21 : 0 <= k21 p * TimedLoading.C2 st * dtMin)
    by (apply Rmult_le_pos; [apply Rmult_le_pos|]; lra).
  assert (G31 : 0 <= k31 p * TimedLoading.C3 st * dtMin)
    by (apply Rmult_le_pos; [apply Rmult_le_pos|]; lra).
  assert (G12 : 0 <= k12 p * TimedLoading.C1 st * dtMin)
    by (apply Rmult_le_pos; [apply Rmult_le_pos|]; lra).
  assert (G13 : 0 <= k13 p * TimedLoading.C1 st * dtMin)
    by (apply Rmult_le_pos; [apply Rmult_le_pos|]; lra).
  assert (Ge : 0 <= ke0 p * TimedLoading.C1 st * dtMin)
    by (apply Rmult_le_pos; [apply Rmult_le_pos|]; lra).
  repeat split; lra.
Qed.

Lemma timed_loop_nonNegative (fuel : nat) (st : TimedLoading.LoopState) :
  TimedLoading.nonNegative st ->
  Forall (fun s => 0 <= TimedLoading.ce s)
    (fst (TimedLoading.loop params interval p maxRate loadingRate duration total
            fuel st)).
Proof.
  revert fuel st.
  apply (timed_loop_ticks params interval p maxRate loadingRate duration total
           (fun st l =>
              TimedLoading.nonNegative st ->
              Forall (fun s => 0 <= TimedLoading.ce s) l)).
  - constructor.
  - intros st l r inf' st' IH Hst.
    pose proof (timed_rate_nonneg st) as Hr. fold r in Hr.
    pose proof (timed_advance_nonNegative r inf' st Hr Hst) as Hst'.
    fold st' in Hst'.
    constructor; [|now apply IH].
    cbn [TimedLoading.pushed TimedLoading.ce]. apply Hst'.
Qed.

End TimedShortTick.

(** X26. The timed version keeps the concentrations non-negative when its
    tick in minutes, [intervalSec / 60], is short against the rate constants:
    for a valid input with [dtMin * (k10 + k12 + k13 + ke0)], [dtMin * k21],
    [dtMin * k31] and [dtMin * ke0] all at most 1, every step has a
    non-negative effect-site concentration. The reference patient with its
    tick of 10 s is such an input. *)
Theorem timed_short_tick_nonnegative (params : TimedLoading.Params) (fuel : nat) :
  TimedLoading.valid_params params ->
  TimedLoading.stableStep params ->
  Forall (fun s => 0 <= TimedLoading.ce s)
    (TimedLoading.steps (TimedLoading.eleveldProtocol fuel params)).
Proof.
  intros V (Hc & H2 & H3 & He).
  destruct (timed_resolved_facts params V) as (Hi & Hm & Hl & _).
  destruct (kinetics_positive _ (timed_covariates params V))
    as (Hvc & Hk10 & Hk12 & Hk13 & Hk21 & Hk31 & Hke0).
  fold (TimedLoading.eleveldParameters params)
    in Hvc, Hk10, Hk12, Hk13, Hk21, Hk31, Hke0.
  pose proof (TimedLoading.valid_current _ V) as H0.
  assert (Hst : TimedLoading.nonNegative (TimedLoading.initialState params)).
  { unfold TimedLoading.nonNegative, TimedLoading.initialState;
      cbn [TimedLoading.C1 TimedLoading.C2 TimedLoading.C3 TimedLoading.Ce]. lra. }
  pose proof (timed_loop_nonNegative params (TimedLoading.resolvedInterval params)
                (TimedLoading.eleveldParameters params)
                (TimedLoading.maxRateMgMin params)
                (TimedLoading.loadingRateMgMin params)
                (TimedLoading.resolvedLoadingDuration params)
                (TimedLoading.totalMaintDoseMg params)
                Hvc ltac:(lra) ltac:(lra) ltac:(lra) ltac:(lra) ltac:(lra)
                ltac:(lra) Hi ltac:(lra) Hl Hc H2 H3 He
                fuel (TimedLoading.initialState params) Hst) as Hall.
  unfold TimedLoading.eleveldProtocol.
  destruct (TimedLoading.loop _ _ _ _ _ _ _ fuel _) as [rest fin];
    cbn [fst TimedLoading.steps] in *.
  constructor; [|assumption].
  cbn [TimedLoading.initialStep TimedLoading.ce]. assumption.
Qed.

Lemma timed_referencePatient_valid :
  TimedLoading.valid_params TimedLoading.referencePatient.
Proof. constructor; cbn; lra. Qed.

Lemma timed_referencePatient_parameters :
  TimedLoading.eleveldParameters TimedLoading.referencePatient
  = eleveldParameters referencePatient.
Proof. reflexivity. Qed.

Lemma timed_referencePatient_stable :
  TimedLoading.stableStep TimedLoading.referencePatient.
Proof.
  unfold TimedLoading.stableStep. cbv zeta.
  rewrite timed_referencePatient_parameters.
  change (TimedLoading.resolvedInterval TimedLoading.referencePatient) with 10.
  pose proof reference_k12 as [? ?].
  pose proof reference_k13 as [? ?].
  pose proof reference_k31 as [? ?].
  pose proof reference_k21 as H21.
  rewrite reference_k10, reference_ke0.
  repeat split; lra.
Qed.

Lemma timed_short_tick_nonnegative_witness :
  (TimedLoading.valid_params TimedLoading.referencePatient
   /\ TimedLoading.stableStep TimedLoading.referencePatient)
  /\ Forall (fun s => 0 <= TimedLoading.ce s)
       (TimedLoading.steps
          (TimedLoading.eleveldProtocol 40 TimedLoading.referencePatient)).
Proof.
  split; [split; [exact timed_referencePatient_valid
                 | exact timed_referencePatient_stable]|].
  exact (timed_short_tick_nonnegative TimedLoading.referencePatient 40
           timed_referencePatient_valid timed_referencePatient_stable).
Defined.

(** ** Full ticks *)

Section TimedFullTicks.

Variable params : TimedLoading.Params.
Variable interval : R.
Variable p : CompartmentalParameters.
Variable maxRate : R.
Variable loadingRate : R.
Variable duration : R.
Variable total : R.

Let rL := Math.min loadingRate maxRate.

(** While the loading phase lasts the cumulative dose is the loading rate
    times the minutes elapsed. *)
Lemma timed_loading_law (fuel : nat) (st : TimedLoading.LoopState) :
  0 < interval ->
  TimedLoading.cumulative st = rL * (TimedLoading.t st / 60)
  \/ duration <= TimedLoading.t st ->
  Forall (fun s =>
            TimedLoading.phase s = TimedLoading.loading ->
            TimedLoading.cumulativeDoseMg s = rL * (TimedLoading.time s / 60))
    (fst (TimedLoading.loop params interval p maxRate loadingRate duration total
            fuel st)).
Proof.
  intros Hi. revert fuel st.
  apply (timed_loop_ticks params interval p maxRate loadingRate duration total
           (fun st l =>
              TimedLoading.cumulative st = rL * (TimedLoading.t st / 60)
              \/ duration <= TimedLoading.t st ->
              Forall (fun s =>
                        TimedLoading.phase s = TimedLoading.loading ->
                        TimedLoading.cumulativeDoseMg s
                        = rL * (TimedLoading.time s / 60)) l)).
  - constructor.
  - intros st l r inf' st' IH Hst.
    unfold TimedLoading.rateAt in r, inf'. unfold TimedLoading.phaseAt.
    destruct (Rlt_dec (TimedLoading.t st) duration) as [Hin|Hout].
    + assert (Ecum : TimedLoading.cumulative st' = rL * (TimedLoading.t st' / 60)).
      { destruct Hst as [Hst|Hst]; [|lra].
        subst st' r; cbn [fst TimedLoading.advance TimedLoading.cumulative
                          TimedLoading.t].
        rewrite Hst. subst rL. field. }
      constructor; [intros _; exact Ecum | apply IH; now left].
    + constructor; [intros Hph; discriminate|].
      apply IH. right. subst st'; cbn [TimedLoading.advance TimedLoading.t]. lra.
Qed.

Lemma timed_fullTicks (fuel : nat) (st : TimedLoading.LoopState) :
  0 < TimedLoading.weightKg params ->
  interval = TimedLoading.resolvedInterval params ->
  TimedLoading.fullTicks params (TimedLoading.cumulative st)
    (fst (TimedLoading.loop params interval p maxRate loadingRate duration total
            fuel st)).
Proof.
  intros Hw Ei. revert fuel st.
  apply (timed_loop_ticks params interval p maxRate loadingRate duration total
           (fun st l => TimedLoading.fullTicks params (TimedLoading.cumulative st) l)).
  - intros st. exact I.
  - intros st l r inf' st' IH. cbn [TimedLoading.fullTicks].
    split; [|exact IH].
    cbn [TimedLoading.pushed TimedLoading.cumulativeDoseMg TimedLoading.rate].
    subst st'; cbn [TimedLoading.advance TimedLoading.cumulative].
    rewrite <- Ei. field. lra.
Qed.

End TimedFullTicks.

(** X27. The timed version never cuts a tick.  With a positive interval
    and a positive weight, every loading step has a cumulative dose of the
    loading tick rate (the loading rate held to the pump ceiling, in mg/min)
    times the minutes elapsed at that step, so the loading phase delivers
    whole ticks even when the loading duration ends inside one; and after
    the starting state, which has cumulative dose 0, every step adds to the
    cumulative dose exactly what its rate (mcg/kg/min, times the weight)
    delivers over one full tick of [intervalSec / 60] minutes. *)
Theorem timed_whole_ticks (params : TimedLoading.Params) (fuel : nat) :
  0 < TimedLoading.resolvedInterval params ->
  0 < TimedLoading.weightKg params ->
  Forall (fun s =>
            TimedLoading.phase s = TimedLoading.loading ->
            TimedLoading.cumulativeDoseMg s
            = TimedLoading.loadingTickRate params * (TimedLoading.time s / 60))
    (TimedLoading.steps (TimedLoading.eleveldProtocol fuel params))
  /\ match TimedLoading.steps (TimedLoading.eleveldProtocol fuel params) with
     | [] => False
     | first :: rest =>
         TimedLoading.cumulativeDoseMg first = 0
         /\ TimedLoading.fullTicks params 0 rest
     end.
Proof.
  intros Hi Hw.
  pose proof (timed_loading_law params (TimedLoading.resolvedInterval params)
                (TimedLoading.eleveldParameters params)
                (TimedLoading.maxRateMgMin params)
                (TimedLoading.loadingRateMgMin params)
                (TimedLoading.resolvedLoadingDuration params)
                (TimedLoading.totalMaintDoseMg params) fuel
                (TimedLoading.initialState params) Hi) as Hlaw.
  pose proof (timed_fullTicks params (TimedLoading.resolvedInterval params)
                (TimedLoading.eleveldParameters params)
                (TimedLoading.maxRateMgMin params)
                (TimedLoading.loadingRateMgMin params)
                (TimedLoading.resolvedLoadingDuration params)
                (TimedLoading.totalMaintDoseMg params) fuel
                (TimedLoading.initialState params) Hw eq_refl) as Hfull.
  unfold TimedLoading.eleveldProtocol.
  destruct (TimedLoading.loop _ _ _ _ _ _ _ fuel _) as [rest fin];
    cbn [fst TimedLoading.steps] in *.
  split; [|split; [reflexivity | exact Hfull]].
  constructor.
  - intros _. cbn [TimedLoading.initialStep TimedLoading.cumulativeDoseMg
                   TimedLoading.time]. unfold Rdiv. ring.
  - apply Hlaw. left.
    cbn [TimedLoading.initialState TimedLoading.cumulative TimedLoading.t].
    unfold Rdiv. ring.
Qed.

Lemma timed_whole_ticks_witness :
  (0 < TimedLoading.resolvedInterval TimedLoading.referencePatient
   /\ 0 < TimedLoading.weightKg TimedLoading.referencePatient)
  /\ Forall (fun s =>
               TimedLoading.phase s = TimedLoading.loading ->
               TimedLoading.cumulativeDoseMg s
               = TimedLoading.loadingTickRate TimedLoading.referencePatient
                 * (TimedLoading.time s / 60))
       (TimedLoading.steps
          (TimedLoading.eleveldProtocol 40 TimedLoading.referencePatient))
  /\ match TimedLoading.steps
             (TimedLoading.eleveldProtocol 40 TimedLoading.referencePatient) with
     | [] => False
     | first :: rest =>
         TimedLoading.cumulativeDoseMg first = 0
         /\ TimedLoading.fullTicks TimedLoading.referencePatient 0 rest
     end.
Proof.
  assert (Hi : 0 < TimedLoading.resolvedInterval TimedLoading.referencePatient)
    by (cbn; lra).
  assert (Hw : 0 < TimedLoading.weightKg TimedLoading.referencePatient)
    by (cbn; lra).
  split; [split; [exact Hi | exact Hw]|].
  exact (timed_whole_ticks TimedLoading.referencePatient 40 Hi Hw).
Defined.

(** * The earlier simulator with a bolus and a fixed rate *)

Section FixedLoop.

Variable interval : R.
Variable p : CompartmentalParameters.
Variable infusionRate : R.
Variable ratePerKg : R.
Variable total : R.

Let advance := FixedRate.advance interval p infusionRate total.
Let pushed := FixedRate.pushed interval p infusionRate ratePerKg total.
Let loop := FixedRate.loop interval p infusionRate ratePerKg total.

(** Induction over the iterations of the loop. *)
Lemma fixed_loop_ticks
    (P : FixedRate.LoopState -> list FixedRate.DosingStep -> Prop) :
  (forall st, P st []) ->
  (forall st l, P (advance st) l -> P st (pushed st :: l)) ->
  forall fuel st, P st (fst (loop fuel st)).
Proof.
  intros Hnil Htick. subst loop.
  induction fuel as [|fuel IH]; intros st; cbn [FixedRate.loop].
  - apply Hnil.
  - destruct (FixedRate.breaks interval p infusionRate total st).
    + cbn [fst]. apply Htick, Hnil.
    + specialize (IH (FixedRate.advance interval p infusionRate total st)).
      destruct (FixedRate.loop interval p infusionRate ratePerKg total fuel _)
        as [rest fin]; cbn [fst] in *.
      now apply Htick.
Qed.

Lemma fixed_times (fuel : nat) (st : FixedRate.LoopState) (k : nat) :
  FixedRate.t st = INR k * interval ->
  FixedRate.timesFrom interval k (fst (loop fuel st)).
Proof.
  revert k. revert fuel st.
  apply (fixed_loop_ticks
           (fun st l =>
              forall k, FixedRate.t st = INR k * interval ->
                        FixedRate.timesFrom interval k l)).
  - intros st k _. exact I.
  - intros st l IH k Hk. cbn [FixedRate.timesFrom].
    split; [exact Hk|]. apply IH.
    subst advance; cbn [FixedRate.advance FixedRate.t]. rewrite Hk, S_INR. ring.
Qed.

Lemma fixed_rates (fuel : nat) (st : FixedRate.LoopState) :
  Forall (fun s =>
            FixedRate.phase s = FixedRate.maintenance
            /\ (FixedRate.rate s = ratePerKg \/ FixedRate.rate s = 0))
    (fst (loop fuel st)).
Proof.
  revert fuel st.
  apply (fixed_loop_ticks
           (fun _ l =>
              Forall (fun s =>
                        FixedRate.phase s = FixedRate.maintenance
                        /\ (FixedRate.rate s = ratePerKg \/ FixedRate.rate s = 0)) l)).
  - constructor.
  - intros st l IH. constructor; [|assumption].
    subst pushed; cbn [FixedRate.pushed FixedRate.phase FixedRate.rate].
    split; [reflexivity|].
    destruct (Rlt_dec (FixedRate.infused st) total); [now left | now right].
Qed.

(** The cumulative dose grows with the volume infused, which passes the
    total by less than one tick. *)
Lemma fixed_delivery (bolus : R) (fuel : nat) (st : FixedRate.LoopState) :
  0 <= infusionRate * (interval / 60) ->
  0 <= FixedRate.infused st <= total + infusionRate * (interval / 60) ->
  FixedRate.cumulative st = bolus + FixedRate.infused st ->
  Forall (fun s =>
            FixedRate.cumulative st <= FixedRate.cumulativeDoseMg s
            <= bolus + total + infusionRate * (interval / 60))
    (fst (loop fuel st))
  /\ Sorted (fun s s' => FixedRate.cumulativeDoseMg s <= FixedRate.cumulativeDoseMg s')
       (fst (loop fuel st)).
Proof.
  intros Htick. revert fuel st.
  apply (fixed_loop_ticks
           (fun st l =>
              0 <= FixedRate.infused st <= total + infusionRate * (interval / 60) ->
              FixedRate.cumulative st = bolus + FixedRate.infused st ->
              Forall (fun s =>
                        FixedRate.cumulative st <= FixedRate.cumulativeDoseMg s
                        <= bolus + total + infusionRate * (interval / 60)) l
              /\ Sorted (fun s s' =>
                           FixedRate.cumulativeDoseMg s
                           <= FixedRate.cumulativeDoseMg s') l)).
  - intros st _ _. split; constructor.
  - intros st l IH Hinf Hcum.
    assert (Hadd : FixedRate.infused (advance st)
                   = FixedRate.infused st
                     + FixedRate.rateAt infusionRate total st * (interval / 60)
                   /\ FixedRate.cumulative (advance st)
                      = FixedRate.cumulative st
                        + FixedRate.rateAt infusionRate total st * (interval / 60))
      by (split; reflexivity).
    destruct Hadd as [Einf Ecum].
    assert (Hrate : 0 <= FixedRate.rateAt infusionRate total st * (interval / 60)
                    /\ FixedRate.infused st
                       + FixedRate.rateAt infusionRate total st * (interval / 60)
                       <= total + infusionRate * (interval / 60)).
    { unfold FixedRate.rateAt.
      destruct (Rlt_dec (FixedRate.infused st) total); lra. }
    destruct (IH ltac:(lra) ltac:(lra)) as [Hall Hsorted].
    assert (Hstep : FixedRate.cumulativeDoseMg (pushed st)
                    = FixedRate.cumulative (advance st)) by reflexivity.
    split.
    + constructor; [rewrite Hstep; lra|].
      eapply Forall_impl; [|exact Hall]. cbn beta. intros s Hs. lra.
    + apply Sorted_cons_Forall; [|assumption].
      eapply Forall_impl; [|exact Hall]. cbn beta. intros s Hs.
      rewrite Hstep. lra.
Qed.

(** With nothing to infuse per tick and volume left, the loop goes on for
    ever. *)
Lemma fixed_loop_idle (fuel : nat) :
  infusionRate = 0 -> ratePerKg = 0 -> 0 < total ->
  forall st : FixedRate.LoopState,
    FixedRate.infused st = 0 ->
    snd (loop fuel st) = false
    /\ length (fst (loop fuel st)) = fuel
    /\ Forall (fun s => FixedRate.rate s = 0) (fst (loop fuel st)).
Proof.
  intros Er Ek Htotal. subst loop.
  induction fuel as [|fuel IH]; intros st Hinf; cbn [FixedRate.loop].
  - repeat split. constructor.
  - assert (Hb : FixedRate.breaks interval p infusionRate total st = false)
      by (unfold FixedRate.breaks; now rewrite Rlt_dec_true by lra).
    rewrite Hb.
    assert (Hinf' : FixedRate.infused (FixedRate.advance interval p infusionRate total st)
                    = 0).
    { cbn [FixedRate.advance FixedRate.infused]. unfold FixedRate.rateAt.
      rewrite Rlt_dec_true by lra. rewrite Hinf, Er. ring. }
    destruct (IH _ Hinf') as (Hfin & Hlen & Hall).
    destruct (FixedRate.loop interval p infusionRate ratePerKg total fuel _)
      as [rest fin]; cbn [fst snd length] in *.
    split; [assumption|]. split; [now rewrite Hlen|].
    constructor; [|assumption].
    cbn [FixedRate.pushed FixedRate.rate]. now rewrite Rlt_dec_true by lra.
Qed.

End FixedLoop.

(** X28. Whatever the input, the fixed-rate version returns the bolus step,
    if there is a bolus, followed by the steps of its loop: these are all
    tagged maintenance, their rate is the fixed maintenance rate or 0, and
    their [time] fields are the multiples 1, 2, 3, ... of the interval, not
    rounded.  A bolus step is at time 0, tagged loading, and carries the
    whole bolus as its cumulative dose. *)
Theorem fixed_steps_on_the_grid (params : FixedRate.Params) (fuel : nat) :
  exists rest,
    FixedRate.steps (FixedRate.eleveldProtocol fuel params)
    = FixedRate.bolusSteps params ++ rest
    /\ Forall (FixedRate.infusionStep params) rest
    /\ FixedRate.timesFrom (FixedRate.resolvedInterval params) 1 rest
    /\ Forall (fun s =>
                 FixedRate.time s = 0
                 /\ FixedRate.phase s = FixedRate.loading
                 /\ FixedRate.cumulativeDoseMg s = FixedRate.bolusMg params
                 /\ 0 < FixedRate.bolusMg params)
         (FixedRate.bolusSteps params).
Proof.
  unfold FixedRate.eleveldProtocol.
  pose proof (fixed_times (FixedRate.resolvedInterval params)
                (FixedRate.eleveldParameters params)
                (FixedRate.infusionRateMgMin params) (FixedRate.ratePerKg params)
                (FixedRate.totalInfDoseMg params) fuel
                (FixedRate.initialState params) 1) as Ht.
  pose proof (fixed_rates (FixedRate.resolvedInterval params)
                (FixedRate.eleveldParameters params)
                (FixedRate.infusionRateMgMin params) (FixedRate.ratePerKg params)
                (FixedRate.totalInfDoseMg params) fuel
                (FixedRate.initialState params)) as Hr.
  destruct (FixedRate.loop _ _ _ _ _ fuel _) as [rest fin];
    cbn [fst FixedRate.steps] in *.
  exists rest. split; [reflexivity|]. split; [exact Hr|]. split.
  - apply Ht. cbn [FixedRate.initialState FixedRate.t INR]. ring.
  - unfold FixedRate.bolusSteps.
    destruct (Rlt_dec 0 (FixedRate.bolusMg params)) as [Hpos|_]; constructor;
      [|constructor].
    cbn [FixedRate.time FixedRate.phase FixedRate.cumulativeDoseMg].
    repeat split. assumption.
Qed.

Lemma fixed_covariates (params : FixedRate.Params) :
  FixedRate.valid_params params ->
  valid_covariates
    (covariateParams (FixedRate.drug params) (FixedRate.ageYears params)
       (FixedRate.sex params) (FixedRate.weightKg params)
       (FixedRate.heightCm params)).
Proof.
  intros V. unfold valid_covariates; cbn [covariateParams ageYears weightKg heightCm].
  repeat split; apply V.
Qed.

(** X29. For a valid input of the fixed-rate version the cumulative dose
    never decreases, starts from the bolus, and ends above the bolus plus
    the infusion volume by at most the dose of one tick: the rate is not cut
    on the tick that spends the last of the volume. *)
Theorem fixed_delivery_bound (params : FixedRate.Params) (fuel : nat) :
  FixedRate.valid_params params ->
  Forall (fun s =>
            FixedRate.bolusMg params <= FixedRate.cumulativeDoseMg s
            <= FixedRate.bolusMg params + FixedRate.totalInfDoseMg params
               + FixedRate.tickDose params)
    (FixedRate.steps (FixedRate.eleveldProtocol fuel params))
  /\ Sorted (fun s s' => FixedRate.cumulativeDoseMg s <= FixedRate.cumulativeDoseMg s')
       (FixedRate.steps (FixedRate.eleveldProtocol fuel params)).
Proof.
  intros V.
  pose proof (cl1_positive _ (fixed_covariates params V)) as Hcl1.
  fold (FixedRate.eleveldParameters params) in Hcl1.
  pose proof (FixedRate.valid_target _ V) as Ht.
  pose proof (FixedRate.valid_interval _ V) as Hi.
  fold (FixedRate.resolvedInterval params) in Hi.
  assert (Htotal : 0 <= FixedRate.totalInfDoseMg params).
  { unfold FixedRate.totalInfDoseMg. apply Rmult_le_pos.
    - exact (FixedRate.valid_volume _ V).
    - apply Rlt_le. exact (FixedRate.valid_concentration _ V). }
  assert (Htick : 0 <= FixedRate.tickDose params).
  { unfold FixedRate.tickDose, FixedRate.infusionRateMgMin.
    apply Rmult_le_pos; [apply Rmult_le_pos; lra | lra]. }
  destruct (fixed_delivery (FixedRate.resolvedInterval params)
              (FixedRate.eleveldParameters params)
              (FixedRate.infusionRateMgMin params) (FixedRate.ratePerKg params)
              (FixedRate.totalInfDoseMg params) (FixedRate.bolusMg params) fuel
              (FixedRate.initialState params) Htick)
    as [Hall Hsorted].
  { cbn [FixedRate.initialState FixedRate.infused].
    fold (FixedRate.tickDose params). lra. }
  { cbn [FixedRate.initialState FixedRate.infused FixedRate.cumulative]. ring. }
  fold (FixedRate.tickDose params) in Hall.
  change (FixedRate.cumulative (FixedRate.initialState params))
    with (FixedRate.bolusMg params) in Hall.
  unfold FixedRate.eleveldProtocol.
  destruct (FixedRate.loop _ _ _ _ _ fuel _) as [rest fin];
    cbn [fst FixedRate.steps] in *.
  unfold FixedRate.bolusSteps.
  destruct (Rlt_dec 0 (FixedRate.bolusMg params)) as [Hpos|_]; cbn [app].
  - split.
    + constructor; [cbn [FixedRate.cumulativeDoseMg]; lra | assumption].
    + apply Sorted_cons_Forall; [|assumption].
      eapply Forall_impl; [|exact Hall]. cbn beta. intros s Hs.
      cbn [FixedRate.cumulativeDoseMg]. lra.
  - split; assumption.
Qed.

Lemma fixed_referencePatient_valid :
  FixedRate.valid_params FixedRate.referencePatient.
Proof. constructor; cbn; lra. Qed.

Lemma fixed_delivery_bound_witness :
  FixedRate.valid_params FixedRate.referencePatient
  /\ Forall (fun s =>
               FixedRate.bolusMg FixedRate.referencePatient
               <= FixedRate.cumulativeDoseMg s
               <= FixedRate.bolusMg FixedRate.referencePatient
                  + FixedRate.totalInfDoseMg FixedRate.referencePatient
                  + FixedRate.tickDose FixedRate.referencePatient)
       (FixedRate.steps (FixedRate.eleveldProtocol 40 FixedRate.referencePatient))
  /\ Sorted (fun s s' => FixedRate.cumulativeDoseMg s <= FixedRate.cumulativeDoseMg s')
       (FixedRate.steps (FixedRate.eleveldProtocol 40 FixedRate.referencePatient)).
Proof.
  split; [exact fixed_referencePatient_valid|].
  exact (fixed_delivery_bound FixedRate.referencePatient 40
           fixed_referencePatient_valid).
Defined.

(** X30. With a target of 0 and a positive infusion volume the fixed-rate
    version never returns: the fixed rate [targetCe * CL1] is 0, nothing is
    ever infused, so the volume is never spent and the break is never
    taken.  However many iterations the run is allowed, it has not returned,
    and it has pushed one step with rate 0 per iteration and no bolus
    step. *)
Theorem fixed_zero_target_never_returns (params : FixedRate.Params) (fuel : nat) :
  FixedRate.valid_params params ->
  FixedRate.targetCe params = 0 ->
  0 < FixedRate.volumeMl params ->
  FixedRate.returned (FixedRate.eleveldProtocol fuel params) = false
  /\ length (FixedRate.steps (FixedRate.eleveldProtocol fuel params)) = fuel
  /\ Forall (fun s => FixedRate.rate s = 0)
       (FixedRate.steps (FixedRate.eleveldProtocol fuel params)).
Proof.
  intros V HT Hvol.
  pose proof (FixedRate.valid_current _ V) as H0.
  assert (Er : FixedRate.infusionRateMgMin params = 0)
    by (unfold FixedRate.infusionRateMgMin; rewrite HT; ring).
  assert (Ek : FixedRate.ratePerKg params = 0)
    by (unfold FixedRate.ratePerKg; rewrite Er; unfold Rdiv; ring).
  assert (Htotal : 0 < FixedRate.totalInfDoseMg params).
  { unfold FixedRate.totalInfDoseMg. apply Rmult_lt_0_compat; [assumption|].
    exact (FixedRate.valid_concentration _ V). }
  assert (Eb : FixedRate.bolusSteps params = []).
  { unfold FixedRate.bolusSteps, FixedRate.bolusMg, FixedRate.deltaCe,
      FixedRate.startCe. rewrite HT. unfold Math.max.
    rewrite Rmax_right by lra. now rewrite Rlt_dec_false by lra. }
  destruct (fixed_loop_idle (FixedRate.resolvedInterval params)
              (FixedRate.eleveldParameters params)
              (FixedRate.infusionRateMgMin params) (FixedRate.ratePerKg params)
              (FixedRate.totalInfDoseMg params) fuel Er Ek Htotal
              (FixedRate.initialState params) eq_refl) as (Hfin & Hlen & Hall).
  unfold FixedRate.eleveldProtocol. rewrite Eb.
  destruct (FixedRate.loop _ _ _ _ _ fuel _) as [rest fin];
    cbn [fst snd FixedRate.steps FixedRate.returned app] in *.
  repeat split; assumption.
Qed.

Lemma fixed_zeroTargetPatient_valid :
  FixedRate.valid_params FixedRate.zeroTargetPatient.
Proof. constructor; cbn; lra. Qed.

Lemma fixed_zero_target_never_returns_witness :
  (FixedRate.valid_params FixedRate.zeroTargetPatient
   /\ FixedRate.targetCe FixedRate.zeroTargetPatient = 0
   /\ 0 < FixedRate.volumeMl FixedRate.zeroTargetPatient)
  /\ FixedRate.returned (FixedRate.eleveldProtocol 1000 FixedRate.zeroTargetPatient)
     = false
  /\ length (FixedRate.steps
               (FixedRate.eleveldProtocol 1000 FixedRate.zeroTargetPatient))
     = 1000%nat
  /\ Forall (fun s => FixedRate.rate s = 0)
       (FixedRate.steps
          (FixedRate.eleveldProtocol 1000 FixedRate.zeroTargetPatient)).
Proof.
  assert (Hvol : 0 < FixedRate.volumeMl FixedRate.zeroTargetPatient) by (cbn; lra).
  split.
  - split; [exact fixed_zeroTargetPatient_valid|]. split; [reflexivity | exact Hvol].
  - exact (fixed_zero_target_never_returns FixedRate.zeroTargetPatient 1000
             fixed_zeroTargetPatient_valid eq_refl Hvol).
Defined.
